(** * Master_Planning: the parametric site-layout generator

    A shallow embedding of [services/generator] ([generateBuilding] and its
    helpers) and the properties of it that the specification states.

    Modelling conventions.
    - A JavaScript [number] is an IEEE-754 binary64 value: Rocq's primitive
      [float]. [+ - * /], [<] and [===] on numbers are the primitive
      operations; [Math.floor], [Math.ceil], [Math.max] and [Math.min] are
      written out below; [Math.cos] is a parameter of the environment.
      [config.entryIndex] is the one integer-valued number (the consumer
      starts it at 0 and only ever adds 1): it is a [Z], and [%] on it is
      [Z.rem] (the sign of the dividend, as in JavaScript).
    - GeoJSON features are records of a geometry and a property bag.
    - The geometry library (turf) is not part of the repository: it is a
      record of operations, [Turf]. Operations that measure, test or build
      a feature from numbers are total; operations that compute new topology
      (the ones the source guards with try/catch or null checks) may throw.
    - A call either returns ([Val]), throws ([Throw]) or does not return
      ([Hang]: a loop whose bound is not finite, or whose fuel ran out).
    - [Math.random] is an oracle: a stream of numbers read in order. *)

From Stdlib Require Import Floats ZArith Bool String Lia PeanoNat List.
Import ListNotations.

Abbreviation length := List.length.

Set Implicit Arguments.
Set Warnings "-inexact-float".

Definition num : Set := float.

(** ** JavaScript numbers *)

Module Js.

Local Open Scope float_scope.

(** An integer counter as a number (exact below 2^53). *)
Definition ofZ (z : Z) : num :=
  if (z <? 0)%Z then - PrimFloat.of_uint63 (Uint63.of_Z (- z))
  else PrimFloat.of_uint63 (Uint63.of_Z z).

Definition ofNat (n : nat) : num := ofZ (Z.of_nat n).

(** The integer part, rounded down, of a finite number. *)
Definition floorZ (x : num) : option Z :=
  match Prim2SF x with
  | S754_zero _ => Some 0%Z
  | S754_finite s m e =>
      let q := (if 0 <=? e then Zpos m * 2 ^ e else Zpos m / 2 ^ (- e))%Z in
      let exact := (if 0 <=? e then true else Zpos m mod 2 ^ (- e) =? 0)%Z in
      Some (if s then (if exact then - q else - q - 1) else q)%Z
  | S754_infinity _ | S754_nan => None
  end.

Definition ceilZ (x : num) : option Z := option_map Z.opp (floorZ (- x)).

(** 2^52: from here on every binary64 value is an integer. *)
Definition two52 : num := 4503599627370496.
(** 2^53: from here on [i++] no longer changes [i]. *)
Definition two53 : num := 9007199254740992.

(** [Math.floor]: NaN, the infinities and the zeros are returned as they
    are, as is every number that is already an integer. *)
Definition Math_floor (x : num) : num :=
  match floorZ x with
  | None => x
  | Some z =>
      if PrimFloat.is_zero x then x
      else if two52 <=? PrimFloat.abs x then x
      else ofZ z
  end.

Definition Math_ceil (x : num) : num := - Math_floor (- x).

(** [Math.max] and [Math.min] of two numbers: NaN if either is NaN. *)
Definition Math_max (a b : num) : num :=
  if PrimFloat.is_nan a then a
  else if PrimFloat.is_nan b then b
  else if a <? b then b else a.

Definition Math_min (a b : num) : num :=
  if PrimFloat.is_nan a then a
  else if PrimFloat.is_nan b then b
  else if b <? a then b else a.

Definition Math_PI : num := 3.141592653589793.

(** [a > b], [a >= b] and [a !== b] on numbers. *)
Definition gtb (a b : num) : bool := b <? a.
Definition geb (a b : num) : bool := b <=? a.
Definition neqb (a b : num) : bool := negb (a =? b).

End Js.

(** ** Outcomes of a call *)

Inductive Res (A : Type) : Type :=
| Val (a : A)
| Throw
| Hang.

Arguments Val {A} a.
Arguments Throw {A}.
Arguments Hang {A}.

Definition bindR {A B} (r : Res A) (k : A -> Res B) : Res B :=
  match r with
  | Val a => k a
  | Throw => Throw
  | Hang => Hang
  end.

(** [try { body } catch (e) { handler }]: a loop that never ends is not
    caught. *)
Definition catchR {A} (body : Res A) (handler : Res A) : Res A :=
  match body with
  | Throw => handler
  | r => r
  end.

Declare Scope res_scope.
Delimit Scope res_scope with res.
Notation "x <- c ;; k" := (bindR c (fun x => k))
  (at level 61, c at next level, right associativity) : res_scope.
Notation "' p <- c ;; k" := (bindR c (fun p => k))
  (at level 61, p pattern, c at next level, right associativity) : res_scope.

(** A counting loop [for (let i = start; test(i); i++)]: the values [i]
    takes. The test is the source's; the fuel bounds the number of
    passes. *)
Fixpoint countWhile (test : num -> bool) (fuel : nat) (i : Z)
    : Res (list Z) :=
  if test (Js.ofZ i) then
    match fuel with
    | O => Hang
    | S fuel' =>
        bindR (countWhile test fuel' (i + 1)) (fun l => Val (i :: l))
    end
  else Val [].

(** [for (let i = start; i < bound; i++)]: the fuel is the number of
    integers from [start] below [bound]. Past 2^53 the counter stops moving
    and the loop never ends. *)
Definition forRange (start : Z) (bound : num) : Res (list Z) :=
  if (Js.two53 <? bound)%float then Hang
  else
    countWhile (fun i => (i <? bound)%float)
      (match Js.ceilZ bound with
       | None => 0
       | Some c => Z.to_nat (c - start)
       end)
      start.

(** [for (let i = start; i <= bound; i++)] *)
Definition forRangeIncl (start : Z) (bound : num) : Res (list Z) :=
  if (Js.two53 <=? bound)%float then Hang
  else
    countWhile (fun i => (i <=? bound)%float)
      (match Js.floorZ bound with
       | None => 0
       | Some c => Z.to_nat (c - start + 1)
       end)
      start.

(** ** The data model: [types.ts] and GeoJSON *)

Record LatLng := { lat : num; lng : num }.

Record SiteConfig := {
  roadWidth : num;
  lotWidth : num;
  lotDepth : num;
  parkPercentage : num;
  stories : num;
  entryIndex : Z
}.

Record ProjectStats := {
  siteArea : num;
  netSellableArea : num;
  roadArea : num;
  parkArea : num;
  totalLots : nat;
  efficiency : num;
  possibleEntrances : nat
}.

Inductive ConstraintType := PARK_ANCHOR.

Record UserConstraint := {
  id : string;
  type : ConstraintType;
  position : LatLng
}.

(** A GeoJSON position [[lng, lat]]: index 0 is [fst], index 1 is [snd]. *)
Definition Position : Set := (num * num)%type.
Definition Ring : Set := list Position.

(** The property bag of a feature: the keys the generator writes. The
    spread [{ ...f.properties, k: v }] is a record update. *)
Record Props := {
  lotId : option nat;
  isBottomRow : option bool;
  prop_alignmentAngle : option num; (* the key [alignmentAngle] *)
  parkId : option nat;
  kind : option string;              (* the key [type] *)
  heightFactor : option num;
  colorVariant : option num
}.

Definition noProps : Props :=
  {| lotId := None; isBottomRow := None; prop_alignmentAngle := None;
     parkId := None; kind := None; heightFactor := None;
     colorVariant := None |}.

Inductive PolyGeom :=
| Polygon (coordinates : list Ring)
| MultiPolygon (coordinates : list (list Ring)).

(** [Feature<Polygon | MultiPolygon>]; the source's casts to
    [Feature<Polygon>] are unchecked. *)
Record PolyF := { geometry : PolyGeom; properties : Props }.
(** [Feature<Point>] *)
Record PointF := { pt_coordinates : Position; pt_properties : Props }.
Inductive LineGeom :=
| LineString (coordinates : list Position)
| MultiLineString (coordinates : list (list Position)).

(** [Feature<LineString | MultiLineString>] *)
Record LineF := { ln_geometry : LineGeom; ln_properties : Props }.

(** The helpers [point], [lineString] and [multiPolygon] of
    [@turf/helpers]. *)
Definition point (c : Position) : PointF :=
  {| pt_coordinates := c; pt_properties := noProps |}.
Definition lineString (cs : list Position) : LineF :=
  {| ln_geometry := LineString cs; ln_properties := noProps |}.
Definition multiPolygon (cs : list (list Ring)) : PolyF :=
  {| geometry := MultiPolygon cs; properties := noProps |}.

Inductive AccessType := GATE | ROUNDABOUT.

Record AccessControl := {
  ac_type : AccessType;
  island : PolyF;
  guardHouse : option PolyF;
  barriers : option (list LineF);
  roundaboutExt : option PolyF;
  entryPoint : LatLng;
  rotation : num
}.

(** The entries of [superblocks], [lots] and [parks] may be null in the
    consumer's overrides; the generator itself never stores a null there.
    An entry of [perimeterWalls] is [None] when the boundary line pushed
    there is [undefined] (see [firstLine]). *)
Record GeneratedGeometry := {
  siteBoundary : option PolyF;
  superblocks : list PolyF;
  roads : list PolyF;
  lots : list PolyF;
  buildings : list PolyF;
  parks : list PolyF;
  trees : list PointF;
  perimeterWalls : list (option LineF);
  accessControl : option AccessControl;
  roadMarkings : list PolyF;
  stopSigns : list PointF;
  entranceCandidates : list LatLng;
  isValid : bool;
  error : option string
}.

Record BBox := { b0 : num; b1 : num; b2 : num; b3 : num }.

Inductive Units := Kilometers | Meters.

(** What [turf.polygonToLine] returns: one feature or a collection. *)
Inductive LineResult :=
| ResultFeature (l : LineF)
| ResultCollection (features : list LineF).

(** ** The geometry library *)

(** A library call returns or throws. *)
Inductive Try (A : Type) : Type :=
| Returned (a : A)
| Thrown.

Arguments Returned {A} a.
Arguments Thrown {A}.

Definition call {A} (t : Try A) : Res A :=
  match t with
  | Returned a => Val a
  | Thrown => Throw
  end.

Record Turf := {
  (* helpers *)
  polygon : list Ring -> Try PolyF;
  (* measurement *)
  turf_area : PolyF -> num;
  turf_bbox : PolyF -> BBox;
  turf_center : PolyF -> PointF;
  turf_distance : PointF -> PointF -> Units -> num;
  turf_bearing : PointF -> PointF -> num;
  turf_length : LineF -> num;
  (* predicates *)
  turf_booleanPointInPolygon : PointF -> PolyF -> bool;
  turf_booleanIntersects : PolyF -> PolyF -> bool;
  (* construction *)
  turf_bboxPolygon : BBox -> PolyF;
  turf_circle : PointF -> num -> Units -> nat -> PolyF;
  turf_destination : PointF -> num -> num -> Units -> PointF;
  turf_along : LineF -> num -> PointF;
  turf_nearestPointOnLine : LineF -> PointF -> PointF;
  turf_rewind : PolyF -> PolyF;
  rotatePoly : PolyF -> num -> PointF -> PolyF;      (* transformRotate *)
  rotatePoint : PointF -> num -> PointF -> PointF;   (* transformRotate *)
  rotateLine : LineF -> num -> PointF -> LineF;      (* transformRotate *)
  (* topology: may throw; [None] is the source's null. The boundary line
     handed to [lineIntersect] and [lineSplit] may be [undefined], and the
     splitter is whatever [polygonToLine] returned. *)
  turf_cleanCoords : PolyF -> Try PolyF;
  turf_kinks : PolyF -> Try (list PointF);
  turf_intersect : PolyF -> PolyF -> Try (option PolyF);
  turf_difference : PolyF -> PolyF -> Try (option PolyF);
  turf_union : PolyF -> PolyF -> Try (option PolyF);
  turf_buffer : PolyF -> num -> Units -> Try (option PolyF);
  turf_dissolve : list PolyF -> Try (list PolyF);
  turf_polygonToLine : PolyF -> Try LineResult;
  turf_lineIntersect : LineF -> option LineF -> Try (list PointF);
  turf_lineSplit : option LineF -> LineResult -> Try (list LineF)
}.

(** ** Arrays *)

(** [Array.prototype.sort] with a comparator [cmp a b] (negative: [a]
    first): the sort is stable, so for a consistent comparator the result
    is the one of a stable insertion sort. *)
Section Sort.
Variable A : Type.
Variable cmp : A -> A -> num.

Fixpoint insertSorted (x : A) (l : list A) : list A :=
  match l with
  | [] => [x]
  | y :: l' =>
      if (0 <? cmp y x)%float then x :: l else y :: insertSorted x l'
  end.

Definition sortBy (l : list A) : list A :=
  fold_left (fun acc x => insertSorted x acc) l [].
End Sort.

(** [arr.splice(start, deleteCount, ...items)] *)
Definition splice {A} (arr : list A) (start deleteCount : nat)
    (items : list A) : list A :=
  firstn start arr ++ items ++ skipn (start + deleteCount) arr.

(** [arr.reduce((acc, x) => acc + f(x), 0)] *)
Definition sumOf {A} (f : A -> num) (arr : list A) : num :=
  fold_left (fun acc x => (acc + f x)%float) arr 0%float.

(** A loop body run over an array, left to right, threading an
    accumulator; it stops at the first throw. *)
Fixpoint foldR {A S} (body : S -> A -> Res S) (arr : list A) (s : S)
    : Res S :=
  match arr with
  | [] => Val s
  | x :: arr' => bindR (body s x) (foldR body arr')
  end.

(** ** The grid *)

Inductive BlockType := Unknown | Park | Residential.

Definition isPark (t : BlockType) : bool :=
  match t with Park => true | _ => false end.
Definition isUnknown (t : BlockType) : bool :=
  match t with Unknown => true | _ => false end.

Record GridCell := {
  poly : PolyF;
  cellType : BlockType;              (* the field [type] *)
  originalPoly : PolyF;
  col : nat;
  row : nat;
  originalBbox : BBox
}.

Definition setType (t : BlockType) (b : GridCell) : GridCell :=
  {| poly := poly b; cellType := t; originalPoly := originalPoly b;
     col := col b; row := row b; originalBbox := originalBbox b |}.

(** A constraint with its position in the working frame ([localPos]). *)
Record WorkingConstraint := {
  constraint : UserConstraint;
  localPos : PointF
}.

(** ** Property updates *)

Definition setProps (f : PolyF) (p : Props) : PolyF :=
  {| geometry := geometry f; properties := p |}.

(** [{ ...p, lotId, isBottomRow, alignmentAngle }] *)
Definition lotProps (p : Props) (i : nat) (isBottom : bool) (angle : num)
    : Props :=
  {| lotId := Some i; isBottomRow := Some isBottom;
     prop_alignmentAngle := Some angle; parkId := parkId p; kind := kind p;
     heightFactor := heightFactor p; colorVariant := colorVariant p |}.

(** [{ ...p, parkId }] *)
Definition parkProps (p : Props) (i : nat) : Props :=
  {| lotId := lotId p; isBottomRow := isBottomRow p;
     prop_alignmentAngle := prop_alignmentAngle p; parkId := Some i;
     kind := kind p; heightFactor := heightFactor p;
     colorVariant := colorVariant p |}.

(** [{ ...p, lotId }] *)
Definition treeProps (p : Props) (i : nat) : Props :=
  {| lotId := Some i; isBottomRow := isBottomRow p;
     prop_alignmentAngle := prop_alignmentAngle p; parkId := parkId p;
     kind := kind p; heightFactor := heightFactor p;
     colorVariant := colorVariant p |}.

(** [{ type: 'park-tree', parkId }] *)
Definition parkTreeProps (i : nat) : Props :=
  {| lotId := None; isBottomRow := None; prop_alignmentAngle := None;
     parkId := Some i; kind := Some "park-tree"%string;
     heightFactor := None; colorVariant := None |}.

(** [{ heightFactor, colorVariant, lotId }] *)
Definition buildingProps (h c : num) (i : nat) : Props :=
  {| lotId := Some i; isBottomRow := None; prop_alignmentAngle := None;
     parkId := None; kind := None; heightFactor := Some h;
     colorVariant := Some c |}.

(** ** The layout pass: mutable state, exceptions and [Math.random] *)

(** The arrays and counters the nested closures of [generateBuilding]
    write to, and the stream of numbers [Math.random] will return. What a
    block pushed before it threw stays pushed. *)
Record Layout := {
  tempLots : list PolyF;
  tempBuildings : list PolyF;
  tempParks : list PolyF;
  tempTrees : list PointF;
  tempSuperblocks : list PolyF;
  globalLotIndex : nat;
  lotsGeneratedInBlock : nat;
  random : nat -> num
}.

Definition M (A : Type) : Type := Layout -> Res A * Layout.

Definition ret {A} (a : A) : M A := fun s => (Val a, s).

Definition bind {A B} (c : M A) (k : A -> M B) : M B :=
  fun s =>
    match c s with
    | (Val a, s') => k a s'
    | (Throw, s') => (Throw, s')
    | (Hang, s') => (Hang, s')
    end.

Definition liftR {A} (r : Res A) : M A := fun s => (r, s).

Definition tryCatch {A} (body handler : M A) : M A :=
  fun s =>
    match body s with
    | (Throw, s') => handler s'
    | r => r
    end.

Declare Scope layout_scope.
Delimit Scope layout_scope with M.
Notation "x <- c ;; k" := (bind c (fun x => k))
  (at level 61, c at next level, right associativity) : layout_scope.
Notation "c ;; k" := (bind c (fun _ => k))
  (at level 61, right associativity) : layout_scope.

Definition gets {A} (f : Layout -> A) : M A := fun s => (Val (f s), s).
Definition modify (f : Layout -> Layout) : M unit := fun s => (Val tt, f s).

Definition Math_random : M num :=
  fun s =>
    (Val (random s 0%nat),
     {| tempLots := tempLots s; tempBuildings := tempBuildings s;
        tempParks := tempParks s; tempTrees := tempTrees s;
        tempSuperblocks := tempSuperblocks s;
        globalLotIndex := globalLotIndex s;
        lotsGeneratedInBlock := lotsGeneratedInBlock s;
        random := fun n => random s (S n) |}).

Definition pushLot (l : PolyF) : M unit :=
  modify (fun s =>
    {| tempLots := tempLots s ++ [l]; tempBuildings := tempBuildings s;
       tempParks := tempParks s; tempTrees := tempTrees s;
       tempSuperblocks := tempSuperblocks s;
       globalLotIndex := globalLotIndex s;
       lotsGeneratedInBlock := lotsGeneratedInBlock s;
       random := random s |}).

Definition pushBuilding (b : PolyF) : M unit :=
  modify (fun s =>
    {| tempLots := tempLots s; tempBuildings := tempBuildings s ++ [b];
       tempParks := tempParks s; tempTrees := tempTrees s;
       tempSuperblocks := tempSuperblocks s;
       globalLotIndex := globalLotIndex s;
       lotsGeneratedInBlock := lotsGeneratedInBlock s;
       random := random s |}).

Definition pushPark (p : PolyF) : M unit :=
  modify (fun s =>
    {| tempLots := tempLots s; tempBuildings := tempBuildings s;
       tempParks := tempParks s ++ [p]; tempTrees := tempTrees s;
       tempSuperblocks := tempSuperblocks s;
       globalLotIndex := globalLotIndex s;
       lotsGeneratedInBlock := lotsGeneratedInBlock s;
       random := random s |}).

Definition pushTree (t : PointF) : M unit :=
  modify (fun s =>
    {| tempLots := tempLots s; tempBuildings := tempBuildings s;
       tempParks := tempParks s; tempTrees := tempTrees s ++ [t];
       tempSuperblocks := tempSuperblocks s;
       globalLotIndex := globalLotIndex s;
       lotsGeneratedInBlock := lotsGeneratedInBlock s;
       random := random s |}).

Definition pushSuperblock (b : PolyF) : M unit :=
  modify (fun s =>
    {| tempLots := tempLots s; tempBuildings := tempBuildings s;
       tempParks := tempParks s; tempTrees := tempTrees s;
       tempSuperblocks := tempSuperblocks s ++ [b];
       globalLotIndex := globalLotIndex s;
       lotsGeneratedInBlock := lotsGeneratedInBlock s;
       random := random s |}).

Definition setGlobalLotIndex (n : nat) : M unit :=
  modify (fun s =>
    {| tempLots := tempLots s; tempBuildings := tempBuildings s;
       tempParks := tempParks s; tempTrees := tempTrees s;
       tempSuperblocks := tempSuperblocks s;
       globalLotIndex := n;
       lotsGeneratedInBlock := lotsGeneratedInBlock s;
       random := random s |}).

Definition setLotsGeneratedInBlock (n : nat) : M unit :=
  modify (fun s =>
    {| tempLots := tempLots s; tempBuildings := tempBuildings s;
       tempParks := tempParks s; tempTrees := tempTrees s;
       tempSuperblocks := tempSuperblocks s;
       globalLotIndex := globalLotIndex s;
       lotsGeneratedInBlock := n;
       random := random s |}).

(** [arr.forEach(body)] *)
Fixpoint forEach {A} (arr : list A) (body : A -> M unit) : M unit :=
  match arr with
  | [] => ret tt
  | x :: arr' => bind (body x) (fun _ => forEach arr' body)
  end.

(** [arr.map(f)] for an [f] that may throw. *)
Fixpoint mapR {A B} (f : A -> Res B) (arr : list A) : Res (list B) :=
  match arr with
  | [] => Val []
  | x :: arr' =>
      bindR (f x) (fun y => bindR (mapR f arr') (fun ys => Val (y :: ys)))
  end.

(** ** Sliver repair: the "smart merge" loop of [processZone] *)

Section SliverRepair.

Variable area : PolyF -> num.
Variable union : PolyF -> PolyF -> Try (option PolyF).
Variable targetLotArea : num.

Local Open Scope float_scope.

Definition minViableArea : num := targetLotArea * 0.75.

(** The scan for the "worst" lot: [worstIdx] is [None] for -1. *)
Fixpoint findWorst (lots : list PolyF) (i : nat) (minScore : num)
    (worstIdx : option nat) : option nat :=
  match lots with
  | [] => worstIdx
  | l :: rest =>
      let a := area l in
      if (a <? minViableArea) && (a <? minScore)
      then findWorst rest (S i) a (Some i)
      else findWorst rest (S i) minScore worstIdx
  end.

Definition worstOf (mergedLots : list PolyF) : option nat :=
  findWorst mergedLots 0 infinity None.

(** [targetIdx], [None] for -1. [mergedLots] is not empty here, so
    [length - 1] does not go below 0. *)
Definition targetOf (mergedLots : list PolyF) (worstIdx : nat)
    : option nat :=
  let mergeLeft := (0 <? worstIdx)%nat in
  let mergeRight := (worstIdx <? length mergedLots - 1)%nat in
  if mergeLeft && negb mergeRight then Some (worstIdx - 1)%nat
  else if mergeRight && negb mergeLeft then Some (worstIdx + 1)%nat
  else if mergeLeft && mergeRight then
    match nth_error mergedLots (worstIdx - 1),
          nth_error mergedLots (worstIdx + 1) with
    | Some lotLeft, Some lotRight =>
        let areaLeft := area lotLeft in
        let areaRight := area lotRight in
        if areaLeft <? areaRight then Some (worstIdx - 1)%nat
        else Some (worstIdx + 1)%nat
    | _, _ => None
    end
  else None.

(** One pass of the [while] body: the new array and [keepMerging]. *)
Definition mergeStep (mergedLots : list PolyF) : list PolyF * bool :=
  match worstOf mergedLots with
  | None => (mergedLots, false)
  | Some worstIdx =>
      match targetOf mergedLots worstIdx with
      | Some targetIdx =>
          let idxA := Nat.min worstIdx targetIdx in
          let idxB := Nat.max worstIdx targetIdx in
          match nth_error mergedLots idxA, nth_error mergedLots idxB with
          | Some a, Some b =>
              match union a b with
              | Returned (Some u) => (splice mergedLots idxA 2 [u], true)
              | Returned None => (mergedLots, false)
              | Thrown => (mergedLots, false)
              end
          | _, _ => (mergedLots, false)
          end
      | None =>
          match nth_error mergedLots worstIdx with
          | Some w =>
              if area w <? targetLotArea * 0.4
              then (splice mergedLots worstIdx 1 [], true)
              else (mergedLots, false)
          | None => (mergedLots, false)
          end
      end
  end.

(** [while (keepMerging && mergedLots.length > 0)]. Every pass that
    keeps merging shortens the array by one, so the length of the array
    is fuel enough ([mergeLoop_returns]). *)
Fixpoint mergeLoop (fuel : nat) (mergedLots : list PolyF)
    : Res (list PolyF) :=
  match mergedLots with
  | [] => Val []
  | _ :: _ =>
      let (merged, keepMerging) := mergeStep mergedLots in
      if keepMerging then
        match fuel with
        | O => Hang
        | S fuel' => mergeLoop fuel' merged
        end
      else Val merged
  end.

Definition mergeLots (candidateLots : list PolyF) : Res (list PolyF) :=
  mergeLoop (length candidateLots) candidateLots.

End SliverRepair.

(** ** The generator *)

Section Generator.

Variable T : Turf.
Variable Math_cos : num -> num.

Local Open Scope float_scope.

(** *** [getPrincipalAxis] *)

Fixpoint longestEdge (coords : Ring) (maxLen bestBearing : num) : num :=
  match coords with
  | a :: ((b :: _) as rest) =>
      let start := point a in
      let end_ := point b in
      let dist := turf_distance T start end_ Kilometers in
      if Js.gtb dist maxLen
      then longestEdge rest dist (turf_bearing T start end_)
      else longestEdge rest maxLen bestBearing
  | _ => bestBearing
  end.

(** The argument is typed [Feature<Polygon>]. On a MultiPolygon
    [coordinates[0]] is a polygon, not a ring: the length guard returns 0
    for fewer than two rings, and otherwise [point] is applied to a ring
    and throws. *)
Definition getPrincipalAxis (p : PolyF) : Res num :=
  match geometry p with
  | Polygon [] => Val 0
  | Polygon (coords :: _) =>
      if (length coords <? 2)%nat then Val 0
      else Val (longestEdge coords 0 0)
  | MultiPolygon [] => Val 0
  | MultiPolygon (rings :: _) =>
      if (length rings <? 2)%nat then Val 0 else Throw
  end.

(** *** [safePolygonToLine] *)

Definition safePolygonToLine (p : PolyF) : option LineF :=
  match turf_polygonToLine T p with
  | Returned (ResultFeature l) =>
      match ln_geometry l with
      | LineString _ => Some l
      | MultiLineString _ => None
      end
  | Returned (ResultCollection (l :: _)) => Some l
  | Returned (ResultCollection []) => None
  | Thrown => None
  end.

(** *** The working frame and the grid constants *)

Section Frame.

Variable config : SiteConfig.
Variable constraints : list UserConstraint.
Variable originalSitePoly : PolyF.
Variable alignmentAngle : num.

Definition center : PointF := turf_center T originalSitePoly.

(** [effectiveSitePoly] is [originalSitePoly]. *)
Definition workingSitePoly : PolyF :=
  rotatePoly T originalSitePoly (- alignmentAngle) center.
Definition workingEffectivePoly : PolyF :=
  rotatePoly T originalSitePoly (- alignmentAngle) center.

Definition workingConstraints : list WorkingConstraint :=
  map (fun c =>
         let pt := point (lng (position c), lat (position c)) in
         let rotatedPt := rotatePoint T pt (- alignmentAngle) center in
         {| constraint := c; localPos := rotatedPt |})
      constraints.

Definition centerLat : num := snd (pt_coordinates center).
Definition My : num := 1 / 111320.
Definition Mx : num :=
  1 / (111320 * Math_cos (centerLat * Js.Math_PI / 180)).

Definition bbox : BBox := turf_bbox T workingEffectivePoly.
Definition blockDepthDeg : num := (lotDepth config * 2) * My.
Definition lotsPerBlockRow : num := 8.
Definition targetBlockWidthDeg : num :=
  (lotWidth config * lotsPerBlockRow) * Mx.
Definition roadWidthDegX : num := roadWidth config * Mx.
Definition roadWidthDegY : num := roadWidth config * My.
Definition xStep : num := targetBlockWidthDeg + roadWidthDegX.
Definition yStep : num := blockDepthDeg + roadWidthDegY.

Definition width : num := b2 bbox - b0 bbox.
Definition height : num := b3 bbox - b1 bbox.
Definition numCols : num := Js.Math_ceil (width / xStep).
Definition numRows : num := Js.Math_ceil (height / yStep).

Definition startX : num := b0 bbox + (width - (numCols * xStep)) / 2.
Definition startY : num := b1 bbox + (height - (numRows * yStep)) / 2.

Definition bufferCols : Z := 2.
Definition bufferRows : Z := 2.

(** *** The block grid *)

Record GridAcc := {
  gridInfo : list GridCell;
  intersections : list Position;
  colCounter : nat;
  rowCounter : nat
}.

Definition nextRow (acc : GridAcc) : GridAcc :=
  {| gridInfo := gridInfo acc; intersections := intersections acc;
     colCounter := colCounter acc; rowCounter := S (rowCounter acc) |}.

(** The body of the inner loop, at column position [x] and row [j].
    A throwing [intersect] takes the [continue] of the catch clause,
    which skips [rowCounter++]. *)
Definition gridCellStep (x : num) (acc : GridAcc) (j : Z) : GridAcc :=
  let y := startY + (Js.ofZ j * yStep) in
  let cellBox :=
    {| b0 := x; b1 := y;
       b2 := x + targetBlockWidthDeg; b3 := y + blockDepthDeg |} in
  let cellPoly := turf_bboxPolygon T cellBox in
  let intersectX := x + targetBlockWidthDeg + (roadWidthDegX / 2) in
  let intersectY := y + blockDepthDeg + (roadWidthDegY / 2) in
  let acc1 :=
    {| gridInfo := gridInfo acc;
       intersections := intersections acc ++ [(intersectX, intersectY)];
       colCounter := colCounter acc; rowCounter := rowCounter acc |} in
  if turf_booleanIntersects T cellPoly workingEffectivePoly then
    match turf_intersect T cellPoly workingEffectivePoly with
    | Thrown => acc1
    | Returned None => nextRow acc1
    | Returned (Some intersection) =>
        let area := turf_area T intersection in
        if Js.gtb area 50 then
          nextRow
            {| gridInfo :=
                 gridInfo acc1 ++
                   [{| poly := intersection; cellType := Unknown;
                       originalPoly := cellPoly;
                       col := colCounter acc1; row := rowCounter acc1;
                       originalBbox := cellBox |}];
               intersections := intersections acc1;
               colCounter := colCounter acc1;
               rowCounter := rowCounter acc1 |}
        else nextRow acc1
    end
  else nextRow acc1.

Definition gridColumn (rows : list Z) (acc : GridAcc) (i : Z) : GridAcc :=
  let x := startX + (Js.ofZ i * xStep) in
  let acc0 :=
    {| gridInfo := gridInfo acc; intersections := intersections acc;
       colCounter := colCounter acc; rowCounter := 0 |} in
  let acc1 := fold_left (gridCellStep x) rows acc0 in
  {| gridInfo := gridInfo acc1; intersections := intersections acc1;
     colCounter := S (colCounter acc1); rowCounter := rowCounter acc1 |}.

(** The two nested loops. The row range is the same in every column;
    it is only evaluated when there is a column. *)
Definition buildGrid : Res GridAcc :=
  let acc0 :=
    {| gridInfo := []; intersections := [];
       colCounter := 0; rowCounter := 0 |} in
  bindR (forRange (- bufferCols) (numCols + Js.ofZ bufferCols))
    (fun cols =>
       match cols with
       | [] => Val acc0
       | _ :: _ =>
           bindR (forRange (- bufferRows) (numRows + Js.ofZ bufferRows))
             (fun rows => Val (fold_left (gridColumn rows) cols acc0))
       end).

(** *** Park and residential blocks *)

Definition blockArea (b : GridCell) : num := turf_area T (poly b).

Definition isForcedPark (block : GridCell) : bool :=
  existsb
    (fun c =>
       match type (constraint c) with
       | PARK_ANCHOR =>
           turf_booleanPointInPolygon T (localPos c) (poly block)
       end)
    workingConstraints.

Definition anchorParks (grid : list GridCell) : list GridCell :=
  map (fun block =>
         if isForcedPark block then setType Park block else block)
      grid.

(** The walk over [potentialParks]. The blocks are objects shared with
    [gridInfo]: a block is named by its index in the sorted
    [gridInfo]. *)
Fixpoint assignParks (targetParkArea currentParkArea : num)
    (potentialParks : list (nat * GridCell)) : list (nat * BlockType) :=
  match potentialParks with
  | [] => []
  | (i, block) :: rest =>
      if currentParkArea <? targetParkArea
      then (i, Park) ::
           assignParks targetParkArea (currentParkArea + blockArea block)
             rest
      else (i, Residential) ::
           assignParks targetParkArea currentParkArea rest
  end.

Definition typeOf (assigned : list (nat * BlockType))
    (ib : nat * GridCell) : GridCell :=
  match find (fun p => (fst p =? fst ib)%nat) assigned with
  | Some (_, t) => setType t (snd ib)
  | None => snd ib
  end.

(** [gridInfo] after the anchors, the sort (largest first) and the park
    quota. The closing loop of the source, which copies each type back
    through [gridInfo.find(g => g.poly === p.poly)], finds the very
    object it reads from and changes nothing. *)
Definition classify (grid : list GridCell) : list GridCell :=
  let anchored := anchorParks grid in
  let totalBlockArea := sumOf blockArea anchored in
  let targetParkArea := totalBlockArea * (parkPercentage config / 100) in
  let currentParkArea :=
    sumOf blockArea (filter (fun b => isPark (cellType b)) anchored) in
  let sorted :=
    sortBy (fun a b => blockArea b - blockArea a) anchored in
  let indexed := combine (seq 0 (length sorted)) sorted in
  let potentialParks :=
    sortBy (fun a b => blockArea (snd a) - blockArea (snd b))
      (filter (fun ib => isUnknown (cellType (snd ib))) indexed) in
  let assigned :=
    assignParks targetParkArea currentParkArea potentialParks in
  map (typeOf assigned) indexed.

Definition parkBlocksOf (grid : list GridCell) : list GridCell :=
  filter (fun b => isPark (cellType b)) grid.
Definition residentialBlocksOf (grid : list GridCell) : list GridCell :=
  filter (fun b => negb (isPark (cellType b))) grid.

Local Open Scope layout_scope.

(** *** [fillParkWithTrees] *)

(** The [while] loop: [attempts] runs over the integers below
    [maxAttempts] and the loop is left as soon as enough trees are
    placed. *)
Fixpoint placeTrees (actualTarget : num) (parkBbox : BBox)
    (searchPoly : PolyF) (parkId : nat) (attempts : list Z)
    (placedTrees : list PointF) : M unit :=
  match attempts with
  | [] => ret tt
  | _ :: rest =>
      if Js.ofNat (length placedTrees) <? actualTarget then
        (r1 <- Math_random ;;
         let lng := b0 parkBbox + r1 * (b2 parkBbox - b0 parkBbox) in
         r2 <- Math_random ;;
         let lat := b1 parkBbox + r2 * (b3 parkBbox - b1 parkBbox) in
         let pt := point (lng, lat) in
         if turf_booleanPointInPolygon T pt searchPoly then
           let isTooClose :=
             existsb (fun t => turf_distance T pt t Meters <? 4)
                     placedTrees in
           if negb isTooClose then
             let pt' :=
               {| pt_coordinates := pt_coordinates pt;
                  pt_properties := parkTreeProps parkId |} in
             pushTree pt' ;;
             placeTrees actualTarget parkBbox searchPoly parkId rest
               (placedTrees ++ [pt'])
           else
             placeTrees actualTarget parkBbox searchPoly parkId rest
               placedTrees
         else
           placeTrees actualTarget parkBbox searchPoly parkId rest
             placedTrees)%M
      else ret tt
  end.

Definition fillParkWithTrees (parkPoly : PolyF) (parkId : nat)
    : M unit :=
  let parkArea := turf_area T parkPoly in
  let density := 40 in
  let targetTreeCount :=
    Js.Math_max 3 (Js.Math_floor (parkArea / density)) in
  let maxTrees := 500 in
  let actualTarget := Js.Math_min targetTreeCount maxTrees in
  let parkBbox := turf_bbox T parkPoly in
  let searchPoly :=
    match turf_buffer T parkPoly (-0.002) Kilometers with
    | Returned (Some buffered) => buffered
    | Returned None => parkPoly
    | Thrown => parkPoly
    end in
  let maxAttempts := actualTarget * 15 in
  (attempts <- liftR (forRange 0 maxAttempts) ;;
   placeTrees actualTarget parkBbox searchPoly parkId attempts [])%M.

(** *** Lots: [processZone] *)

Definition targetLotArea : num := lotWidth config * lotDepth config.

(** The body of [mergedLots.forEach]: the lot, its building and its
    tree. *)
Definition lotAssets (isBottom : bool) (lotShape0 : PolyF) : M unit :=
  if turf_area T lotShape0 <? 20 then ret tt
  else
    (i <- gets globalLotIndex ;;
     let lotShape :=
       setProps lotShape0
         (lotProps (properties lotShape0) i isBottom alignmentAngle) in
     pushLot lotShape ;;
     n <- gets lotsGeneratedInBlock ;;
     setLotsGeneratedInBlock (S n) ;;
     let lotBbox := turf_bbox T lotShape in
     let lotH := b3 lotBbox - b1 lotBbox in
     let sideSetback := 0.6 * Mx in
     let rearSetback := 1.0 * My in
     r <- Math_random ;;
     let depthFactor := 0.50 + (r * 0.1) in
     let buildingDepthDeg := lotH * depthFactor in
     let bMinX := b0 lotBbox + sideSetback in
     let bMaxX := b2 lotBbox - sideSetback in
     let bMaxY :=
       if isBottom then b3 lotBbox - rearSetback
       else (b1 lotBbox + rearSetback) + buildingDepthDeg in
     let bMinY :=
       if isBottom then (b3 lotBbox - rearSetback) - buildingDepthDeg
       else b1 lotBbox + rearSetback in
     (if (bMinX <? bMaxX - (1 * Mx)) && (bMinY <? bMaxY - (1 * My)) then
        let buildingPoly :=
          turf_bboxPolygon T
            {| b0 := bMinX; b1 := bMinY; b2 := bMaxX; b3 := bMaxY |} in
        match turf_intersect T buildingPoly lotShape with
        | Returned (Some clipped) =>
            h <- Math_random ;;
            c <- Math_random ;;
            pushBuilding
              (setProps clipped
                 (buildingProps ((h * 0.2) + 0.9)
                    (Js.Math_floor (c * 3)) i))
        | Returned None => ret tt
        | Thrown => ret tt
        end
      else ret tt) ;;
     let treeSetbackDeg := 2.5 * My in
     let sideMarginDeg := 1.0 * Mx in
     r' <- Math_random ;;
     let isLeft := Js.gtb r' 0.5 in
     let treeX0 :=
       if isLeft then b0 lotBbox + sideMarginDeg
       else b2 lotBbox - sideMarginDeg in
     let treeY0 :=
       if isBottom then b1 lotBbox + treeSetbackDeg
       else b3 lotBbox - treeSetbackDeg in
     let treeX :=
       Js.Math_max (b0 lotBbox) (Js.Math_min (b2 lotBbox) treeX0) in
     let treeY :=
       Js.Math_max (b1 lotBbox) (Js.Math_min (b3 lotBbox) treeY0) in
     let idealTreePt := point (treeX, treeY) in
     (if turf_booleanPointInPolygon T idealTreePt lotShape then
        pushTree
          {| pt_coordinates := pt_coordinates idealTreePt;
             pt_properties :=
               treeProps (pt_properties idealTreePt) i |}
      else ret tt) ;;
     setGlobalLotIndex (S i))%M.

(** The body of the slicing loop, for slice [k]. *)
Definition sliceStep (zone : PolyF) (zoneBox : BBox)
    (numLots sliceWidthDeg : num) (candidateLots : list PolyF) (k : Z)
    : list PolyF :=
  let sliceStart := b0 zoneBox + (Js.ofZ k * sliceWidthDeg) in
  let sliceEnd :=
    if Js.ofZ k =? numLots - 1 then b2 zoneBox + 0.000001
    else sliceStart + sliceWidthDeg in
  let slicePoly :=
    turf_bboxPolygon T
      {| b0 := sliceStart; b1 := b1 zoneBox;
         b2 := sliceEnd; b3 := b3 zoneBox |} in
  match turf_intersect T slicePoly zone with
  | Returned (Some lotShape) => candidateLots ++ [lotShape]
  | Returned None => candidateLots
  | Thrown => candidateLots
  end.

(** The body of [zones.forEach]. *)
Definition processOneZone (isBottom : bool) (zone : PolyF) : M unit :=
  let area := turf_area T zone in
  if area <? targetLotArea * 0.5 then ret tt
  else
    let zoneBox := turf_bbox T zone in
    let zoneWidthM :=
      turf_distance T (point (b0 zoneBox, b1 zoneBox))
        (point (b2 zoneBox, b1 zoneBox)) Kilometers * 1000 in
    let numLots0 := Js.Math_floor (zoneWidthM / lotWidth config) in
    let numLots := if numLots0 <? 1 then 1 else numLots0 in
    let sliceWidthDeg := (b2 zoneBox - b0 zoneBox) / numLots in
    (ks <- liftR (forRange 0 numLots) ;;
     let candidateLots :=
       fold_left (sliceStep zone zoneBox numLots sliceWidthDeg) ks [] in
     if (0 <? length candidateLots)%nat then
       mergedLots <-
         liftR (mergeLots (turf_area T) (turf_union T) targetLotArea
                  candidateLots) ;;
       forEach mergedLots (lotAssets isBottom)
     else ret tt)%M.

Definition zonesOf (zonePoly : PolyF) : Res (list PolyF) :=
  match geometry zonePoly with
  | MultiPolygon coordinates =>
      mapR (fun coords => call (polygon T coords)) coordinates
  | Polygon _ => Val [zonePoly]
  end.

Definition processZone (zonePoly : PolyF) (isBottom : bool) : M unit :=
  (zones <- liftR (zonesOf zonePoly) ;;
   forEach zones (processOneZone isBottom))%M.

(** *** Residential blocks *)

(** Cut the block back where a grid road runs over land. *)
Definition carveRoad (roadBox processedBlock : PolyF) : PolyF :=
  match turf_intersect T roadBox workingEffectivePoly with
  | Returned (Some _) =>
      match turf_difference T processedBlock roadBox with
      | Returned (Some diff) => diff
      | Returned None => processedBlock
      | Thrown => processedBlock
      end
  | Returned None => processedBlock
  | Thrown => processedBlock
  end.

(** The body of [residentialBlocks.forEach]. *)
Definition processBlock (block : GridCell) : M unit :=
  let finalBlock := poly block in
  (processedBlock0 <- liftR (call (turf_cleanCoords T finalBlock)) ;;
   setLotsGeneratedInBlock 0 ;;
   let gridMinY := b1 (originalBbox block) in
   let gridMaxY := b3 (originalBbox block) in
   let gridMidY := gridMinY + ((gridMaxY - gridMinY) / 2) in
   let gridMinX := b0 (originalBbox block) in
   let gridMaxX := b2 (originalBbox block) in
   let bottomRoadBox :=
     turf_bboxPolygon T
       {| b0 := gridMinX; b1 := gridMinY - roadWidthDegY;
          b2 := gridMaxX; b3 := gridMinY |} in
   let processedBlock1 := carveRoad bottomRoadBox processedBlock0 in
   let topRoadBox :=
     turf_bboxPolygon T
       {| b0 := gridMinX; b1 := gridMaxY;
          b2 := gridMaxX; b3 := gridMaxY + roadWidthDegY |} in
   let processedBlock := carveRoad topRoadBox processedBlock1 in
   let bottomBand :=
     turf_bboxPolygon T
       {| b0 := gridMinX; b1 := gridMinY;
          b2 := gridMaxX; b3 := gridMidY |} in
   let topBand :=
     turf_bboxPolygon T
       {| b0 := gridMinX; b1 := gridMidY;
          b2 := gridMaxX; b3 := gridMaxY |} in
   tryCatch
     (bottomZone <-
        liftR (call (turf_intersect T processedBlock bottomBand)) ;;
      topZone <-
        liftR (call (turf_intersect T processedBlock topBand)) ;;
      match bottomZone with
      | Some z => processZone z true
      | None => ret tt
      end ;;
      match topZone with
      | Some z => processZone z false
      | None => ret tt
      end ;;
      n <- gets lotsGeneratedInBlock ;;
      if (0 <? n)%nat then pushSuperblock processedBlock
      else if Js.gtb (turf_area T processedBlock) 50 then
        parkIndex <- gets (fun s => length (tempParks s)) ;;
        let parkBlock :=
          setProps processedBlock
            (parkProps (properties processedBlock) parkIndex) in
        pushPark parkBlock ;;
        pushSuperblock parkBlock ;;
        fillParkWithTrees parkBlock parkIndex
      else ret tt)
     (pushSuperblock finalBlock))%M.

(** *** Park merging *)

(** [parkMap.get(`${c},${r}`)]: the last block stored under the key. *)
Definition parkMapGet (parkBlocks : list GridCell) (c r : nat)
    : option GridCell :=
  find (fun p => (col p =? c)%nat && (row p =? r)%nat) (rev parkBlocks).

Definition clippedGap (gapBox : BBox) : list PolyF :=
  match turf_intersect T (turf_bboxPolygon T gapBox)
          workingEffectivePoly with
  | Returned (Some clipped) => [clipped]
  | Returned None => []
  | Thrown => []
  end.

(** The fillers of the road gaps to the right of and above park [p]. *)
Definition gapsOf (parkBlocks : list GridCell) (p : GridCell)
    : list PolyF :=
  let epsilon := 0.000001 in
  let pb := originalBbox p in
  (match parkMapGet parkBlocks (col p + 1) (row p) with
   | Some rightPark =>
       let rb := originalBbox rightPark in
       clippedGap
         {| b0 := b2 pb - epsilon; b1 := Js.Math_max (b1 pb) (b1 rb);
            b2 := b0 rb + epsilon; b3 := Js.Math_min (b3 pb) (b3 rb) |}
   | None => []
   end) ++
  (match parkMapGet parkBlocks (col p) (row p + 1) with
   | Some topPark =>
       let tb := originalBbox topPark in
       clippedGap
         {| b0 := Js.Math_max (b0 pb) (b0 tb); b1 := b3 pb - epsilon;
            b2 := Js.Math_min (b2 pb) (b2 tb); b3 := b1 tb + epsilon |}
   | None => []
   end).

Definition addPark (p : PolyF) : M unit :=
  (parkIndex <- gets (fun s => length (tempParks s)) ;;
   let p' := setProps p (parkProps (properties p) parkIndex) in
   pushPark p' ;;
   pushSuperblock p' ;;
   fillParkWithTrees p' parkIndex)%M.

Definition mergeParks (parkBlocks : list GridCell) : M unit :=
  if (0 <? length parkBlocks)%nat then
    let featuresToMerge :=
      map poly parkBlocks ++ flat_map (gapsOf parkBlocks) parkBlocks in
    tryCatch
      (mergedParks <- liftR (call (turf_dissolve T featuresToMerge)) ;;
       forEach mergedParks (fun feature => addPark (turf_rewind T feature)))
      (forEach parkBlocks (fun b => addPark (poly b)))%M
  else ret tt.

(** The layout pass over the classified grid. *)
Definition layoutPass (grid : list GridCell) : M unit :=
  (forEach (residentialBlocksOf grid) processBlock ;;
   mergeParks (parkBlocksOf grid))%M.

Local Close Scope layout_scope.

(** *** Road markings *)

(** [tempParks.some(park => booleanIntersects(polygon([box]), park))] *)
Fixpoint intersectsPark (tempParks : list PolyF) (boxCoords : Ring)
    : Res bool :=
  match tempParks with
  | [] => Val false
  | park :: rest =>
      bindR (call (polygon T [boxCoords]))
        (fun box =>
           if turf_booleanIntersects T box park then Val true
           else intersectsPark rest boxCoords)
  end.

(** [while (curr < limit) { ...; curr += step }] over the stripes of
    one crossing. *)
Fixpoint stripeLoop (tempParks : list PolyF) (mkBox : num -> Ring)
    (limit step : num) (fuel : nat) (curr : num)
    (stripes : list (list Ring)) : Res (list (list Ring)) :=
  if curr <? limit then
    match fuel with
    | O => Hang
    | S fuel' =>
        let box := mkBox curr in
        bindR (intersectsPark tempParks box)
          (fun hit =>
             stripeLoop tempParks mkBox limit step fuel' (curr + step)
               (if negb hit then stripes ++ [[box]] else stripes))
    end
  else Val stripes.

Definition generateZebraStripes (tempParks : list PolyF) (fuel : nat)
    (cx cy : num) (isVertical : bool) : Res (option PolyF) :=
  let roadW := roadWidth config in
  let pathW := 4.0 in
  let stripeW_M := 0.6 in
  let stripeW_DegX := stripeW_M * Mx in
  let stripeW_DegY := stripeW_M * My in
  let pathW_DegX := pathW * Mx in
  let pathW_DegY := pathW * My in
  let roadW_DegX := roadW * Mx in
  let roadW_DegY := roadW * My in
  let gapW_M := 0.6 in
  let gap_DegX := gapW_M * Mx in
  let gap_DegY := gapW_M * My in
  bindR
    (if isVertical then
       let totalHeight := roadW_DegY * 0.8 in
       let startY' := cy - (totalHeight / 2) in
       let stripeH := stripeW_DegY in
       let gapH := gap_DegY in
       let stripeLen := pathW_DegX in
       stripeLoop tempParks
         (fun currY =>
            [(cx - stripeLen / 2, currY); (cx + stripeLen / 2, currY);
             (cx + stripeLen / 2, currY + stripeH);
             (cx - stripeLen / 2, currY + stripeH);
             (cx - stripeLen / 2, currY)])
         (startY' + totalHeight) (stripeH + gapH) fuel startY' []
     else
       let totalWidth := roadW_DegX * 0.8 in
       let startX' := cx - (totalWidth / 2) in
       let stripeW := stripeW_DegX in
       let gapW := gap_DegX in
       let stripeLen := pathW_DegY in
       stripeLoop tempParks
         (fun currX =>
            [(currX, cy - stripeLen / 2);
             (currX + stripeW, cy - stripeLen / 2);
             (currX + stripeW, cy + stripeLen / 2);
             (currX, cy + stripeLen / 2);
             (currX, cy - stripeLen / 2)])
         (startX' + totalWidth) (stripeW + gapW) fuel startX' [])
    (fun stripes =>
       if (0 <? length stripes)%nat then Val (Some (multiPolygon stripes))
       else Val None).

Definition parkBoundariesOf (tempParks : list PolyF) : list LineF :=
  flat_map (fun p => match safePolygonToLine p with
                     | Some l => [l]
                     | None => []
                     end)
           tempParks.

(** The four crossings around a grid intersection. *)
Definition offsets : list (num * num * bool) :=
  [ (0, roadWidthDegY * 0.65, false);
    (0, - roadWidthDegY * 0.65, false);
    (roadWidthDegX * 0.65, 0, true);
    (- roadWidthDegX * 0.65, 0, true) ].

(** The body of [intersections.forEach]. *)
Definition markIntersection (tempParks : list PolyF)
    (parkBoundaries : list LineF) (fuel : nat)
    (tempMarkings : list PolyF) (ixy : Position) : Res (list PolyF) :=
  let (ix, iy) := ixy in
  let intersectionPt := point (ix, iy) in
  if turf_booleanPointInPolygon T intersectionPt workingSitePoly then
    if existsb (fun p => turf_booleanPointInPolygon T intersectionPt p)
               tempParks
    then Val tempMarkings
    else
      let isNearPark :=
        existsb
          (fun parkLine =>
             let distMeters :=
               turf_distance T intersectionPt
                 (turf_nearestPointOnLine T parkLine intersectionPt)
                 Meters in
             distMeters <? roadWidth config * 2)
          parkBoundaries in
      if isNearPark then
        foldR
          (fun markings off =>
             let '(offX, offY, vert) := off in
             bindR (generateZebraStripes tempParks fuel
                      (ix + offX) (iy + offY) vert)
               (fun zebra =>
                  match zebra with
                  | Some z =>
                      if turf_booleanPointInPolygon T
                           (point (ix + offX, iy + offY)) workingSitePoly
                      then Val (markings ++ [z])
                      else Val markings
                  | None => Val markings
                  end))
          offsets tempMarkings
      else Val tempMarkings
  else Val tempMarkings.

Definition roadMarkingsOf (tempParks : list PolyF)
    (crossings : list Position) (fuel : nat) : Res (list PolyF) :=
  foldR (markIntersection tempParks (parkBoundariesOf tempParks) fuel)
    crossings [].

(** *** Back to the site frame *)

Definition rotateBackPolys (features : list PolyF) : list PolyF :=
  map (fun f => rotatePoly T f alignmentAngle center) features.
Definition rotateBackPoints (features : list PointF) : list PointF :=
  map (fun f => rotatePoint T f alignmentAngle center) features.

(** *** Access points *)

Record Candidate := { midpoint : PointF; roadBearing : num }.
Record RoadLine := { line : LineF; bearing : num }.

(** [boundaryResult.type === 'FeatureCollection' ?
    boundaryResult.features[0] : boundaryResult]: [None] is the
    [undefined] an empty collection gives. *)
Definition firstLine (boundaryResult : LineResult) : option LineF :=
  match boundaryResult with
  | ResultCollection features => hd_error features
  | ResultFeature l => Some l
  end.

Definition roadProjectionLines : Res (list RoadLine) :=
  bindR (forRangeIncl (- bufferCols) (numCols + Js.ofZ bufferCols))
    (fun cols =>
  bindR (forRangeIncl (- bufferRows) (numRows + Js.ofZ bufferRows))
    (fun rows =>
       Val
         (map (fun i =>
                 let x := startX + (Js.ofZ i * xStep) in
                 let roadCenterX :=
                   x + targetBlockWidthDeg + (roadWidthDegX / 2) in
                 let lineLocal :=
                   lineString [(roadCenterX, b1 bbox - 0.05);
                               (roadCenterX, b3 bbox + 0.05)] in
                 {| line := rotateLine T lineLocal alignmentAngle center;
                    bearing := alignmentAngle |})
              cols ++
          map (fun j =>
                 let y := startY + (Js.ofZ j * yStep) in
                 let roadCenterY :=
                   y + blockDepthDeg + (roadWidthDegY / 2) in
                 let lineLocal :=
                   lineString [(b0 bbox - 0.05, roadCenterY);
                               (b2 bbox + 0.05, roadCenterY)] in
                 {| line := rotateLine T lineLocal alignmentAngle center;
                    bearing := alignmentAngle + 90 |})
              rows))).

(** The candidates one projected road line contributes. *)
Definition candidatesOn (finalSuperblocks finalParks : list PolyF)
    (item : RoadLine) (intersects : list PointF) : list Candidate :=
  flat_map
    (fun pt =>
       let p1 :=
         turf_destination T pt 0.002 (bearing item) Kilometers in
       let p2 :=
         turf_destination T pt 0.002 (bearing item + 180) Kilometers in
       let insidePoint :=
         if turf_booleanPointInPolygon T p1 originalSitePoly
         then Some p1
         else if turf_booleanPointInPolygon T p2 originalSitePoly
         then Some p2
         else None in
       match insidePoint with
       | Some ip =>
           let isBlockedBySuperblock :=
             existsb (fun block => turf_booleanPointInPolygon T ip block)
                     finalSuperblocks in
           let isBlockedByPark :=
             existsb (fun pk => turf_booleanPointInPolygon T ip pk)
                     finalParks in
           if negb isBlockedBySuperblock && negb isBlockedByPark
           then [{| midpoint := pt; roadBearing := bearing item |}]
           else []
       | None => []
       end)
    intersects.

Definition dedupe (uniqueCandidates : list Candidate) : list Candidate :=
  fold_left
    (fun uniqueFiltered cand =>
       let isDuplicate :=
         existsb
           (fun u =>
              turf_distance T (midpoint cand) (midpoint u) Meters <? 15)
           uniqueFiltered in
       if negb isDuplicate then uniqueFiltered ++ [cand]
       else uniqueFiltered)
    uniqueCandidates [].

Definition byAngle (cands : list Candidate) : list Candidate :=
  sortBy
    (fun a b =>
       let angleA := turf_bearing T center (midpoint a) in
       let angleB := turf_bearing T center (midpoint b) in
       angleA - angleB)
    cands.

(** [arr[i]] for an integer [i]: [None] is [undefined]. *)
Definition arrayGet {A} (arr : list A) (i : Z) : option A :=
  if (i <? 0)%Z then None else nth_error arr (Z.to_nat i).

Definition toDeg (m : num) : num := m / 111320.

(** The gate at the selected candidate. *)
Definition gateAt (selected : Candidate) : AccessControl :=
  let pt := midpoint selected in
  let rotation := roadBearing selected in
  let islandWidth := toDeg 2.2 in
  let islandLength := toDeg 8 in
  let houseWidth := toDeg 1.5 in
  let houseLength := toDeg 3 in
  let px := fst (pt_coordinates pt) in
  let py := snd (pt_coordinates pt) in
  let island :=
    rotatePoly T
      (turf_bboxPolygon T
         {| b0 := px - islandWidth / 2; b1 := py - islandLength / 2;
            b2 := px + islandWidth / 2; b3 := py + islandLength / 2 |})
      rotation pt in
  let guardHouse :=
    rotatePoly T
      (turf_bboxPolygon T
         {| b0 := px - houseWidth / 2; b1 := py - houseLength / 4;
            b2 := px + houseWidth / 2; b3 := py + houseLength / 4 |})
      rotation pt in
  let centerPt := pt in
  let leftStart :=
    turf_destination T centerPt (islandWidth / 2000) (rotation - 90)
      Kilometers in
  let leftEnd :=
    turf_destination T centerPt ((roadWidth config / 2) / 1000)
      (rotation - 90) Kilometers in
  let leftBarrier :=
    lineString [pt_coordinates leftStart; pt_coordinates leftEnd] in
  let rightStart :=
    turf_destination T centerPt (islandWidth / 2000) (rotation + 90)
      Kilometers in
  let rightEnd :=
    turf_destination T centerPt ((roadWidth config / 2) / 1000)
      (rotation + 90) Kilometers in
  let rightBarrier :=
    lineString [pt_coordinates rightStart; pt_coordinates rightEnd] in
  {| ac_type := GATE;
     island := island;
     guardHouse := Some guardHouse;
     barriers := Some [leftBarrier; rightBarrier];
     roundaboutExt := None;
     entryPoint := {| lat := py; lng := px |};
     rotation := rotation |}.

(** [if (uniqueFiltered.length > 0) { ... }]: reading a property of the
    [undefined] an index outside the array gives throws. *)
Definition selectGate (uniqueFiltered : list Candidate)
    : Res (option AccessControl) :=
  if (0 <? length uniqueFiltered)%nat then
    let safeIndex :=
      Z.rem (entryIndex config) (Z.of_nat (length uniqueFiltered)) in
    match arrayGet uniqueFiltered safeIndex with
    | Some selected => Val (Some (gateAt selected))
    | None => Throw
    end
  else Val None.

(** [accessControlData] and the final [uniqueCandidates]. *)
Definition accessStage (boundaryLine : option LineF)
    (finalSuperblocks finalParks : list PolyF)
    : Res (option AccessControl * list Candidate) :=
  if (0 <? length finalSuperblocks)%nat then
    bindR roadProjectionLines (fun lines =>
    bindR
      (foldR
         (fun uniqueCandidates item =>
            bindR (call (turf_lineIntersect T (line item) boundaryLine))
              (fun intersects =>
                 Val (uniqueCandidates ++
                      candidatesOn finalSuperblocks finalParks item
                        intersects)))
         lines [])
      (fun uniqueCandidates =>
         let uniqueFiltered := byAngle (dedupe uniqueCandidates) in
         bindR (selectGate uniqueFiltered)
           (fun accessControlData =>
              Val (accessControlData, uniqueFiltered))))
  else Val (None, []).

(** *** The perimeter wall *)

Definition cutoutRadius : num := (roadWidth config / 1000) * 0.6.

Definition cutoutMask (ac : AccessControl) : PolyF :=
  let entryPoint := point (lng (entryPoint ac), lat (entryPoint ac)) in
  turf_circle T entryPoint cutoutRadius Kilometers 16.

(** The pieces of the split boundary that lie outside the mask. *)
Definition wallsOutside (maskPoly : PolyF) (split : list LineF)
    : list (option LineF) :=
  flat_map
    (fun seg =>
       let len := turf_length T seg in
       if Js.gtb len 0 then
         let mid := turf_along T seg (len / 2) in
         if negb (turf_booleanPointInPolygon T mid maskPoly)
         then [Some seg] else []
       else [])
    split.

Definition perimeterStage (accessControlData : option AccessControl)
    (boundaryLine : option LineF) : Res (list (option LineF)) :=
  match accessControlData with
  | Some ac =>
      let maskPoly := cutoutMask ac in
      bindR (call (turf_polygonToLine T maskPoly)) (fun maskLine =>
      bindR (call (turf_lineSplit T boundaryLine maskLine)) (fun split =>
        if (0 <? length split)%nat
        then Val (wallsOutside maskPoly split)
        else Val [boundaryLine]))
  | None => Val [boundaryLine]
  end.

(** *** The pipeline from the grid to the result *)

Definition emptyLayout (rnd : nat -> num) : Layout :=
  {| tempLots := []; tempBuildings := []; tempParks := [];
     tempTrees := []; tempSuperblocks := [];
     globalLotIndex := 0; lotsGeneratedInBlock := 0; random := rnd |}.

Definition latLngOf (c : Candidate) : LatLng :=
  {| lat := snd (pt_coordinates (midpoint c));
     lng := fst (pt_coordinates (midpoint c)) |}.

(** What follows the layout pass: markings, the rotation back, the
    access control, the perimeter and the statistics. *)
Definition finish (fuel : nat) (siteArea : num)
    (crossings : list Position) (s : Layout)
    : Res (GeneratedGeometry * ProjectStats) :=
  bindR (roadMarkingsOf (tempParks s) crossings fuel)
    (fun tempMarkings =>
  let finalSuperblocks := rotateBackPolys (tempSuperblocks s) in
  let finalLots := rotateBackPolys (tempLots s) in
  let finalBuildings := rotateBackPolys (tempBuildings s) in
  let finalParks := rotateBackPolys (tempParks s) in
  let finalTrees := rotateBackPoints (tempTrees s) in
  let finalMarkings := rotateBackPolys tempMarkings in
  let finalStopSigns := rotateBackPoints [] in
  let finalRoads := rotateBackPolys [] in
  bindR (call (turf_polygonToLine T originalSitePoly))
    (fun boundaryResult =>
  let boundaryLine := firstLine boundaryResult in
  bindR (accessStage boundaryLine finalSuperblocks finalParks)
    (fun '(accessControlData, uniqueCandidates) =>
  bindR (perimeterStage accessControlData boundaryLine)
    (fun perimeterWalls =>
  let netSellableArea := sumOf (turf_area T) finalLots in
  let parkArea := sumOf (turf_area T) finalParks in
  let roadArea := siteArea - netSellableArea - parkArea in
  Val
    ({| siteBoundary := Some originalSitePoly;
        superblocks := finalSuperblocks;
        roads := finalRoads;
        lots := finalLots;
        buildings := finalBuildings;
        parks := finalParks;
        trees := finalTrees;
        perimeterWalls := perimeterWalls;
        accessControl := accessControlData;
        roadMarkings := finalMarkings;
        stopSigns := finalStopSigns;
        entranceCandidates := map latLngOf uniqueCandidates;
        isValid := true;
        error := None |},
     {| siteArea := siteArea;
        netSellableArea := netSellableArea;
        roadArea := roadArea;
        parkArea := parkArea;
        totalLots := length finalLots;
        efficiency := netSellableArea / siteArea;
        possibleEntrances := length uniqueCandidates |}))))).

Definition pipeline (fuel : nat) (siteArea : num) (rnd : nat -> num)
    : Res (GeneratedGeometry * ProjectStats) :=
  bindR buildGrid (fun grid =>
    let classified := classify (gridInfo grid) in
    match layoutPass classified (emptyLayout rnd) with
    | (Val _, s) => finish fuel siteArea (intersections grid) s
    | (Throw, _) => Throw
    | (Hang, _) => Hang
    end).

End Frame.

(** *** [generateBuilding] *)

Definition emptyStats : ProjectStats :=
  {| siteArea := 0; netSellableArea := 0; roadArea := 0; parkArea := 0;
     totalLots := 0; efficiency := 0; possibleEntrances := 0 |}.

Definition emptyGeometry : GeneratedGeometry :=
  {| siteBoundary := None; superblocks := []; roads := []; lots := [];
     buildings := []; parks := []; trees := []; perimeterWalls := [];
     accessControl := None; roadMarkings := []; stopSigns := [];
     entranceCandidates := []; isValid := false; error := None |}.

(** [{ ...emptyGeometry, siteBoundary, isValid: false, error }] *)
Definition invalidGeometry (boundary : option PolyF) (msg : string)
    : GeneratedGeometry :=
  {| siteBoundary := boundary; superblocks := []; roads := []; lots := [];
     buildings := []; parks := []; trees := []; perimeterWalls := [];
     accessControl := None; roadMarkings := []; stopSigns := [];
     entranceCandidates := []; isValid := false; error := Some msg |}.

(** The ring of the input points, closed if it was not. *)
Definition closedRing (points : list LatLng) : Ring :=
  let coordinates := map (fun p => (lng p, lat p)) points in
  match coordinates with
  | [] => coordinates
  | first :: _ =>
      let final := last coordinates first in
      if Js.neqb (fst first) (fst final) || Js.neqb (snd first) (snd final)
      then coordinates ++ [first]
      else coordinates
  end.

(** [cleanCoords(polygon([coordinates]))] *)
Definition sitePolygon (points : list LatLng) : Res PolyF :=
  bindR (call (polygon T [closedRing points]))
    (fun originalSitePoly => call (turf_cleanCoords T originalSitePoly)).

Definition noCoordinates (p : PolyF) : bool :=
  match geometry p with
  | Polygon coordinates => (length coordinates =? 0)%nat
  | MultiPolygon coordinates => (length coordinates =? 0)%nat
  end.

Definition selfIntersectionError : string :=
  "El polígono se intersecta a sí mismo".

(** [fuel] bounds the passes of each stripe loop of the road markings;
    [rnd] is the stream [Math.random] reads. *)
Definition generateBuilding (fuel : nat) (rnd : nat -> num)
    (points : list LatLng) (config : SiteConfig)
    (constraints : list UserConstraint)
    : Res (GeneratedGeometry * ProjectStats) :=
  if (length points <? 3)%nat then Val (emptyGeometry, emptyStats)
  else
    catchR
      (bindR (sitePolygon points) (fun cleanResult =>
         if noCoordinates cleanResult then
           Val (invalidGeometry None "Invalid Geometry", emptyStats)
         else
           let originalSitePoly := turf_rewind T cleanResult in
           bindR (call (turf_kinks T originalSitePoly)) (fun kinks =>
             if (0 <? length kinks)%nat then
               Val (invalidGeometry (Some originalSitePoly)
                      selfIntersectionError,
                    emptyStats)
             else
               let siteArea := turf_area T originalSitePoly in
               if siteArea <? 100 then Throw
               else
                 bindR (getPrincipalAxis originalSitePoly)
                   (fun alignmentAngle =>
                      pipeline config constraints originalSitePoly
                        alignmentAngle fuel siteArea rnd))))
      (Val (invalidGeometry None "Calculation Failed", emptyStats)).


End Generator.

(** ** A plane instance of the geometry library

    Geometry on a flat map near the equator, one degree being 111320
    metres in both directions, exact on rectangles whose sides run along
    the axes: every polygon is treated through its outer rings, and the
    boolean operations work on bounding boxes. It serves to run the
    generator on concrete parcels. *)

Module Flat.

Local Open Scope float_scope.

Definition metresPerDegree : num := 111320.

Definition toDegrees (d : num) (u : Units) : num :=
  match u with
  | Kilometers => d * 1000 / metresPerDegree
  | Meters => d / metresPerDegree
  end.

Definition fromDegrees (d : num) (u : Units) : num :=
  match u with
  | Kilometers => d * metresPerDegree / 1000
  | Meters => d * metresPerDegree
  end.

(** *** Angles *)

Definition cosRad (x : num) : num :=
  let x2 := x * x in
  1 - x2 / 2 + x2 * x2 / 24 - x2 * x2 * x2 / 720.

(** The angle reduced to [0, 360). *)
Definition mod360 (a : num) : num := a - 360 * Js.Math_floor (a / 360).

(** Sine and cosine of an angle in degrees: exact on the quarter turns,
    a polynomial elsewhere. *)
Definition sinPoly (d : num) : num :=
  let x := d * Js.Math_PI / 180 in
  let x2 := x * x in
  x * (1 - x2 / 6 * (1 - x2 / 20 * (1 - x2 / 42))).

Definition sinDeg (a : num) : num :=
  let r := mod360 a in
  if r =? 0 then 0
  else if r =? 90 then 1
  else if r =? 180 then 0
  else if r =? 270 then -1
  else if r <? 90 then sinPoly r
  else if r <? 270 then sinPoly (180 - r)
  else sinPoly (r - 360).

Definition cosDeg (a : num) : num := sinDeg (a + 90).

(** *** Positions, rings and boxes *)

Definition outerRings (g : PolyGeom) : list Ring :=
  match g with
  | Polygon rings => firstn 1 rings
  | MultiPolygon polys => flat_map (firstn 1) polys
  end.

Definition positions (p : PolyF) : list Position :=
  concat (outerRings (geometry p)).

Definition boxOf (ps : list Position) : BBox :=
  fold_left
    (fun b p =>
       {| b0 := if fst p <? b0 b then fst p else b0 b;
          b1 := if snd p <? b1 b then snd p else b1 b;
          b2 := if b2 b <? fst p then fst p else b2 b;
          b3 := if b3 b <? snd p then snd p else b3 b |})
    ps
    {| b0 := infinity; b1 := infinity;
       b2 := neg_infinity; b3 := neg_infinity |}.

Definition bbox (p : PolyF) : BBox := boxOf (positions p).

Definition boxRing (b : BBox) : Ring :=
  [(b0 b, b1 b); (b2 b, b1 b); (b2 b, b3 b); (b0 b, b3 b); (b0 b, b1 b)].

Definition bboxPolygon (b : BBox) : PolyF :=
  {| geometry := Polygon [boxRing b]; properties := noProps |}.

(** A box with an interior. *)
Definition solid (b : BBox) : bool := (b0 b <? b2 b) && (b1 b <? b3 b).

Definition meet (a b : BBox) : BBox :=
  {| b0 := if b0 a <? b0 b then b0 b else b0 a;
     b1 := if b1 a <? b1 b then b1 b else b1 a;
     b2 := if b2 b <? b2 a then b2 b else b2 a;
     b3 := if b3 b <? b3 a then b3 b else b3 a |}.

Definition hull (a b : BBox) : BBox :=
  {| b0 := if b0 b <? b0 a then b0 b else b0 a;
     b1 := if b1 b <? b1 a then b1 b else b1 a;
     b2 := if b2 a <? b2 b then b2 b else b2 a;
     b3 := if b3 a <? b3 b then b3 b else b3 a |}.

Definition inBox (c : Position) (b : BBox) : bool :=
  (b0 b <=? fst c) && (fst c <=? b2 b) &&
  (b1 b <=? snd c) && (snd c <=? b3 b).

(** *** Measurement *)

Fixpoint shoelace (r : Ring) : num :=
  match r with
  | a :: ((b :: _) as rest) =>
      (fst a * snd b - fst b * snd a) + shoelace rest
  | _ => 0
  end.

Definition ringArea (r : Ring) : num :=
  PrimFloat.abs (shoelace r) / 2 * (metresPerDegree * metresPerDegree).

Definition area (p : PolyF) : num :=
  sumOf ringArea (outerRings (geometry p)).

Definition gap (a b : Position) : num :=
  let dx := fst b - fst a in
  let dy := snd b - snd a in
  PrimFloat.sqrt (dx * dx + dy * dy).

Definition distance (a b : PointF) (u : Units) : num :=
  fromDegrees (gap (pt_coordinates a) (pt_coordinates b)) u.

(** The compass direction from [a] to [b]: exact along the axes and the
    diagonals, increasing with the true bearing in between. *)
Definition bearing (a b : PointF) : num :=
  let dx := fst (pt_coordinates b) - fst (pt_coordinates a) in
  let dy := snd (pt_coordinates b) - snd (pt_coordinates a) in
  let n := PrimFloat.abs dx + PrimFloat.abs dy in
  if n =? 0 then 0
  else
    let t := dx / n in
    if 0 <=? dy then 90 * t
    else if 0 <=? dx then 180 - 90 * t
    else - 180 - 90 * t.

Definition center (p : PolyF) : PointF :=
  let b := bbox p in
  point ((b0 b + b2 b) / 2, (b1 b + b3 b) / 2).

Definition lineCoords (l : LineF) : list Position :=
  match ln_geometry l with
  | LineString cs => cs
  | MultiLineString css => concat css
  end.

Fixpoint pathLength (cs : list Position) : num :=
  match cs with
  | a :: ((b :: _) as rest) => gap a b + pathLength rest
  | _ => 0
  end.

Definition length (l : LineF) : num :=
  fromDegrees (pathLength (lineCoords l)) Kilometers.

(** *** Construction *)

Definition destination (p : PointF) (d bearingDeg : num) (u : Units)
    : PointF :=
  let r := toDegrees d u in
  point (fst (pt_coordinates p) + r * sinDeg bearingDeg,
         snd (pt_coordinates p) + r * cosDeg bearingDeg).

(** A clockwise turn of [c] by [angle] degrees about [pivot]. *)
Definition turn (angle : num) (pivot c : Position) : Position :=
  let dx := fst c - fst pivot in
  let dy := snd c - snd pivot in
  (fst pivot + (dx * cosDeg angle + dy * sinDeg angle),
   snd pivot + (dy * cosDeg angle - dx * sinDeg angle)).

Definition turnGeom (angle : num) (pivot : Position) (g : PolyGeom)
    : PolyGeom :=
  match g with
  | Polygon rings => Polygon (map (map (turn angle pivot)) rings)
  | MultiPolygon polys =>
      MultiPolygon (map (map (map (turn angle pivot))) polys)
  end.

Definition rotatePoly (p : PolyF) (angle : num) (pivot : PointF) : PolyF :=
  {| geometry := turnGeom angle (pt_coordinates pivot) (geometry p);
     properties := properties p |}.

Definition rotatePoint (p : PointF) (angle : num) (pivot : PointF)
    : PointF :=
  {| pt_coordinates := turn angle (pt_coordinates pivot) (pt_coordinates p);
     pt_properties := pt_properties p |}.

Definition rotateLine (l : LineF) (angle : num) (pivot : PointF) : LineF :=
  {| ln_geometry :=
       match ln_geometry l with
       | LineString cs =>
           LineString (map (turn angle (pt_coordinates pivot)) cs)
       | MultiLineString css =>
           MultiLineString
             (map (map (turn angle (pt_coordinates pivot))) css)
       end;
     ln_properties := ln_properties l |}.

(** The square around the circle. *)
Definition circle (c : PointF) (radius : num) (u : Units) (steps : nat)
    : PolyF :=
  let r := toDegrees radius u in
  bboxPolygon
    {| b0 := fst (pt_coordinates c) - r; b1 := snd (pt_coordinates c) - r;
       b2 := fst (pt_coordinates c) + r; b3 := snd (pt_coordinates c) + r |}.

Fixpoint walk (cs : list Position) (d : num) : Position :=
  match cs with
  | a :: ((b :: _) as rest) =>
      let g := gap a b in
      if (d <=? g) && (0 <? g)
      then (fst a + (fst b - fst a) * (d / g),
            snd a + (snd b - snd a) * (d / g))
      else walk rest (d - g)
  | [a] => a
  | [] => (0, 0)
  end.

Definition along (l : LineF) (d : num) : PointF :=
  point (walk (lineCoords l) (toDegrees d Kilometers)).

(** The point of segment [a b] nearest to [c]. *)
Definition project (a b c : Position) : Position :=
  let dx := fst b - fst a in
  let dy := snd b - snd a in
  let n := dx * dx + dy * dy in
  if n =? 0 then a
  else
    let t := ((fst c - fst a) * dx + (snd c - snd a) * dy) / n in
    let t' := if t <? 0 then 0 else if 1 <? t then 1 else t in
    (fst a + dx * t', snd a + dy * t').

Fixpoint nearest (cs : list Position) (c best : Position) : Position :=
  match cs with
  | a :: ((b :: _) as rest) =>
      let q := project a b c in
      nearest rest c (if gap c q <? gap c best then q else best)
  | _ => best
  end.

Definition nearestPointOnLine (l : LineF) (c : PointF) : PointF :=
  match lineCoords l with
  | [] => c
  | a :: _ => point (nearest (lineCoords l) (pt_coordinates c) a)
  end.

(** *** Predicates *)

Definition booleanPointInPolygon (c : PointF) (p : PolyF) : bool :=
  existsb (fun r => inBox (pt_coordinates c) (boxOf r))
          (outerRings (geometry p)).

Definition booleanIntersects (a b : PolyF) : bool :=
  let m := meet (bbox a) (bbox b) in
  (b0 m <=? b2 m) && (b1 m <=? b3 m).

(** *** Topology *)

Definition closed (r : Ring) : bool :=
  match r with
  | [] => false
  | a :: _ =>
      let z := last r a in
      (fst a =? fst z) && (snd a =? snd z)
  end.

Definition polygon (rings : list Ring) : Try PolyF :=
  if forallb (fun r => (4 <=? List.length r)%nat && closed r) rings
  then Returned {| geometry := Polygon rings; properties := noProps |}
  else Thrown.

(** Where segment [p q] crosses segment [r s]; [strict] leaves out the
    end points. *)
Definition crossing (strict : bool) (p q r s : Position)
    : option Position :=
  let d1x := fst q - fst p in
  let d1y := snd q - snd p in
  let d2x := fst s - fst r in
  let d2y := snd s - snd r in
  let d := d1x * d2y - d1y * d2x in
  if d =? 0 then None
  else
    let t := ((fst r - fst p) * d2y - (snd r - snd p) * d2x) / d in
    let u := ((fst r - fst p) * d1y - (snd r - snd p) * d1x) / d in
    let inside x :=
      if strict then (0 <? x) && (x <? 1) else (0 <=? x) && (x <=? 1) in
    if inside t && inside u
    then Some (fst p + d1x * t, snd p + d1y * t)
    else None.

Fixpoint segments (cs : list Position) : list (Position * Position) :=
  match cs with
  | a :: ((b :: _) as rest) => (a, b) :: segments rest
  | _ => []
  end.

Definition crossings (strict : bool) (a b : list Position)
    : list Position :=
  flat_map
    (fun e =>
       flat_map
         (fun f =>
            match crossing strict (fst e) (snd e) (fst f) (snd f) with
            | Some c => [c]
            | None => []
            end)
         (segments b))
    (segments a).

(** The points where two edges of a ring cross away from their ends. *)
Fixpoint selfCrossings (es : list (Position * Position))
    : list Position :=
  match es with
  | [] => []
  | e :: rest =>
      flat_map
        (fun f =>
           match crossing true (fst e) (snd e) (fst f) (snd f) with
           | Some c => [c]
           | None => []
           end)
        rest
      ++ selfCrossings rest
  end.

Definition kinks (p : PolyF) : Try (list PointF) :=
  Returned
    (map point
       (flat_map (fun r => selfCrossings (segments r))
          (outerRings (geometry p)))).

Definition intersect (a b : PolyF) : Try (option PolyF) :=
  let m := meet (bbox a) (bbox b) in
  Returned (if solid m then Some (bboxPolygon m) else None).

(** What is left of box [a] once [b] is taken away: [a] itself when they
    do not overlap, a box when [b] cuts a full band off one side. *)
Definition difference (a b : PolyF) : Try (option PolyF) :=
  let ba := bbox a in
  let m := meet ba (bbox b) in
  if negb (solid m) then Returned (Some a)
  else
    let fullX := (b0 m <=? b0 ba) && (b2 ba <=? b2 m) in
    let fullY := (b1 m <=? b1 ba) && (b3 ba <=? b3 m) in
    let rest (r : BBox) :=
      Returned (if solid r then Some (bboxPolygon r) else None) in
    if fullX && fullY then Returned None
    else if fullX && (b1 m <=? b1 ba) then
      rest {| b0 := b0 ba; b1 := b3 m; b2 := b2 ba; b3 := b3 ba |}
    else if fullX && (b3 ba <=? b3 m) then
      rest {| b0 := b0 ba; b1 := b1 ba; b2 := b2 ba; b3 := b1 m |}
    else if fullY && (b0 m <=? b0 ba) then
      rest {| b0 := b2 m; b1 := b1 ba; b2 := b2 ba; b3 := b3 ba |}
    else if fullY && (b2 ba <=? b2 m) then
      rest {| b0 := b0 ba; b1 := b1 ba; b2 := b0 m; b3 := b3 ba |}
    else Thrown.

Definition union (a b : PolyF) : Try (option PolyF) :=
  Returned (Some (bboxPolygon (hull (bbox a) (bbox b)))).

Definition buffer (p : PolyF) (d : num) (u : Units)
    : Try (option PolyF) :=
  let r := toDegrees d u in
  let b := bbox p in
  let grown :=
    {| b0 := b0 b - r; b1 := b1 b - r; b2 := b2 b + r; b3 := b3 b + r |} in
  Returned (if solid grown then Some (bboxPolygon grown) else None).

Definition dissolve (ps : list PolyF) : Try (list PolyF) := Returned ps.

Definition polygonToLine (p : PolyF) : Try LineResult :=
  match geometry p with
  | Polygon [ring] => Returned (ResultFeature (lineString ring))
  | Polygon rings =>
      Returned
        (ResultFeature
           {| ln_geometry := MultiLineString rings;
              ln_properties := noProps |})
  | MultiPolygon polys =>
      Returned (ResultCollection (map lineString (flat_map (firstn 1) polys)))
  end.

Definition lineIntersect (l : LineF) (boundary : option LineF)
    : Try (list PointF) :=
  match boundary with
  | Some b =>
      Returned (map point (crossings false (lineCoords l) (lineCoords b)))
  | None => Thrown
  end.

Definition splitterCoords (r : LineResult) : list Position :=
  match r with
  | ResultFeature l => lineCoords l
  | ResultCollection ls => flat_map lineCoords ls
  end.

(** The line cut at every vertex that follows a crossing with the
    splitter: [piece] is the part walked since the last cut. *)
Fixpoint cut (splitter : list Position) (es : list (Position * Position))
    (piece : list Position) : list (list Position) :=
  match es with
  | [] => [piece]
  | (a, b) :: rest =>
      match crossings true [a; b] splitter with
      | [] => cut splitter rest (piece ++ [b])
      | c :: _ => (piece ++ [c]) :: cut splitter rest [c; b]
      end
  end.

Definition lineSplit (l : option LineF) (splitter : LineResult)
    : Try (list LineF) :=
  match l with
  | Some line =>
      match lineCoords line with
      | [] => Returned []
      | a :: _ =>
          Returned
            (map lineString
               (cut (splitterCoords splitter)
                  (segments (lineCoords line)) [a]))
      end
  | None => Thrown
  end.

Definition turf : Turf :=
  Build_Turf polygon area bbox center distance bearing length
    booleanPointInPolygon booleanIntersects bboxPolygon circle destination
    along nearestPointOnLine (fun p => p) rotatePoly rotatePoint rotateLine
    (fun p => Returned p) kinks intersect difference union buffer dissolve
    polygonToLine lineIntersect lineSplit.

(** [Math.cos] near the equator. *)
Definition cos (x : num) : num := cosRad x.

End Flat.

(** ** Sample inputs *)

Module Sample.

Local Open Scope float_scope.

(** The configuration the application starts with. *)
Definition config : SiteConfig :=
  {| roadWidth := 12; lotWidth := 8; lotDepth := 18;
     parkPercentage := 15; stories := 2; entryIndex := 0 |}.

Definition withEntryIndex (i : Z) : SiteConfig :=
  {| roadWidth := 12; lotWidth := 8; lotDepth := 18;
     parkPercentage := 15; stories := 2; entryIndex := i |}.

Definition east : num := 200 / 111320.
Definition north : num := 150 / 111320.

(** A 200 m by 150 m rectangle. *)
Definition rectangle : list LatLng :=
  [ {| lat := 0; lng := 0 |}; {| lat := 0; lng := east |};
    {| lat := north; lng := east |}; {| lat := north; lng := 0 |} ].

(** The same corners in an order that makes two sides cross. *)
Definition bowtie : list LatLng :=
  [ {| lat := 0; lng := 0 |}; {| lat := north; lng := east |};
    {| lat := 0; lng := east |}; {| lat := north; lng := 0 |} ].

(** Three nearly collinear points: a triangle 400 m long and a tenth of
    a millimetre high. *)
Definition sliver : list LatLng :=
  [ {| lat := 0; lng := 0 |}; {| lat := 0; lng := east |};
    {| lat := 0.000000001; lng := east + east |} ].

Definition twoPoints : list LatLng :=
  [ {| lat := 0; lng := 0 |}; {| lat := 0; lng := east |} ].

(** An 80 m by 50 m rectangle. *)
Definition paddock : list LatLng :=
  [ {| lat := 0; lng := 0 |}; {| lat := 0; lng := 80 / 111320 |};
    {| lat := 50 / 111320; lng := 80 / 111320 |};
    {| lat := 50 / 111320; lng := 0 |} ].

(** Two random sources. *)
Definition low (n : nat) : num := 0.25.
Definition mixed (n : nat) : num :=
  if Nat.even n then 0.75 else 0.125.

Definition run (rnd : nat -> num) (points : list LatLng)
    (cfg : SiteConfig) : Res (GeneratedGeometry * ProjectStats) :=
  generateBuilding Flat.turf Flat.cos 100 rnd points cfg [].

(** Three candidate lots side by side, 18 units deep and 10, 2 and 10
    units wide, a unit being 2^-17 degree (about 0.85 m): the outer two
    are congruent, so that their areas are equal to the last bit. *)
Definition stripBox (x0 x1 : num) : PolyF :=
  Flat.bboxPolygon
    {| b0 := x0 / 131072; b1 := 0; b2 := x1 / 131072; b3 := 18 / 131072 |}.
Definition lotA : PolyF := stripBox 0 10.
Definition lotB : PolyF := stripBox 10 12.
Definition lotC : PolyF := stripBox 12 22.
(** The middle lot joined to its left and to its right neighbour. *)
Definition lotAB : PolyF := stripBox 0 12.
Definition lotBC : PolyF := stripBox 10 22.

(** Three entrance candidates, as the access stage would hand them to
    the gate selection. *)
Definition candidates : list Candidate :=
  [ {| midpoint := point (0, 0); roadBearing := 0 |};
    {| midpoint := point (east, 0); roadBearing := 90 |};
    {| midpoint := point (east, north); roadBearing := 180 |} ].

(** The nominal lot area of [config]: 8 m by 18 m. *)
Definition nominalArea : num := 144.

End Sample.

(** ** Views of the state and of the result *)

(** The part of the layout state the random source cannot influence. *)
Definition det (s : Layout)
    : list PolyF * list PolyF * list PolyF * nat * nat :=
  (tempLots s, tempParks s, tempSuperblocks s, globalLotIndex s,
   lotsGeneratedInBlock s).

(** Two computations agree when, from states with the same deterministic
    part, they end the same way, with the same value and in states with the
    same deterministic part. *)
Definition agree {A} (c1 c2 : M A) : Prop :=
  forall s1 s2,
    det s1 = det s2 ->
    fst (c1 s1) = fst (c2 s2) /\ det (snd (c1 s1)) = det (snd (c2 s2)).

(** A computation is silent when it returns and leaves the deterministic
    part of the state as it was. *)
Definition silent (c : M unit) : Prop :=
  forall s, fst (c s) = Val tt /\ det (snd (c s)) = det s.

(** A result without what the random source shapes: the buildings and
    the trees. *)
Definition forgetRandom (gs : GeneratedGeometry * ProjectStats)
    : GeneratedGeometry * ProjectStats :=
  let g := fst gs in
  ({| siteBoundary := siteBoundary g; superblocks := superblocks g;
      roads := roads g; lots := lots g; buildings := []; parks := parks g;
      trees := []; perimeterWalls := perimeterWalls g;
      accessControl := accessControl g; roadMarkings := roadMarkings g;
      stopSigns := stopSigns g;
      entranceCandidates := entranceCandidates g;
      isValid := isValid g; error := error g |},
   snd gs).

Definition deterministicPart (r : Res (GeneratedGeometry * ProjectStats))
    : Res (GeneratedGeometry * ProjectStats) :=
  bindR r (fun gs => Val (forgetRandom gs)).

(** The statistics that do not depend on the random source: [totalLots],
    [siteArea] and [parkArea]. *)
Definition deterministicStats (r : Res (GeneratedGeometry * ProjectStats))
    : Res (nat * num * num) :=
  bindR r (fun gs =>
    Val (totalLots (snd gs), siteArea (snd gs), parkArea (snd gs))).

(** ** Ownership of the generated features *)

(** The lot ids, or park ids, of a list of features, in order. *)
Definition lotIds (fs : list PolyF) : list (option nat) :=
  map (fun f => lotId (properties f)) fs.
Definition parkIds (fs : list PolyF) : list (option nat) :=
  map (fun f => parkId (properties f)) fs.

(** The features are numbered 0, 1, 2, ... in the order of the list. *)
Definition numbered (ids : list (option nat)) : Prop :=
  ids = map Some (seq 0 (length ids)).

(** The ids are present, strictly increasing, at least [lo] and below
    [n]. *)
Fixpoint increasingBelow (lo n : nat) (ids : list (option nat)) : bool :=
  match ids with
  | [] => true
  | Some i :: rest =>
      (lo <=? i)%nat && (i <? n)%nat && increasingBelow (S i) n rest
  | None :: _ => false
  end.

(** A tree belongs to one lot, or to one park, that exists. *)
Definition treeOwned (nLots nParks : nat) (t : PointF) : bool :=
  match lotId (pt_properties t), parkId (pt_properties t) with
  | Some i, None => (i <? nLots)%nat
  | None, Some j => (j <? nParks)%nat
  | _, _ => false
  end.

(** The state of the layout pass is well numbered: the next lot id is the
    number of lots, lots and parks are numbered in order, the buildings
    belong to distinct existing lots, in order, and every tree to an
    existing lot or park. *)
Definition wellNumbered (s : Layout) : Prop :=
  globalLotIndex s = length (tempLots s) /\
  numbered (lotIds (tempLots s)) /\
  numbered (parkIds (tempParks s)) /\
  increasingBelow 0 (length (tempLots s)) (lotIds (tempBuildings s)) = true /\
  forallb (treeOwned (length (tempLots s)) (length (tempParks s)))
          (tempTrees s) = true.

(** A computation keeps a property of the state when the property holds
    in the state it ends in, however it ends. *)
Definition keeps {A} (P : Layout -> Prop) (c : M A) : Prop :=
  forall s, P s -> P (snd (c s)).

(** ** Views of the grid *)

(** The grid index of a cell. *)
Definition cellKey (c : GridCell) : nat * nat := (col c, row c).

(** What holds of every cell the grid keeps: it is unclassified, its
    clipped polygon is the intersection of its box with the parcel, and
    the area of that polygon exceeds 50. *)
Definition keptCell (T : Turf) (originalSitePoly : PolyF)
    (alignmentAngle : num) (c : GridCell) : Prop :=
  cellType c = Unknown /\
  Js.gtb (turf_area T (poly c)) 50%float = true /\
  originalPoly c = turf_bboxPolygon T (originalBbox c) /\
  turf_intersect T (originalPoly c)
    (workingEffectivePoly T originalSitePoly alignmentAngle)
  = Returned (Some (poly c)).

(** Inside a column of the grid loop: the cells kept so far are kept cells
    with distinct indices, in earlier columns or in earlier rows of this
    one. *)
Definition inColumn (T : Turf) (originalSitePoly : PolyF)
    (alignmentAngle : num) (acc : GridAcc) : Prop :=
  Forall (keptCell T originalSitePoly alignmentAngle) (gridInfo acc) /\
  NoDup (map cellKey (gridInfo acc)) /\
  Forall (fun c => (col c < colCounter acc)%nat \/
                   (col c = colCounter acc /\
                    (row c < rowCounter acc)%nat))
         (gridInfo acc).

(** Between two columns: all kept cells are in earlier columns. *)
Definition betweenColumns (T : Turf) (originalSitePoly : PolyF)
    (alignmentAngle : num) (acc : GridAcc) : Prop :=
  Forall (keptCell T originalSitePoly alignmentAngle) (gridInfo acc) /\
  NoDup (map cellKey (gridInfo acc)) /\
  Forall (fun c => (col c < colCounter acc)%nat) (gridInfo acc).

(** ** Spacing *)

(** Every element of [l] is not near any element of [earlier] nor any
    element before it in [l]. *)
Fixpoint eachFarFromEarlier {A} (near : A -> A -> bool)
    (earlier l : list A) : bool :=
  match l with
  | [] => true
  | x :: rest =>
      negb (existsb (near x) earlier) &&
      eachFarFromEarlier near (earlier ++ [x]) rest
  end.

(** A park tree is too close to an earlier one: the test of
    [fillParkWithTrees], on the point as drawn. *)
Definition treeTooClose (T : Turf) (t u : PointF) : bool :=
  (turf_distance T (point (pt_coordinates t)) u Meters <? 4)%float.

(** An entrance candidate duplicates an earlier one: the test of the
    deduplication. *)
Definition duplicates (T : Turf) (c u : Candidate) : bool :=
  (turf_distance T (midpoint c) (midpoint u) Meters <? 15)%float.

(** The polygon trees are searched in: the park shrunk by 2 m when the
    buffer gives one, the park itself otherwise. *)
Definition searchPolyOf (T : Turf) (parkPoly : PolyF) : PolyF :=
  match turf_buffer T parkPoly (-0.002)%float Kilometers with
  | Returned (Some buffered) => buffered
  | Returned None => parkPoly
  | Thrown => parkPoly
  end.

(** The number of trees a park asks for: one per 40 square metres, at
    least 3 and at most 500. *)
Definition treeTargetOf (T : Turf) (parkPoly : PolyF) : num :=
  Js.Math_min
    (Js.Math_max 3%float (Js.Math_floor (turf_area T parkPoly / 40)%float))
    500%float.

(** ** The entrance control of the side bar *)

Module Sidebar.

(** [updateConfig('entryIndex', value)]: the configuration with that one
    field replaced. *)
Definition updateEntryIndex (config : SiteConfig) (value : Z)
    : SiteConfig :=
  {| roadWidth := roadWidth config; lotWidth := lotWidth config;
     lotDepth := lotDepth config; parkPercentage := parkPercentage config;
     stories := stories config; entryIndex := value |}.




End Sidebar.

(** A result without the gate and the perimeter walls. *)
Definition forgetGate (gs : GeneratedGeometry * ProjectStats)
    : GeneratedGeometry * ProjectStats :=
  let g := fst gs in
  ({| siteBoundary := siteBoundary g; superblocks := superblocks g;
      roads := roads g; lots := lots g; buildings := buildings g;
      parks := parks g; trees := trees g; perimeterWalls := [];
      accessControl := None; roadMarkings := roadMarkings g;
      stopSigns := stopSigns g;
      entranceCandidates := entranceCandidates g;
      isValid := isValid g; error := error g |},
   snd gs).

(** ** Edges of a ring *)




(** ** Road markings *)

(** One stripe of a crossing: a single box, whose polygon meets no
    park. *)
Definition stripeClearOfParks (T : Turf) (tempParks : list PolyF)
    (stripe : list Ring) : Prop :=
  exists box,
    stripe = [box] /\
    Forall
      (fun park =>
         exists b,
           polygon T [box] = Returned b /\
           turf_booleanIntersects T b park = false)
      tempParks.

(** A zebra crossing: a multipolygon of at least one stripe, every stripe
    clear of the parks. *)
Definition zebraMarking (T : Turf) (tempParks : list PolyF) (z : PolyF)
    : Prop :=
  exists stripes,
    z = multiPolygon stripes /\
    stripes <> [] /\
    Forall (stripeClearOfParks T tempParks) stripes.

(** The starting configuration without the park quota. *)
Definition configWithoutParks : SiteConfig :=
  {| roadWidth := 12%float; lotWidth := 8%float; lotDepth := 18%float;
     parkPercentage := 0%float; stories := 2%float; entryIndex := 0 |}.

(** ** Entrances on roads *)

(** An entrance candidate on a projected road axis: its midpoint is one of
    the points where the axis meets the boundary line, it carries the
    bearing of the axis, and the point 2 m from it along the axis, on one
    side or the other, is inside the site and in none of the superblocks
    and parks. *)
Definition roadEntrance (T : Turf) (site : PolyF)
    (boundaryLine : option LineF) (finalSuperblocks finalParks : list PolyF)
    (lines : list RoadLine) (c : Candidate) : Prop :=
  exists item intersects insidePoint,
    In item lines /\
    turf_lineIntersect T (line item) boundaryLine = Returned intersects /\
    In (midpoint c) intersects /\
    roadBearing c = bearing item /\
    (insidePoint
       = turf_destination T (midpoint c) 0.002%float (bearing item)
           Kilometers \/
     insidePoint
       = turf_destination T (midpoint c) 0.002%float
           (bearing item + 180)%float Kilometers) /\
    turf_booleanPointInPolygon T insidePoint site = true /\
    existsb (fun block => turf_booleanPointInPolygon T insidePoint block)
      finalSuperblocks = false /\
    existsb (fun pk => turf_booleanPointInPolygon T insidePoint pk)
      finalParks = false.

(** Sample data for the grid. *)
Definition paddockSite : PolyF :=
  {| geometry := Polygon [closedRing Sample.paddock];
     properties := noProps |}.

(** * Properties *)

(** ** Outcomes *)

Lemma bindR_Val {A B} (r : Res A) (k : A -> Res B) (b : B) :
  bindR r k = Val b -> exists a, r = Val a /\ k a = Val b.
Proof.
  destruct r as [a| |]; simpl; intro H; try discriminate.
  exists a. split; [reflexivity | exact H].
Qed.

Lemma catchR_Val {A} (body handler : Res A) (a : A) :
  catchR body handler = Val a ->
  body = Val a \/ (body = Throw /\ handler = Val a).
Proof.
  destruct body; simpl; intro H; try discriminate; auto.
Qed.

(** ** The entry point: validation and the three fatal checks *)

Section EntryPoint.

Variable T : Turf.
Variable Math_cos : num -> num.

Local Open Scope float_scope.

Lemma finish_valid config originalSitePoly alignmentAngle fuel siteArea0
    crossings s g st :
  finish T Math_cos config originalSitePoly alignmentAngle fuel siteArea0
    crossings s = Val (g, st) ->
  isValid g = true.
Proof.
  unfold finish. intro H.
  apply bindR_Val in H. destruct H as [markings [_ H]].
  apply bindR_Val in H. destruct H as [boundaryResult [_ H]].
  apply bindR_Val in H. destruct H as [[ac cands] [_ H]].
  apply bindR_Val in H. destruct H as [walls [_ H]].
  inversion H. reflexivity.
Qed.

Lemma pipeline_valid config constraints originalSitePoly alignmentAngle
    fuel siteArea0 rnd g st :
  pipeline T Math_cos config constraints originalSitePoly alignmentAngle
    fuel siteArea0 rnd = Val (g, st) ->
  isValid g = true.
Proof.
  unfold pipeline. intro H.
  apply bindR_Val in H. destruct H as [grid [_ H]].
  match type of H with
  | match ?c with _ => _ end = _ => destruct c as [[u| |] s]
  end; try discriminate.
  eapply finish_valid. exact H.
Qed.

(** Every way [generateBuilding] returns: one of the four invalid results
    with zero statistics, or a result of the pipeline. *)
Lemma generateBuilding_cases fuel rnd points config constraints g st :
  generateBuilding T Math_cos fuel rnd points config constraints
    = Val (g, st) ->
  (st = emptyStats /\
   (g = emptyGeometry \/
    exists boundary msg, g = invalidGeometry boundary msg)) \/
  isValid g = true.
Proof.
  unfold generateBuilding.
  destruct (length points <? 3)%nat.
  - intro H. inversion H. left. split; [reflexivity | left; reflexivity].
  - intro H. apply catchR_Val in H. destruct H as [H | [_ H]].
    + apply bindR_Val in H. destruct H as [cleanResult [_ H]].
      destruct (noCoordinates cleanResult).
      * inversion H. left. split; [reflexivity | right; eauto].
      * apply bindR_Val in H. destruct H as [kinks [_ H]].
        destruct (0 <? length kinks)%nat.
        -- inversion H. left. split; [reflexivity | right; eauto].
        -- destruct (turf_area T (turf_rewind T cleanResult) <? 100);
             [discriminate |].
           apply bindR_Val in H. destruct H as [angle [_ H]].
           right. eapply pipeline_valid. exact H.
    + inversion H. left. split; [reflexivity | right; eauto].
Qed.

End EntryPoint.

Section EntryPointClaims.

Variable T : Turf.
Variable Math_cos : num -> num.

Local Open Scope float_scope.

(** C10. Whenever [generateBuilding] returns a result with
    [isValid = false], the statistics returned with it are the empty
    statistics: site area, net sellable area, road area, park area, lot
    count, efficiency and entrance count are all 0. *)
Theorem invalid_result_has_zero_stats
    fuel rnd points config constraints g st :
  generateBuilding T Math_cos fuel rnd points config constraints
    = Val (g, st) ->
  isValid g = false ->
  st = emptyStats /\
  siteArea st = 0 /\ netSellableArea st = 0 /\ roadArea st = 0 /\
  parkArea st = 0 /\ totalLots st = 0%nat /\ efficiency st = 0 /\
  possibleEntrances st = 0%nat.
Proof.
  intros Hrun Hinvalid.
  apply generateBuilding_cases in Hrun.
  destruct Hrun as [[Hst _] | Hvalid].
  - subst st. repeat split.
  - rewrite Hvalid in Hinvalid. discriminate.
Qed.

(** C5 (amended). With fewer than 3 boundary points [generateBuilding]
    returns at once, without throwing, the empty invalid result: every
    array empty, no site boundary, [isValid = false], zero statistics,
    and no error message. *)
Theorem too_few_points_empty_result
    fuel rnd points config constraints :
  (length points < 3)%nat ->
  generateBuilding T Math_cos fuel rnd points config constraints
    = Val (emptyGeometry, emptyStats) /\
  isValid emptyGeometry = false /\
  error emptyGeometry = None.
Proof.
  intro Hlen. unfold generateBuilding.
  apply Nat.ltb_lt in Hlen. rewrite Hlen.
  repeat split.
Qed.

(** C3. When the boundary has a self-intersection (the ring of at least
    3 input points is built and cleaned, and [kinks] reports a crossing
    on it), [generateBuilding] returns, without throwing, an invalid
    result that carries the rewound boundary and the self-intersection
    error, with zero statistics. *)
Theorem self_intersection_rejected
    fuel rnd points config constraints p k ks :
  (3 <= length points)%nat ->
  sitePolygon T points = Val p ->
  noCoordinates p = false ->
  turf_kinks T (turf_rewind T p) = Returned (k :: ks) ->
  exists g,
    generateBuilding T Math_cos fuel rnd points config constraints
      = Val (g, emptyStats) /\
    isValid g = false /\
    error g = Some selfIntersectionError /\
    siteBoundary g = Some (turf_rewind T p) /\
    lots g = [].
Proof.
  intros Hlen Hsite Hcoords Hkinks.
  exists (invalidGeometry (Some (turf_rewind T p)) selfIntersectionError).
  unfold generateBuilding.
  apply Nat.ltb_ge in Hlen. rewrite Hlen.
  rewrite Hsite. simpl. rewrite Hcoords, Hkinks. simpl.
  repeat split.
Qed.

(** C4. When the area of the boundary polygon is below 100,
    [generateBuilding] returns, without throwing, an invalid result with
    no lot (and zero statistics). *)
Theorem small_area_rejected
    fuel rnd points config constraints p :
  sitePolygon T points = Val p ->
  (turf_area T (turf_rewind T p) <? 100) = true ->
  exists g,
    generateBuilding T Math_cos fuel rnd points config constraints
      = Val (g, emptyStats) /\
    isValid g = false /\
    lots g = [].
Proof.
  intros Hsite Harea. unfold generateBuilding.
  destruct (length points <? 3)%nat.
  - exists emptyGeometry. repeat split.
  - rewrite Hsite. simpl.
    destruct (noCoordinates p).
    + eexists. simpl. repeat split.
    + destruct (turf_kinks T (turf_rewind T p)) as [kinks|]; simpl.
      * destruct (0 <? length kinks)%nat.
        -- eexists. simpl. repeat split.
        -- rewrite Harea. simpl. eexists. repeat split.
      * eexists. repeat split.
Qed.

End EntryPointClaims.

(** A run with two points only ends without an error message. *)
Lemma too_few_points_no_error_message :
  (length Sample.twoPoints < 3)%nat /\
  exists g st,
    Sample.run Sample.low Sample.twoPoints Sample.config = Val (g, st) /\
    isValid g = false /\
    ~ (exists msg, error g = Some msg).
Proof.
  split; [simpl; lia |].
  exists emptyGeometry, emptyStats.
  split; [reflexivity |]. split; [reflexivity |].
  intros [msg H]. discriminate H.
Qed.

Lemma too_few_points_empty_result_witness :
  Sample.run Sample.low Sample.twoPoints Sample.config
    = Val (emptyGeometry, emptyStats) /\
  isValid emptyGeometry = false /\
  error emptyGeometry = None.
Proof.
  apply (too_few_points_empty_result Flat.turf Flat.cos 100 Sample.low
           Sample.twoPoints Sample.config []).
  simpl. lia.
Defined.

Lemma self_intersection_rejected_witness :
  exists g,
    Sample.run Sample.low Sample.bowtie Sample.config
      = Val (g, emptyStats) /\
    isValid g = false /\
    error g = Some selfIntersectionError /\
    siteBoundary g
      = Some {| geometry := Polygon [closedRing Sample.bowtie];
                properties := noProps |} /\
    lots g = [].
Proof.
  eapply (self_intersection_rejected Flat.turf Flat.cos 100 Sample.low
            Sample.bowtie Sample.config []).
  - simpl. lia.
  - vm_compute. reflexivity.
  - reflexivity.
  - vm_compute. reflexivity.
Defined.

Lemma small_area_rejected_witness :
  exists g,
    Sample.run Sample.low Sample.sliver Sample.config
      = Val (g, emptyStats) /\
    isValid g = false /\
    lots g = [].
Proof.
  eapply (small_area_rejected Flat.turf Flat.cos 100 Sample.low
            Sample.sliver Sample.config []).
  - vm_compute. reflexivity.
  - vm_compute. reflexivity.
Defined.

Lemma invalid_result_has_zero_stats_witness :
  exists g st,
    Sample.run Sample.low Sample.bowtie Sample.config = Val (g, st) /\
    isValid g = false /\
    st = emptyStats.
Proof.
  eexists. eexists.
  assert (Hrun : Sample.run Sample.low Sample.bowtie Sample.config
                 = Val (invalidGeometry
                          (Some {| geometry :=
                                     Polygon [closedRing Sample.bowtie];
                                   properties := noProps |})
                          selfIntersectionError,
                        emptyStats)).
  { vm_compute. reflexivity. }
  split; [exact Hrun |]. split; [reflexivity |].
  exact (proj1 (invalid_result_has_zero_stats Flat.turf Flat.cos 100
                  Sample.low Sample.bowtie Sample.config [] Hrun eq_refl)).
Defined.

(** ** Sliver repair *)

Lemma ltb_irrefl (x : num) : (x <? x)%float = false.
Proof.
  rewrite ltb_spec. unfold SFltb, SFcompare.
  destruct (Prim2SF x) as [s | s | | s m e]; try reflexivity.
  - destruct s; reflexivity.
  - destruct s; rewrite Z.compare_refl, ?Pos.compare_cont_refl;
      try rewrite Pos.compare_refl; reflexivity.
Qed.

Lemma splice_length {A} (arr : list A) (start deleteCount : nat)
    (items : list A) :
  (start + deleteCount <= length arr)%nat ->
  (length (splice arr start deleteCount items) + deleteCount
   = length arr + length items)%nat.
Proof.
  intro H. unfold splice.
  rewrite !length_app, length_firstn, length_skipn. lia.
Qed.

Section SliverRepairFacts.

Variable area : PolyF -> num.
Variable union : PolyF -> PolyF -> Try (option PolyF).
Variable targetLotArea : num.

Local Open Scope float_scope.

Lemma targetOf_adjacent mergedLots worstIdx targetIdx :
  targetOf area mergedLots worstIdx = Some targetIdx ->
  (targetIdx + 1 = worstIdx \/ targetIdx = worstIdx + 1)%nat.
Proof.
  unfold targetOf.
  destruct (0 <? worstIdx)%nat eqn:Hleft;
    destruct (worstIdx <? length mergedLots - 1)%nat eqn:Hright; simpl.
  - destruct (nth_error mergedLots (worstIdx - 1)) as [l|];
      [| discriminate].
    destruct (nth_error mergedLots (worstIdx + 1)) as [r|];
      [| discriminate].
    apply Nat.ltb_lt in Hleft.
    destruct (area l <? area r); intro H; inversion H; lia.
  - apply Nat.ltb_lt in Hleft. intro H; inversion H; lia.
  - intro H; inversion H; lia.
  - discriminate.
Qed.

(** A pass that keeps merging shortens the array by one. *)
Lemma mergeStep_shrinks mergedLots merged :
  mergeStep area union targetLotArea mergedLots = (merged, true) ->
  (length merged + 1 = length mergedLots)%nat.
Proof.
  unfold mergeStep.
  destruct (worstOf area targetLotArea mergedLots) as [worstIdx|];
    [| discriminate].
  destruct (targetOf area mergedLots worstIdx) as [targetIdx|] eqn:Htarget.
  - apply targetOf_adjacent in Htarget.
    destruct (nth_error mergedLots (Nat.min worstIdx targetIdx))
      as [a|] eqn:Ha; [| discriminate].
    destruct (nth_error mergedLots (Nat.max worstIdx targetIdx))
      as [b|] eqn:Hb; [| discriminate].
    destruct (union a b) as [[u|]|]; try discriminate.
    intro H. inversion H. subst merged.
    assert (Hlt : (Nat.max worstIdx targetIdx < length mergedLots)%nat).
    { apply nth_error_Some. rewrite Hb. discriminate. }
    pose proof (@splice_length PolyF mergedLots
                  (Nat.min worstIdx targetIdx) 2 [u]) as Hs.
    simpl in Hs. lia.
  - destruct (nth_error mergedLots worstIdx) as [w|] eqn:Hw;
      [| discriminate].
    destruct (area w <? targetLotArea * 0.4); [| discriminate].
    intro H. inversion H. subst merged.
    assert (Hlt : (worstIdx < length mergedLots)%nat).
    { apply nth_error_Some. rewrite Hw. discriminate. }
    pose proof (@splice_length PolyF mergedLots worstIdx 1 []) as Hs.
    simpl in Hs. lia.
Qed.

(** The merge loop ends: the length of the array is fuel enough. *)
Lemma mergeLoop_returns fuel mergedLots :
  (length mergedLots <= fuel)%nat ->
  exists merged,
    mergeLoop area union targetLotArea fuel mergedLots = Val merged.
Proof.
  revert mergedLots.
  induction fuel as [| fuel IH]; intros mergedLots Hlen.
  - destruct mergedLots; [| simpl in Hlen; lia].
    exists []. reflexivity.
  - destruct mergedLots as [| l rest]; [exists []; reflexivity |].
    cbn [mergeLoop].
    destruct (mergeStep area union targetLotArea (l :: rest))
      as [merged keep] eqn:Hstep.
    destruct keep.
    + apply mergeStep_shrinks in Hstep.
      apply IH. simpl in Hlen, Hstep. lia.
    + exists merged. reflexivity.
Qed.

Lemma mergeLots_returns candidateLots :
  exists merged,
    mergeLots area union targetLotArea candidateLots = Val merged.
Proof. apply mergeLoop_returns. apply Nat.le_refl. Qed.

(** C8 (amended). In one pass of the sliver repair, when the worst lot
    has a left and a right neighbour of exactly equal areas, the target
    of the merge is the right neighbour ([areaLeft < areaRight] is false
    on a tie): the worst lot and its right neighbour are replaced by
    their union. *)
Theorem tie_merges_with_right_neighbour
    mergedLots worstIdx lotLeft worst lotRight u :
  worstOf area targetLotArea mergedLots = Some worstIdx ->
  (0 < worstIdx)%nat ->
  nth_error mergedLots (worstIdx - 1) = Some lotLeft ->
  nth_error mergedLots worstIdx = Some worst ->
  nth_error mergedLots (worstIdx + 1) = Some lotRight ->
  area lotLeft = area lotRight ->
  union worst lotRight = Returned (Some u) ->
  targetOf area mergedLots worstIdx = Some (worstIdx + 1)%nat /\
  mergeStep area union targetLotArea mergedLots
    = (splice mergedLots worstIdx 2 [u], true).
Proof.
  intros Hworst Hpos Hleft Hmid Hright Htie Hunion.
  assert (Htarget :
            targetOf area mergedLots worstIdx = Some (worstIdx + 1)%nat).
  { unfold targetOf.
    assert (Hlen : (worstIdx + 1 < length mergedLots)%nat).
    { apply nth_error_Some. rewrite Hright. discriminate. }
    assert (H1 : (0 <? worstIdx)%nat = true)
      by (apply Nat.ltb_lt; exact Hpos).
    assert (H2 : (worstIdx <? length mergedLots - 1)%nat = true)
      by (apply Nat.ltb_lt; lia).
    rewrite H1, H2. simpl.
    rewrite Hleft, Hright, Htie, ltb_irrefl. reflexivity. }
  split; [exact Htarget |].
  unfold mergeStep. rewrite Hworst, Htarget.
  replace (Nat.min worstIdx (worstIdx + 1)) with worstIdx by lia.
  replace (Nat.max worstIdx (worstIdx + 1)) with (worstIdx + 1)%nat by lia.
  rewrite Hmid, Hright, Hunion. reflexivity.
Qed.

End SliverRepairFacts.

(** Of three lots in a row whose outer two have equal areas, the small
    middle one is merged with the right one, not with the left one. *)
Lemma tie_does_not_merge_left :
  worstOf Flat.area Sample.nominalArea
    [Sample.lotA; Sample.lotB; Sample.lotC] = Some 1%nat /\
  Flat.area Sample.lotA = Flat.area Sample.lotC /\
  mergeLots Flat.area Flat.union Sample.nominalArea
    [Sample.lotA; Sample.lotB; Sample.lotC]
    = Val [Sample.lotA; Sample.lotBC] /\
  mergeLots Flat.area Flat.union Sample.nominalArea
    [Sample.lotA; Sample.lotB; Sample.lotC]
    <> Val [Sample.lotAB; Sample.lotC].
Proof.
  split; [vm_compute; reflexivity |].
  split; [vm_compute; reflexivity |].
  assert (H : mergeLots Flat.area Flat.union Sample.nominalArea
                [Sample.lotA; Sample.lotB; Sample.lotC]
              = Val [Sample.lotA; Sample.lotBC])
    by (vm_compute; reflexivity).
  split; [exact H |].
  rewrite H. intro Heq.
  apply (f_equal (fun r => match r with
                           | Val (a :: _) => Flat.area a
                           | _ => 0%float
                           end)) in Heq.
  apply (f_equal Prim2SF) in Heq. vm_compute in Heq. discriminate Heq.
Qed.

Lemma tie_merges_with_right_neighbour_witness :
  targetOf Flat.area [Sample.lotA; Sample.lotB; Sample.lotC] 1
    = Some 2%nat /\
  mergeStep Flat.area Flat.union Sample.nominalArea
    [Sample.lotA; Sample.lotB; Sample.lotC]
    = ([Sample.lotA; Sample.lotBC], true).
Proof.
  apply (@tie_merges_with_right_neighbour Flat.area Flat.union
           Sample.nominalArea [Sample.lotA; Sample.lotB; Sample.lotC]
           1%nat Sample.lotA Sample.lotB Sample.lotC
           (Sample.lotBC)).
  - vm_compute. reflexivity.
  - lia.
  - reflexivity.
  - reflexivity.
  - reflexivity.
  - vm_compute. reflexivity.
  - vm_compute. reflexivity.
Defined.

(** ** The shape of a valid run *)

Lemma call_Val {A} (t : Try A) (a : A) : call t = Val a -> t = Returned a.
Proof. destruct t; simpl; intro H; inversion H; reflexivity. Qed.

Section ValidRun.

Variable T : Turf.
Variable Math_cos : num -> num.

Local Open Scope float_scope.

Lemma finish_inv config originalSitePoly alignmentAngle fuel siteArea0
    crossings s g st :
  finish T Math_cos config originalSitePoly alignmentAngle fuel siteArea0
    crossings s = Val (g, st) ->
  exists boundaryResult accessControlData uniqueCandidates,
    turf_polygonToLine T originalSitePoly = Returned boundaryResult /\
    accessStage T Math_cos config originalSitePoly alignmentAngle
      (firstLine boundaryResult)
      (rotateBackPolys T originalSitePoly alignmentAngle
         (tempSuperblocks s))
      (rotateBackPolys T originalSitePoly alignmentAngle (tempParks s))
      = Val (accessControlData, uniqueCandidates) /\
    perimeterStage T config accessControlData (firstLine boundaryResult)
      = Val (perimeterWalls g) /\
    siteBoundary g = Some originalSitePoly /\
    accessControl g = accessControlData /\
    entranceCandidates g = map latLngOf uniqueCandidates /\
    lots g = rotateBackPolys T originalSitePoly alignmentAngle (tempLots s)
    /\
    parks g
      = rotateBackPolys T originalSitePoly alignmentAngle (tempParks s) /\
    siteArea st = siteArea0 /\
    totalLots st = length (lots g) /\
    netSellableArea st = sumOf (turf_area T) (lots g) /\
    parkArea st = sumOf (turf_area T) (parks g) /\
    possibleEntrances st = length uniqueCandidates.
Proof.
  unfold finish. intro H.
  apply bindR_Val in H. destruct H as [markings [_ H]].
  apply bindR_Val in H. destruct H as [boundaryResult [Hline H]].
  apply bindR_Val in H. destruct H as [[ac cands] [Haccess H]].
  apply bindR_Val in H. destruct H as [walls [Hwalls H]].
  apply call_Val in Hline.
  inversion H; subst; clear H. simpl.
  exists boundaryResult, ac, cands.
  repeat split; assumption.
Qed.

Lemma pipeline_inv config constraints originalSitePoly alignmentAngle
    fuel siteArea0 rnd g st :
  pipeline T Math_cos config constraints originalSitePoly alignmentAngle
    fuel siteArea0 rnd = Val (g, st) ->
  exists crossings s,
    finish T Math_cos config originalSitePoly alignmentAngle fuel
      siteArea0 crossings s = Val (g, st).
Proof.
  unfold pipeline. intro H.
  apply bindR_Val in H. destruct H as [grid [_ H]].
  match type of H with
  | match ?c with _ => _ end = _ => destruct c as [[u| |] s]
  end; try discriminate.
  eauto.
Qed.

(** A valid result is a result of the pipeline on the rewound
    boundary. *)
Lemma generateBuilding_valid_inv fuel rnd points config constraints g st :
  generateBuilding T Math_cos fuel rnd points config constraints
    = Val (g, st) ->
  isValid g = true ->
  exists p alignmentAngle,
    sitePolygon T points = Val p /\
    pipeline T Math_cos config constraints (turf_rewind T p)
      alignmentAngle fuel (turf_area T (turf_rewind T p)) rnd
      = Val (g, st).
Proof.
  unfold generateBuilding. intros H Hvalid.
  destruct (length points <? 3)%nat.
  { inversion H; subst. discriminate Hvalid. }
  apply catchR_Val in H. destruct H as [H | [_ H]].
  2: { inversion H; subst. discriminate Hvalid. }
  apply bindR_Val in H. destruct H as [p [Hsite H]].
  destruct (noCoordinates p).
  { inversion H; subst. discriminate Hvalid. }
  apply bindR_Val in H. destruct H as [kinks [_ H]].
  destruct (0 <? length kinks)%nat.
  { inversion H; subst. discriminate Hvalid. }
  destruct (turf_area T (turf_rewind T p) <? 100); [discriminate |].
  apply bindR_Val in H. destruct H as [angle [_ H]].
  exists p, angle. split; assumption.
Qed.

End ValidRun.

(** ** The entrance *)

Lemma arrayGet_in_range {A} (arr : list A) (i : Z) :
  (0 <= i < Z.of_nat (length arr))%Z ->
  exists a, nth_error arr (Z.to_nat i) = Some a /\ arrayGet arr i = Some a.
Proof.
  intros [Hlo Hhi]. unfold arrayGet.
  destruct (i <? 0)%Z eqn:Hneg; [apply Z.ltb_lt in Hneg; lia |].
  destruct (nth_error arr (Z.to_nat i)) as [a|] eqn:Hnth.
  - exists a. split; reflexivity.
  - apply nth_error_None in Hnth. lia.
Qed.

Section Entrance.

Variable T : Turf.
Variable Math_cos : num -> num.

(** [entryIndex % length] of a nonnegative [entryIndex] is an index of
    the array. *)
Lemma safeIndex_in_range (config : SiteConfig) {A} (arr : list A) :
  arr <> [] ->
  (0 <= entryIndex config)%Z ->
  exists a,
    nth_error arr
      (Z.to_nat (entryIndex config mod Z.of_nat (length arr))) = Some a /\
    arrayGet arr (Z.rem (entryIndex config) (Z.of_nat (length arr)))
      = Some a.
Proof.
  intros Hne Hidx.
  assert (Hlen : (0 < length arr)%nat).
  { destruct arr; [contradiction | simpl; lia]. }
  rewrite Z.rem_mod_nonneg by lia.
  apply arrayGet_in_range. apply Z.mod_pos_bound. lia.
Qed.

(** C6. When the list of deduplicated, angularly sorted entrance
    candidates is not empty and [entryIndex] is a nonnegative integer,
    the selection returns (no index is out of range, nothing throws) the
    gate built at the candidate of index [entryIndex mod count]: its
    entry point is that candidate's position and its rotation that
    candidate's road bearing. *)
Theorem entry_index_selects_modulo config uniqueFiltered :
  uniqueFiltered <> [] ->
  (0 <= entryIndex config)%Z ->
  exists selected,
    nth_error uniqueFiltered
      (Z.to_nat (entryIndex config mod Z.of_nat (length uniqueFiltered)))
      = Some selected /\
    selectGate T config uniqueFiltered
      = Val (Some (gateAt T config selected)) /\
    entryPoint (gateAt T config selected) = latLngOf selected /\
    rotation (gateAt T config selected) = roadBearing selected.
Proof.
  intros Hne Hidx.
  destruct (safeIndex_in_range config Hne Hidx) as [selected [Hnth Hget]].
  exists selected. split; [exact Hnth |].
  split; [| split; reflexivity].
  unfold selectGate.
  assert (Hlen : (0 <? length uniqueFiltered)%nat = true).
  { apply Nat.ltb_lt. destruct uniqueFiltered; [contradiction |].
    simpl. lia. }
  rewrite Hlen, Hget. reflexivity.
Qed.

(** The candidates a run returns are the list the gate was selected
    from. *)
Lemma accessStage_gate config originalSitePoly alignmentAngle
    boundaryLine finalSuperblocks finalParks ac cands :
  accessStage T Math_cos config originalSitePoly alignmentAngle
    boundaryLine finalSuperblocks finalParks = Val (ac, cands) ->
  cands = [] \/ selectGate T config cands = Val ac.
Proof.
  unfold accessStage.
  destruct (0 <? length finalSuperblocks)%nat.
  - intro H.
    apply bindR_Val in H. destruct H as [lines [_ H]].
    apply bindR_Val in H. destruct H as [found [_ H]].
    apply bindR_Val in H. destruct H as [gate [Hgate H]].
    inversion H; subst. right. exact Hgate.
  - intro H. inversion H. left. reflexivity.
Qed.

(** For a whole run: the gate of a valid result stands at the returned
    entrance candidate of index [entryIndex mod count]. *)
Theorem gate_at_returned_candidate
    fuel rnd points config constraints g st :
  generateBuilding T Math_cos fuel rnd points config constraints
    = Val (g, st) ->
  entranceCandidates g <> [] ->
  (0 <= entryIndex config)%Z ->
  exists ac,
    accessControl g = Some ac /\
    nth_error (entranceCandidates g)
      (Z.to_nat
         (entryIndex config mod Z.of_nat (length (entranceCandidates g))))
      = Some (entryPoint ac).
Proof.
  intros Hrun Hne Hidx.
  assert (Hvalid : isValid g = true).
  { pose proof Hrun as Hcases. apply generateBuilding_cases in Hcases.
    destruct Hcases as [[_ [Hg | [b [msg Hg]]]] | Hv]; [| | exact Hv];
      subst g; simpl in Hne; contradiction. }
  apply generateBuilding_valid_inv in Hrun; [| exact Hvalid].
  destruct Hrun as [p [angle [_ Hpipe]]].
  apply pipeline_inv in Hpipe. destruct Hpipe as [crossings [s Hfin]].
  apply finish_inv in Hfin.
  destruct Hfin as [br [ac [cands [_ [Hacc [_ [_ [Hac [Hcands _]]]]]]]]].
  rewrite Hcands in *.
  apply accessStage_gate in Hacc.
  destruct Hacc as [Hnil | Hgate]; [subst cands; contradiction |].
  assert (Hne' : cands <> []) by (intro; subst cands; contradiction).
  destruct (safeIndex_in_range config Hne' Hidx) as [selected [Hnth Hget]].
  unfold selectGate in Hgate.
  assert (Hlen : (0 <? length cands)%nat = true).
  { apply Nat.ltb_lt. destruct cands; [contradiction | simpl; lia]. }
  rewrite Hlen, Hget in Hgate. inversion Hgate as [Hgate'].
  rewrite <- Hgate' in Hac.
  exists (gateAt T config selected). split; [exact Hac |].
  rewrite length_map, nth_error_map, Hnth. reflexivity.
Qed.

End Entrance.

Lemma entry_index_selects_modulo_witness :
  exists selected,
    nth_error Sample.candidates 2 = Some selected /\
    selectGate Flat.turf (Sample.withEntryIndex 1000001) Sample.candidates
      = Val (Some (gateAt Flat.turf (Sample.withEntryIndex 1000001)
                     selected)) /\
    entryPoint (gateAt Flat.turf (Sample.withEntryIndex 1000001) selected)
      = latLngOf selected /\
    rotation (gateAt Flat.turf (Sample.withEntryIndex 1000001) selected)
      = roadBearing selected.
Proof.
  apply (@entry_index_selects_modulo Flat.turf
           (Sample.withEntryIndex 1000001) Sample.candidates).
  - discriminate.
  - simpl. lia.
Defined.

(** ** The perimeter wall *)

Section Perimeter.

Variable T : Turf.
Variable Math_cos : num -> num.

Local Open Scope float_scope.

(** C7 (amended). In a valid result, when a gate was built the perimeter
    walls are the pieces of the boundary line, split by the outline of a
    circle of 16 steps around the entry point whose radius is 0.6 times
    the configured road width (in kilometres: [roadWidth / 1000 * 0.6]),
    that lie outside that circle (the whole line if the split gives
    nothing); when no gate was built the perimeter walls are exactly the
    one unbroken boundary line. *)
Theorem perimeter_walls_of_run fuel rnd points config constraints g st :
  generateBuilding T Math_cos fuel rnd points config constraints
    = Val (g, st) ->
  isValid g = true ->
  exists site boundaryResult,
    siteBoundary g = Some site /\
    turf_polygonToLine T site = Returned boundaryResult /\
    match accessControl g with
    | Some ac =>
        let mask :=
          turf_circle T (point (lng (entryPoint ac), lat (entryPoint ac)))
            ((roadWidth config / 1000) * 0.6) Kilometers 16 in
        exists maskLine split,
          turf_polygonToLine T mask = Returned maskLine /\
          turf_lineSplit T (firstLine boundaryResult) maskLine
            = Returned split /\
          perimeterWalls g
            = if (0 <? length split)%nat then wallsOutside T mask split
              else [firstLine boundaryResult]
    | None => perimeterWalls g = [firstLine boundaryResult]
    end.
Proof.
  intros Hrun Hvalid.
  apply generateBuilding_valid_inv in Hrun; [| exact Hvalid].
  destruct Hrun as [p [angle [_ Hpipe]]].
  apply pipeline_inv in Hpipe. destruct Hpipe as [crossings [s Hfin]].
  apply finish_inv in Hfin.
  destruct Hfin as [br [ac [cands [Hline [_ [Hwalls [Hsite [Hac _]]]]]]]].
  exists (turf_rewind T p), br.
  split; [exact Hsite |]. split; [exact Hline |].
  rewrite Hac. destruct ac as [ac|]; simpl in Hwalls.
  - apply bindR_Val in Hwalls. destruct Hwalls as [maskLine [Hmask H]].
    apply bindR_Val in H. destruct H as [split [Hsplit H]].
    apply call_Val in Hmask. apply call_Val in Hsplit.
    exists maskLine, split.
    split; [exact Hmask |]. split; [exact Hsplit |].
    unfold cutoutMask, cutoutRadius in H.
    destruct (0 <? length split)%nat; inversion H; reflexivity.
  - inversion Hwalls. reflexivity.
Qed.

End Perimeter.


(** On the rectangle with a 12 m road a gate is built, and the notch around
    it has a radius of 7.2 m, twice the 3.6 m that 0.6 times half the road
    width would be. *)
Lemma notch_radius_is_not_half_width :
  exists g st ac,
    generateBuilding Flat.turf Flat.cos 100 Sample.low Sample.rectangle
      Sample.config [] = Val (g, st) /\
    accessControl g = Some ac /\
    cutoutMask Flat.turf Sample.config ac
      = Flat.circle (point (lng (entryPoint ac), lat (entryPoint ac)))
          (cutoutRadius Sample.config) Kilometers 16 /\
    cutoutRadius Sample.config = 0.0071999999999999998%float /\
    (0.6 * ((roadWidth Sample.config / 2) / 1000))%float
      = 0.0035999999999999999%float /\
    cutoutRadius Sample.config
      <> (0.6 * ((roadWidth Sample.config / 2) / 1000))%float.
Proof.
  eexists. eexists. eexists.
  split; [vm_compute; reflexivity |].
  split; [cbn [accessControl]; reflexivity |].
  split; [vm_compute; reflexivity |].
  split; [vm_compute; reflexivity |].
  split; [vm_compute; reflexivity |].
  intro H. apply (f_equal Prim2SF) in H. vm_compute in H. discriminate H.
Qed.

Lemma perimeter_walls_of_run_witness :
  exists g st,
    generateBuilding Flat.turf Flat.cos 100 Sample.low Sample.rectangle
      Sample.config [] = Val (g, st) /\
    isValid g = true /\
    exists site boundaryResult,
      siteBoundary g = Some site /\
      turf_polygonToLine Flat.turf site = Returned boundaryResult /\
      match accessControl g with
      | Some ac =>
          let mask :=
            turf_circle Flat.turf
              (point (lng (entryPoint ac), lat (entryPoint ac)))
              ((roadWidth Sample.config / 1000) * 0.6)%float Kilometers 16 in
          exists maskLine split,
            turf_polygonToLine Flat.turf mask = Returned maskLine /\
            turf_lineSplit Flat.turf (firstLine boundaryResult) maskLine
              = Returned split /\
            perimeterWalls g
              = if (0 <? length split)%nat
                then wallsOutside Flat.turf mask split
                else [firstLine boundaryResult]
      | None => perimeterWalls g = [firstLine boundaryResult]
      end.
Proof.
  assert (H : exists g st,
             generateBuilding Flat.turf Flat.cos 100 Sample.low
               Sample.rectangle Sample.config [] = Val (g, st) /\
             isValid g = true).
  { eexists. eexists. split; [vm_compute; reflexivity | reflexivity]. }
  destruct H as [g [st [Hrun Hvalid]]].
  exists g, st. split; [exact Hrun |]. split; [exact Hvalid |].
  exact (perimeter_walls_of_run Flat.turf Flat.cos 100 Sample.low
           Sample.rectangle Sample.config [] Hrun Hvalid).
Defined.

(** ** The random source does not reach the lots and the parks *)

Lemma agree_ret {A} (a : A) : agree (ret a) (ret a).
Proof. intros s1 s2 H. split; [reflexivity | exact H]. Qed.

Lemma agree_liftR {A} (r : Res A) : agree (liftR r) (liftR r).
Proof. intros s1 s2 H. split; [reflexivity | exact H]. Qed.

Lemma agree_bind {A B} (c1 c2 : M A) (k1 k2 : A -> M B) :
  agree c1 c2 ->
  (forall a, agree (k1 a) (k2 a)) ->
  agree (bind c1 k1) (bind c2 k2).
Proof.
  intros Hc Hk s1 s2 H. unfold bind.
  destruct (Hc s1 s2 H) as [Hres Hdet].
  destruct (c1 s1) as [r1 t1], (c2 s2) as [r2 t2]. simpl in Hres, Hdet.
  subst r2. destruct r1 as [a| |]; simpl.
  - apply Hk. exact Hdet.
  - split; [reflexivity | exact Hdet].
  - split; [reflexivity | exact Hdet].
Qed.

Lemma agree_tryCatch {A} (b1 b2 h1 h2 : M A) :
  agree b1 b2 -> agree h1 h2 -> agree (tryCatch b1 h1) (tryCatch b2 h2).
Proof.
  intros Hb Hh s1 s2 H. unfold tryCatch.
  destruct (Hb s1 s2 H) as [Hres Hdet].
  destruct (b1 s1) as [r1 t1], (b2 s2) as [r2 t2]. simpl in Hres, Hdet.
  subst r2. destruct r1 as [a| |]; simpl.
  - split; [reflexivity | exact Hdet].
  - apply Hh. exact Hdet.
  - split; [reflexivity | exact Hdet].
Qed.

Lemma agree_gets {A} (f : Layout -> A) :
  (forall s1 s2, det s1 = det s2 -> f s1 = f s2) ->
  agree (gets f) (gets f).
Proof.
  intros Hf s1 s2 H. unfold gets. simpl.
  split; [rewrite (Hf s1 s2 H); reflexivity | exact H].
Qed.

Lemma agree_modify (f : Layout -> Layout) :
  (forall s1 s2, det s1 = det s2 -> det (f s1) = det (f s2)) ->
  agree (modify f) (modify f).
Proof.
  intros Hf s1 s2 H. unfold modify. simpl.
  split; [reflexivity | apply Hf; exact H].
Qed.

Lemma agree_silent (c1 c2 : M unit) :
  silent c1 -> silent c2 -> agree c1 c2.
Proof.
  intros H1 H2 s1 s2 H.
  destruct (H1 s1) as [R1 D1], (H2 s2) as [R2 D2].
  split; congruence.
Qed.

(** Two different draws may be followed by anything that agrees. *)
Lemma agree_random {A} (k1 k2 : num -> M A) :
  (forall r1 r2, agree (k1 r1) (k2 r2)) ->
  agree (bind Math_random k1) (bind Math_random k2).
Proof.
  intros Hk s1 s2 H. unfold bind, Math_random.
  apply Hk. unfold det in *. simpl. exact H.
Qed.

Lemma agree_forEach {A} (arr : list A) (body : A -> M unit) :
  (forall x, agree (body x) (body x)) ->
  agree (forEach arr body) (forEach arr body).
Proof.
  intro Hbody. induction arr as [| x arr IH]; simpl.
  - apply agree_ret.
  - apply agree_bind; [apply Hbody | intros _; exact IH].
Qed.

Lemma silent_ret : silent (ret tt).
Proof. intro s. split; reflexivity. Qed.

Lemma silent_bind (c : M unit) (k : unit -> M unit) :
  silent c -> (forall u, silent (k u)) -> silent (bind c k).
Proof.
  intros Hc Hk s. unfold bind.
  destruct (Hc s) as [Hres Hdet].
  destruct (c s) as [r t]. simpl in Hres, Hdet. subst r.
  destruct (Hk tt t) as [Hres' Hdet'].
  split; [exact Hres' | congruence].
Qed.

Lemma silent_random (k : num -> M unit) :
  (forall r, silent (k r)) -> silent (bind Math_random k).
Proof.
  intros Hk s. unfold bind, Math_random.
  destruct (Hk (random s 0%nat)
              {| tempLots := tempLots s; tempBuildings := tempBuildings s;
                 tempParks := tempParks s; tempTrees := tempTrees s;
                 tempSuperblocks := tempSuperblocks s;
                 globalLotIndex := globalLotIndex s;
                 lotsGeneratedInBlock := lotsGeneratedInBlock s;
                 random := fun n => random s (S n) |}) as [Hres Hdet].
  split; [exact Hres | exact Hdet].
Qed.

Lemma silent_pushTree (t : PointF) : silent (pushTree t).
Proof. intro s. split; reflexivity. Qed.

Lemma silent_pushBuilding (b : PolyF) : silent (pushBuilding b).
Proof. intro s. split; reflexivity. Qed.

Lemma det_fields (s1 s2 : Layout) :
  det s1 = det s2 ->
  tempLots s1 = tempLots s2 /\ tempParks s1 = tempParks s2 /\
  tempSuperblocks s1 = tempSuperblocks s2 /\
  globalLotIndex s1 = globalLotIndex s2 /\
  lotsGeneratedInBlock s1 = lotsGeneratedInBlock s2.
Proof. unfold det. intro H. inversion H. repeat split; assumption. Qed.

Ltac det_step :=
  let H := fresh "H" in
  intros ? ? H; apply det_fields in H;
  destruct H as (? & ? & ? & ? & ?);
  unfold det; simpl; congruence.

Lemma agree_pushLot l : agree (pushLot l) (pushLot l).
Proof. apply agree_modify. det_step. Qed.

Lemma agree_pushPark p : agree (pushPark p) (pushPark p).
Proof. apply agree_modify. det_step. Qed.

Lemma agree_pushSuperblock b : agree (pushSuperblock b) (pushSuperblock b).
Proof. apply agree_modify. det_step. Qed.

Lemma agree_setGlobalLotIndex n :
  agree (setGlobalLotIndex n) (setGlobalLotIndex n).
Proof. apply agree_modify. det_step. Qed.

Lemma agree_setLotsGeneratedInBlock n :
  agree (setLotsGeneratedInBlock n) (setLotsGeneratedInBlock n).
Proof. apply agree_modify. det_step. Qed.

Section Determinism.

Variable T : Turf.
Variable Math_cos : num -> num.
Variable config : SiteConfig.
Variable constraints : list UserConstraint.
Variable originalSitePoly : PolyF.
Variable alignmentAngle : num.

Local Open Scope float_scope.

Lemma placeTrees_silent actualTarget parkBbox searchPoly parkId attempts :
  forall placedTrees,
    silent (placeTrees T actualTarget parkBbox searchPoly parkId attempts
              placedTrees).
Proof.
  induction attempts as [| a rest IH]; intro placedTrees; simpl.
  - apply silent_ret.
  - destruct (Js.ofNat (length placedTrees) <? actualTarget);
      [| apply silent_ret].
    apply silent_random. intro r1.
    apply silent_random. intro r2.
    match goal with
    | |- silent (if ?c then _ else _) => destruct c
    end; [| apply IH].
    match goal with
    | |- silent (if ?c then _ else _) => destruct c
    end; [| apply IH].
    apply silent_bind; [apply silent_pushTree | intros _; apply IH].
Qed.

Lemma fillParkWithTrees_agree parkPoly parkId :
  agree (fillParkWithTrees T parkPoly parkId)
        (fillParkWithTrees T parkPoly parkId).
Proof.
  unfold fillParkWithTrees.
  apply agree_bind; [apply agree_liftR |].
  intro attempts. apply agree_silent; apply placeTrees_silent.
Qed.

(** The building of a lot, whatever was drawn for its depth. *)
Lemma building_silent (cond : bool) (buildingPoly lotShape : PolyF)
    (i : nat) :
  silent
    (if cond then
       match turf_intersect T buildingPoly lotShape with
       | Returned (Some clipped) =>
           bind Math_random (fun h =>
           bind Math_random (fun c =>
             pushBuilding
               (setProps clipped
                  (buildingProps ((h * 0.2) + 0.9)
                     (Js.Math_floor (c * 3)) i))))
       | Returned None => ret tt
       | Thrown => ret tt
       end
     else ret tt).
Proof.
  destruct cond; [| apply silent_ret].
  destruct (turf_intersect T buildingPoly lotShape) as [[clipped|]|];
    [| apply silent_ret | apply silent_ret].
  apply silent_random. intro h. apply silent_random. intro c.
  apply silent_pushBuilding.
Qed.

Lemma lotAssets_agree isBottom lotShape0 :
  agree (lotAssets T Math_cos originalSitePoly alignmentAngle isBottom
           lotShape0)
        (lotAssets T Math_cos originalSitePoly alignmentAngle isBottom
           lotShape0).
Proof.
  unfold lotAssets.
  destruct (turf_area T lotShape0 <? 20); [apply agree_ret |].
  apply agree_bind; [apply agree_gets; det_step |]. intro i.
  apply agree_bind; [apply agree_pushLot |]. intros _.
  apply agree_bind; [apply agree_gets; det_step |]. intro n.
  apply agree_bind; [apply agree_setLotsGeneratedInBlock |]. intros _.
  apply agree_random. intros r1 r2.
  apply agree_bind.
  { apply agree_silent; apply building_silent. }
  intros _.
  apply agree_random. intros r1' r2'.
  apply agree_bind; [| intros _; apply agree_setGlobalLotIndex].
  apply agree_silent.
  - match goal with
    | |- silent (if ?c then _ else _) => destruct c
    end; [apply silent_pushTree | apply silent_ret].
  - match goal with
    | |- silent (if ?c then _ else _) => destruct c
    end; [apply silent_pushTree | apply silent_ret].
Qed.

Lemma processOneZone_agree isBottom zone :
  agree (processOneZone T Math_cos config originalSitePoly alignmentAngle
           isBottom zone)
        (processOneZone T Math_cos config originalSitePoly alignmentAngle
           isBottom zone).
Proof.
  unfold processOneZone.
  match goal with
  | |- agree (if ?c then _ else _) _ => destruct c
  end; [apply agree_ret |].
  apply agree_bind; [apply agree_liftR |]. intro ks.
  match goal with
  | |- agree (if ?c then _ else _) _ => destruct c
  end; [| apply agree_ret].
  apply agree_bind; [apply agree_liftR |]. intro mergedLots.
  apply agree_forEach. intro lot. apply lotAssets_agree.
Qed.

Lemma processZone_agree zonePoly isBottom :
  agree (processZone T Math_cos config originalSitePoly alignmentAngle
           zonePoly isBottom)
        (processZone T Math_cos config originalSitePoly alignmentAngle
           zonePoly isBottom).
Proof.
  unfold processZone.
  apply agree_bind; [apply agree_liftR |]. intro zones.
  apply agree_forEach. intro zone. apply processOneZone_agree.
Qed.

Lemma processBlock_agree block :
  agree (processBlock T Math_cos config originalSitePoly alignmentAngle
           block)
        (processBlock T Math_cos config originalSitePoly alignmentAngle
           block).
Proof.
  unfold processBlock.
  apply agree_bind; [apply agree_liftR |]. intro processedBlock0.
  apply agree_bind; [apply agree_setLotsGeneratedInBlock |]. intros _.
  apply agree_tryCatch; [| apply agree_pushSuperblock].
  apply agree_bind; [apply agree_liftR |]. intro bottomZone.
  apply agree_bind; [apply agree_liftR |]. intro topZone.
  apply agree_bind.
  { destruct bottomZone; [apply processZone_agree | apply agree_ret]. }
  intros _.
  apply agree_bind.
  { destruct topZone; [apply processZone_agree | apply agree_ret]. }
  intros _.
  apply agree_bind; [apply agree_gets; det_step |]. intro n.
  destruct (0 <? n)%nat; [apply agree_pushSuperblock |].
  match goal with
  | |- agree (if ?c then _ else _) _ => destruct c
  end; [| apply agree_ret].
  apply agree_bind; [apply agree_gets; det_step |]. intro parkIndex.
  apply agree_bind; [apply agree_pushPark |]. intros _.
  apply agree_bind; [apply agree_pushSuperblock |]. intros _.
  apply fillParkWithTrees_agree.
Qed.

Lemma addPark_agree p : agree (addPark T p) (addPark T p).
Proof.
  unfold addPark.
  apply agree_bind; [apply agree_gets; det_step |]. intro parkIndex.
  apply agree_bind; [apply agree_pushPark |]. intros _.
  apply agree_bind; [apply agree_pushSuperblock |]. intros _.
  apply fillParkWithTrees_agree.
Qed.

Lemma mergeParks_agree parkBlocks :
  agree (mergeParks T originalSitePoly alignmentAngle parkBlocks)
        (mergeParks T originalSitePoly alignmentAngle parkBlocks).
Proof.
  unfold mergeParks.
  destruct (0 <? length parkBlocks)%nat; [| apply agree_ret].
  apply agree_tryCatch.
  - apply agree_bind; [apply agree_liftR |]. intro mergedParks.
    apply agree_forEach. intro feature. apply addPark_agree.
  - apply agree_forEach. intro b. apply addPark_agree.
Qed.

Lemma layoutPass_agree grid :
  agree (layoutPass T Math_cos config originalSitePoly alignmentAngle grid)
        (layoutPass T Math_cos config originalSitePoly alignmentAngle
           grid).
Proof.
  unfold layoutPass.
  apply agree_bind.
  - apply agree_forEach. intro block. apply processBlock_agree.
  - intros _. apply mergeParks_agree.
Qed.

End Determinism.

Section DeterministicRun.

Variable T : Turf.
Variable Math_cos : num -> num.

Local Open Scope float_scope.

Lemma finish_forgets config originalSitePoly alignmentAngle fuel siteArea0
    crossings s1 s2 :
  det s1 = det s2 ->
  deterministicPart
    (finish T Math_cos config originalSitePoly alignmentAngle fuel
       siteArea0 crossings s1)
  = deterministicPart
      (finish T Math_cos config originalSitePoly alignmentAngle fuel
         siteArea0 crossings s2).
Proof.
  intro H. apply det_fields in H.
  destruct H as (Hlots & Hparks & Hblocks & _ & _).
  unfold finish. rewrite Hlots, Hparks, Hblocks.
  destruct (roadMarkingsOf T Math_cos config originalSitePoly
              alignmentAngle (tempParks s2) crossings fuel)
    as [markings| |]; try reflexivity.
  simpl.
  destruct (turf_polygonToLine T originalSitePoly) as [br|];
    try reflexivity.
  simpl.
  destruct (accessStage T Math_cos config originalSitePoly alignmentAngle
              (firstLine br)
              (rotateBackPolys T originalSitePoly alignmentAngle
                 (tempSuperblocks s2))
              (rotateBackPolys T originalSitePoly alignmentAngle
                 (tempParks s2)))
    as [[ac cands]| |]; try reflexivity.
  simpl.
  destruct (perimeterStage T config ac (firstLine br)) as [walls| |];
    reflexivity.
Qed.

Lemma pipeline_forgets config constraints originalSitePoly alignmentAngle
    fuel siteArea0 rnd1 rnd2 :
  deterministicPart
    (pipeline T Math_cos config constraints originalSitePoly
       alignmentAngle fuel siteArea0 rnd1)
  = deterministicPart
      (pipeline T Math_cos config constraints originalSitePoly
         alignmentAngle fuel siteArea0 rnd2).
Proof.
  unfold pipeline.
  destruct (buildGrid T Math_cos config originalSitePoly alignmentAngle)
    as [grid| |]; try reflexivity.
  simpl.
  pose proof (@layoutPass_agree T Math_cos config originalSitePoly
                alignmentAngle
                (classify T config constraints originalSitePoly
                   alignmentAngle (gridInfo grid))
                (emptyLayout rnd1) (emptyLayout rnd2) eq_refl)
    as [Hres Hdet].
  destruct (layoutPass T Math_cos config originalSitePoly alignmentAngle
              _ (emptyLayout rnd1)) as [r1 s1].
  destruct (layoutPass T Math_cos config originalSitePoly alignmentAngle
              _ (emptyLayout rnd2)) as [r2 s2].
  simpl in Hres, Hdet. subst r2.
  destruct r1 as [u| |]; try reflexivity.
  apply finish_forgets. exact Hdet.
Qed.

(** Apart from the buildings and the trees, the result does not depend on
    the random source. *)
Lemma generateBuilding_forgets fuel rnd1 rnd2 points config constraints :
  deterministicPart
    (generateBuilding T Math_cos fuel rnd1 points config constraints)
  = deterministicPart
      (generateBuilding T Math_cos fuel rnd2 points config constraints).
Proof.
  unfold generateBuilding.
  destruct (length points <? 3)%nat; [reflexivity |].
  destruct (sitePolygon T points) as [p| |]; try reflexivity.
  simpl.
  destruct (noCoordinates p); [reflexivity |].
  destruct (turf_kinks T (turf_rewind T p)) as [kinks|]; try reflexivity.
  simpl.
  destruct (0 <? length kinks)%nat; [reflexivity |].
  destruct (turf_area T (turf_rewind T p) <? 100); [reflexivity |].
  destruct (getPrincipalAxis T (turf_rewind T p)) as [angle| |];
    try reflexivity.
  simpl.
  pose proof (pipeline_forgets config constraints (turf_rewind T p) angle
                fuel (turf_area T (turf_rewind T p)) rnd1 rnd2) as H.
  destruct (pipeline T Math_cos config constraints (turf_rewind T p) angle
              fuel (turf_area T (turf_rewind T p)) rnd1) as [gs1| |];
    destruct (pipeline T Math_cos config constraints (turf_rewind T p)
                angle fuel (turf_area T (turf_rewind T p)) rnd2)
      as [gs2| |];
    simpl in *; congruence.
Qed.

(** C9. For fixed boundary points, configuration and constraints, two
    calls of [generateBuilding] end the same way and, when they return,
    return the same [totalLots], [siteArea] and [parkArea], whatever the
    two calls draw from the random source. *)
Theorem deterministic_statistics
    fuel rnd1 rnd2 points config constraints :
  deterministicStats
    (generateBuilding T Math_cos fuel rnd1 points config constraints)
  = deterministicStats
      (generateBuilding T Math_cos fuel rnd2 points config constraints).
Proof.
  pose proof (generateBuilding_forgets fuel rnd1 rnd2 points config
                constraints) as H.
  unfold deterministicPart, deterministicStats in *.
  destruct (generateBuilding T Math_cos fuel rnd1 points config constraints)
    as [[g1 st1]| |];
    destruct (generateBuilding T Math_cos fuel rnd2 points config
                constraints) as [[g2 st2]| |];
    simpl in *; try congruence.
  inversion H. reflexivity.
Qed.

End DeterministicRun.


(** On the rectangle, two random sources give buildings of different
    heights and the same lot count, site area and park area. *)
Lemma rectangle_runs_differ_in_heights_only :
  deterministicStats
    (generateBuilding Flat.turf Flat.cos 100 Sample.low Sample.rectangle
       Sample.config [])
  = Val (101%nat, 30000%float, 3991.5622400475604%float) /\
  deterministicStats
    (generateBuilding Flat.turf Flat.cos 100 Sample.mixed Sample.rectangle
       Sample.config [])
  = Val (101%nat, 30000%float, 3991.5622400475604%float) /\
  bindR (generateBuilding Flat.turf Flat.cos 100 Sample.low
           Sample.rectangle Sample.config [])
        (fun gs =>
           Val (map (fun b => heightFactor (properties b))
                  (firstn 1 (buildings (fst gs)))))
  = Val [Some 0.95000000000000007%float] /\
  bindR (generateBuilding Flat.turf Flat.cos 100 Sample.mixed
           Sample.rectangle Sample.config [])
        (fun gs =>
           Val (map (fun b => heightFactor (properties b))
                  (firstn 1 (buildings (fst gs)))))
  = Val [Some 0.92500000000000004%float].
Proof.
  split; [vm_compute; reflexivity |].
  split; [vm_compute; reflexivity |].
  split; vm_compute; reflexivity.
Qed.


(** * Further properties of the generator *)

(** ** What the entry point returns *)

Section Results.

Variable T : Turf.
Variable Math_cos : num -> num.

Local Open Scope float_scope.


(** The four invalid results, by their error message: none for too few
    points, and only the self-intersection result keeps the boundary. *)
Lemma invalid_result_shapes fuel rnd points config constraints g st :
  generateBuilding T Math_cos fuel rnd points config constraints
    = Val (g, st) ->
  isValid g = false ->
  g = emptyGeometry \/
  g = invalidGeometry None "Invalid Geometry" \/
  g = invalidGeometry None "Calculation Failed" \/
  exists p,
    sitePolygon T points = Val p /\
    g = invalidGeometry (Some (turf_rewind T p)) selfIntersectionError.
Proof.
  unfold generateBuilding. intros H Hinvalid.
  destruct (length points <? 3)%nat.
  { inversion H. left. reflexivity. }
  apply catchR_Val in H. destruct H as [H | [_ H]].
  2: { inversion H. right. right. left. reflexivity. }
  apply bindR_Val in H. destruct H as [p [Hsite H]].
  destruct (noCoordinates p).
  { inversion H. right. left. reflexivity. }
  apply bindR_Val in H. destruct H as [kinks [_ H]].
  destruct (0 <? length kinks)%nat.
  { inversion H. right. right. right. exists p. split; [exact Hsite |].
    reflexivity. }
  destruct (turf_area T (turf_rewind T p) <? 100); [discriminate |].
  apply bindR_Val in H. destruct H as [angle [_ H]].
  apply pipeline_valid in H. rewrite H in Hinvalid. discriminate.
Qed.

(** An invalid result carries no geometry: every array is empty and there
    is no access control. Its error message, if any, is one of the three
    the source writes, and it keeps the site boundary only with the
    self-intersection message. *)
Theorem invalid_result_is_empty fuel rnd points config constraints g st :
  generateBuilding T Math_cos fuel rnd points config constraints
    = Val (g, st) ->
  isValid g = false ->
  superblocks g = [] /\ roads g = [] /\ lots g = [] /\ buildings g = [] /\
  parks g = [] /\ trees g = [] /\ perimeterWalls g = [] /\
  accessControl g = None /\ roadMarkings g = [] /\ stopSigns g = [] /\
  entranceCandidates g = [] /\
  (error g = None \/ error g = Some "Invalid Geometry"%string \/
   error g = Some "Calculation Failed"%string \/
   error g = Some selfIntersectionError) /\
  (siteBoundary g <> None -> error g = Some selfIntersectionError).
Proof.
  intros Hrun Hinvalid.
  destruct (invalid_result_shapes _ _ _ _ _ Hrun Hinvalid)
    as [Hg | [Hg | [Hg | [p [_ Hg]]]]]; subst g; simpl;
    repeat split; auto; intro H; try contradiction; reflexivity.
Qed.

Lemma finish_statistics config originalSitePoly alignmentAngle fuel
    siteArea0 crossings s g st :
  finish T Math_cos config originalSitePoly alignmentAngle fuel siteArea0
    crossings s = Val (g, st) ->
  error g = None /\ roads g = [] /\ stopSigns g = [] /\
  roadArea st = siteArea st - netSellableArea st - parkArea st /\
  efficiency st = netSellableArea st / siteArea st /\
  possibleEntrances st = length (entranceCandidates g).
Proof.
  unfold finish. intro H.
  apply bindR_Val in H. destruct H as [markings [_ H]].
  apply bindR_Val in H. destruct H as [boundaryResult [_ H]].
  apply bindR_Val in H. destruct H as [[ac cands] [_ H]].
  apply bindR_Val in H. destruct H as [walls [_ H]].
  inversion H; subst; clear H. simpl.
  rewrite length_map. repeat split.
Qed.

(** The statistics of a valid result are those of its geometry: the lot
    count is the number of lots, the sellable and park areas are the sums
    of the areas of the returned lots and parks, the road area is what is
    left of the site area, the efficiency is sellable over site area, the
    entrance count is the number of returned candidates, and the site area
    is the area of the returned boundary and is not below 100. *)
Theorem valid_result_statistics fuel rnd points config constraints g st :
  generateBuilding T Math_cos fuel rnd points config constraints
    = Val (g, st) ->
  isValid g = true ->
  totalLots st = length (lots g) /\
  possibleEntrances st = length (entranceCandidates g) /\
  netSellableArea st = sumOf (turf_area T) (lots g) /\
  parkArea st = sumOf (turf_area T) (parks g) /\
  roadArea st = siteArea st - netSellableArea st - parkArea st /\
  efficiency st = netSellableArea st / siteArea st /\
  (siteArea st <? 100) = false /\
  error g = None /\
  exists site, siteBoundary g = Some site /\ siteArea st = turf_area T site.
Proof.
  unfold generateBuilding. intros H Hvalid.
  destruct (length points <? 3)%nat.
  { inversion H; subst. discriminate Hvalid. }
  apply catchR_Val in H. destruct H as [H | [_ H]].
  2: { inversion H; subst. discriminate Hvalid. }
  apply bindR_Val in H. destruct H as [p [Hsite H]].
  destruct (noCoordinates p).
  { inversion H; subst. discriminate Hvalid. }
  apply bindR_Val in H. destruct H as [kinks [_ H]].
  destruct (0 <? length kinks)%nat.
  { inversion H; subst. discriminate Hvalid. }
  destruct (turf_area T (turf_rewind T p) <? 100) eqn:Harea;
    [discriminate |].
  apply bindR_Val in H. destruct H as [angle [_ H]].
  apply pipeline_inv in H. destruct H as [crossings [s Hfin]].
  pose proof Hfin as Hstats. apply finish_statistics in Hstats.
  destruct Hstats as (Herr & _ & _ & Hroad & Heff & Hent).
  apply finish_inv in Hfin.
  destruct Hfin
    as (br & ac & cands & _ & _ & _ & Hb & _ & _ & _ & _ & Hsa & Htl & Hns
        & Hpa & _).
  repeat split; try assumption.
  - rewrite Hsa. exact Harea.
  - exists (turf_rewind T p). split; [exact Hb | exact Hsa].
Qed.

(** A run returns a result with entrance candidates only when
    [entryIndex % count] is not negative: a negative remainder indexes
    outside the candidate array, which throws and ends the run as
    "Calculation Failed". *)
Theorem candidates_need_index_in_range
    fuel rnd points config constraints g st :
  generateBuilding T Math_cos fuel rnd points config constraints
    = Val (g, st) ->
  entranceCandidates g <> [] ->
  (0 <= Z.rem (entryIndex config)
          (Z.of_nat (length (entranceCandidates g))))%Z.
Proof.
  intros Hrun Hne.
  assert (Hvalid : isValid g = true).
  { pose proof Hrun as Hcases. apply generateBuilding_cases in Hcases.
    destruct Hcases as [[_ [Hg | [b [msg Hg]]]] | Hv]; [| | exact Hv];
      subst g; simpl in Hne; contradiction. }
  apply generateBuilding_valid_inv in Hrun; [| exact Hvalid].
  destruct Hrun as [p [angle [_ Hpipe]]].
  apply pipeline_inv in Hpipe. destruct Hpipe as [crossings [s Hfin]].
  apply finish_inv in Hfin.
  destruct Hfin as (br & ac & cands & _ & Hacc & _ & _ & _ & Hcands & _).
  rewrite Hcands in *. rewrite length_map.
  apply accessStage_gate in Hacc.
  destruct Hacc as [Hnil | Hgate]; [subst cands; contradiction |].
  unfold selectGate in Hgate.
  destruct (0 <? length cands)%nat eqn:Hlen.
  2: { apply Nat.ltb_ge in Hlen. destruct cands; [contradiction |].
       simpl in Hlen. lia. }
  unfold arrayGet in Hgate.
  destruct (Z.rem (entryIndex config) (Z.of_nat (length cands)) <? 0)%Z
    eqn:Hneg; [discriminate |].
  apply Z.ltb_ge in Hneg. exact Hneg.
Qed.

End Results.

Lemma invalid_result_is_empty_witness :
  exists g st,
    generateBuilding Flat.turf Flat.cos 100 Sample.low Sample.bowtie
      Sample.config [] = Val (g, st) /\
    isValid g = false /\
    superblocks g = [] /\ roads g = [] /\ lots g = [] /\ buildings g = [] /\
    parks g = [] /\ trees g = [] /\ perimeterWalls g = [] /\
    accessControl g = None /\ roadMarkings g = [] /\ stopSigns g = [] /\
    entranceCandidates g = [] /\
    (error g = None \/ error g = Some "Invalid Geometry"%string \/
     error g = Some "Calculation Failed"%string \/
     error g = Some selfIntersectionError) /\
    (siteBoundary g <> None -> error g = Some selfIntersectionError).
Proof.
  assert (H : exists g st,
             generateBuilding Flat.turf Flat.cos 100 Sample.low
               Sample.bowtie Sample.config [] = Val (g, st) /\
             isValid g = false).
  { eexists. eexists. split; [vm_compute; reflexivity | reflexivity]. }
  destruct H as [g [st [Hrun Hinvalid]]].
  exists g, st. split; [exact Hrun |]. split; [exact Hinvalid |].
  exact (invalid_result_is_empty Flat.turf Flat.cos 100 Sample.low
           Sample.bowtie Sample.config [] Hrun Hinvalid).
Defined.

Lemma valid_result_statistics_witness :
  exists g st,
    generateBuilding Flat.turf Flat.cos 100 Sample.low Sample.rectangle
      Sample.config [] = Val (g, st) /\
    isValid g = true /\
    totalLots st = length (lots g) /\
    possibleEntrances st = length (entranceCandidates g) /\
    netSellableArea st = sumOf (turf_area Flat.turf) (lots g) /\
    parkArea st = sumOf (turf_area Flat.turf) (parks g) /\
    roadArea st = (siteArea st - netSellableArea st - parkArea st)%float /\
    efficiency st = (netSellableArea st / siteArea st)%float /\
    (siteArea st <? 100)%float = false /\
    error g = None /\
    exists site,
      siteBoundary g = Some site /\ siteArea st = turf_area Flat.turf site.
Proof.
  assert (H : exists g st,
             generateBuilding Flat.turf Flat.cos 100 Sample.low
               Sample.rectangle Sample.config [] = Val (g, st) /\
             isValid g = true).
  { eexists. eexists. split; [vm_compute; reflexivity | reflexivity]. }
  destruct H as [g [st [Hrun Hvalid]]].
  exists g, st. split; [exact Hrun |]. split; [exact Hvalid |].
  exact (valid_result_statistics Flat.turf Flat.cos 100 Sample.low
           Sample.rectangle Sample.config [] Hrun Hvalid).
Defined.

Lemma candidates_need_index_in_range_witness :
  exists g st,
    generateBuilding Flat.turf Flat.cos 100 Sample.low Sample.rectangle
      (Sample.withEntryIndex 25) [] = Val (g, st) /\
    entranceCandidates g <> [] /\
    (0 <= Z.rem (entryIndex (Sample.withEntryIndex 25))
            (Z.of_nat (length (entranceCandidates g))))%Z.
Proof.
  assert (H : exists g st,
             generateBuilding Flat.turf Flat.cos 100 Sample.low
               Sample.rectangle (Sample.withEntryIndex 25) []
               = Val (g, st) /\
             entranceCandidates g <> []).
  { eexists. eexists. split; [vm_compute; reflexivity | discriminate]. }
  destruct H as [g [st [Hrun Hne]]].
  exists g, st. split; [exact Hrun |]. split; [exact Hne |].
  exact (candidates_need_index_in_range Flat.turf Flat.cos 100 Sample.low
           Sample.rectangle (Sample.withEntryIndex 25) [] Hrun Hne).
Defined.

(** On the rectangle, an [entryIndex] of -1 ends the run as "Calculation
    Failed", and an [entryIndex] of 25 puts the gate at candidate
    25 mod 11 = 3. *)
Lemma rectangle_entry_indices :
  generateBuilding Flat.turf Flat.cos 100 Sample.low Sample.rectangle
    (Sample.withEntryIndex (-1)) []
  = Val (invalidGeometry None "Calculation Failed", emptyStats) /\
  bindR (generateBuilding Flat.turf Flat.cos 100 Sample.low
           Sample.rectangle (Sample.withEntryIndex 25) [])
        (fun gs =>
           Val (length (entranceCandidates (fst gs)),
                option_map entryPoint (accessControl (fst gs)),
                nth_error (entranceCandidates (fst gs)) 3))
  = Val (11%nat,
         Some {| lat := 0.0013474667624865239%float;
                 lng := 0.00019762845849802355%float |},
         Some {| lat := 0.0013474667624865239%float;
                 lng := 0.00019762845849802355%float |}).
Proof.
  split; vm_compute; reflexivity.
Qed.

Lemma gate_at_returned_candidate_witness :
  exists g st,
    generateBuilding Flat.turf Flat.cos 100 Sample.low Sample.rectangle
      (Sample.withEntryIndex 25) [] = Val (g, st) /\
    entranceCandidates g <> [] /\
    (0 <= entryIndex (Sample.withEntryIndex 25))%Z /\
    exists ac,
      accessControl g = Some ac /\
      nth_error (entranceCandidates g)
        (Z.to_nat
           (entryIndex (Sample.withEntryIndex 25)
            mod Z.of_nat (length (entranceCandidates g))))
        = Some (entryPoint ac).
Proof.
  assert (H : exists g st,
             generateBuilding Flat.turf Flat.cos 100 Sample.low
               Sample.rectangle (Sample.withEntryIndex 25) []
               = Val (g, st) /\
             entranceCandidates g <> []).
  { eexists. eexists. split; [vm_compute; reflexivity | discriminate]. }
  destruct H as [g [st [Hrun Hne]]].
  assert (Hidx : (0 <= entryIndex (Sample.withEntryIndex 25))%Z)
    by (simpl; lia).
  exists g, st. split; [exact Hrun |]. split; [exact Hne |].
  split; [exact Hidx |].
  exact (gate_at_returned_candidate Flat.turf Flat.cos 100 Sample.low
           Sample.rectangle (Sample.withEntryIndex 25) [] Hrun Hne Hidx).
Defined.

(** ** The random source *)

Section RandomSource.

Variable T : Turf.
Variable Math_cos : num -> num.

(** If a call returns with one random source, it returns with any other,
    with the same statistics and the same geometry apart from the buildings
    and the trees: boundary, superblocks, roads, lots, parks, perimeter
    walls, access control, road markings, stop signs, entrance candidates,
    validity and error are the same. *)
Theorem random_reaches_only_buildings_and_trees
    fuel rnd1 rnd2 points config constraints g1 st :
  generateBuilding T Math_cos fuel rnd1 points config constraints
    = Val (g1, st) ->
  exists g2,
    generateBuilding T Math_cos fuel rnd2 points config constraints
      = Val (g2, st) /\
    siteBoundary g2 = siteBoundary g1 /\
    superblocks g2 = superblocks g1 /\
    roads g2 = roads g1 /\
    lots g2 = lots g1 /\
    parks g2 = parks g1 /\
    perimeterWalls g2 = perimeterWalls g1 /\
    accessControl g2 = accessControl g1 /\
    roadMarkings g2 = roadMarkings g1 /\
    stopSigns g2 = stopSigns g1 /\
    entranceCandidates g2 = entranceCandidates g1 /\
    isValid g2 = isValid g1 /\
    error g2 = error g1.
Proof.
  intro Hrun.
  pose proof (generateBuilding_forgets T Math_cos fuel rnd1 rnd2 points
                config constraints) as H.
  rewrite Hrun in H. unfold deterministicPart in H. simpl in H.
  destruct (generateBuilding T Math_cos fuel rnd2 points config constraints)
    as [[g2 st2]| |]; simpl in H; try discriminate.
  apply (f_equal (fun r => match r with
                           | Val gs => gs
                           | _ => forgetRandom (g1, st)
                           end)) in H.
  pose proof (f_equal snd H) as Hst. simpl in Hst. subst st2.
  exists g2. split; [reflexivity |].
  pose proof (f_equal (fun gs => siteBoundary (fst gs)) H) as H1.
  pose proof (f_equal (fun gs => superblocks (fst gs)) H) as H2.
  pose proof (f_equal (fun gs => roads (fst gs)) H) as H3.
  pose proof (f_equal (fun gs => lots (fst gs)) H) as H4.
  pose proof (f_equal (fun gs => parks (fst gs)) H) as H5.
  pose proof (f_equal (fun gs => perimeterWalls (fst gs)) H) as H6.
  pose proof (f_equal (fun gs => accessControl (fst gs)) H) as H7.
  pose proof (f_equal (fun gs => roadMarkings (fst gs)) H) as H8.
  pose proof (f_equal (fun gs => stopSigns (fst gs)) H) as H9.
  pose proof (f_equal (fun gs => entranceCandidates (fst gs)) H) as H10.
  pose proof (f_equal (fun gs => isValid (fst gs)) H) as H11.
  pose proof (f_equal (fun gs => error (fst gs)) H) as H12.
  simpl in *.
  repeat split; symmetry; assumption.
Qed.

End RandomSource.

Lemma random_reaches_only_buildings_and_trees_witness :
  exists g1 st g2,
    generateBuilding Flat.turf Flat.cos 100 Sample.low Sample.paddock
      Sample.config [] = Val (g1, st) /\
    generateBuilding Flat.turf Flat.cos 100 Sample.mixed Sample.paddock
      Sample.config [] = Val (g2, st) /\
    siteBoundary g2 = siteBoundary g1 /\
    superblocks g2 = superblocks g1 /\
    roads g2 = roads g1 /\
    lots g2 = lots g1 /\
    parks g2 = parks g1 /\
    perimeterWalls g2 = perimeterWalls g1 /\
    accessControl g2 = accessControl g1 /\
    roadMarkings g2 = roadMarkings g1 /\
    stopSigns g2 = stopSigns g1 /\
    entranceCandidates g2 = entranceCandidates g1 /\
    isValid g2 = isValid g1 /\
    error g2 = error g1.
Proof.
  assert (H : exists g1 st,
             generateBuilding Flat.turf Flat.cos 100 Sample.low
               Sample.paddock Sample.config [] = Val (g1, st)).
  { eexists. eexists. vm_compute. reflexivity. }
  destruct H as [g1 [st Hrun]].
  destruct (random_reaches_only_buildings_and_trees Flat.turf Flat.cos 100
              Sample.low Sample.mixed Sample.paddock Sample.config [] Hrun)
    as [g2 Hg2].
  exists g1, st, g2. split; [exact Hrun | exact Hg2].
Defined.

(** ** Sliver repair: the loop ends at a fixed point *)

Section SliverRepairEnds.

Variable area : PolyF -> num.
Variable union : PolyF -> PolyF -> Try (option PolyF).
Variable targetLotArea : num.

Lemma mergeStep_done mergedLots merged :
  mergeStep area union targetLotArea mergedLots = (merged, false) ->
  merged = mergedLots.
Proof.
  unfold mergeStep.
  destruct (worstOf area targetLotArea mergedLots) as [worstIdx|].
  2: { intro H; inversion H; reflexivity. }
  destruct (targetOf area mergedLots worstIdx) as [targetIdx|].
  - destruct (nth_error mergedLots (Nat.min worstIdx targetIdx)) as [a|].
    2: { intro H; inversion H; reflexivity. }
    destruct (nth_error mergedLots (Nat.max worstIdx targetIdx)) as [b|].
    2: { intro H; inversion H; reflexivity. }
    destruct (union a b) as [[u|]|]; intro H; inversion H; reflexivity.
  - destruct (nth_error mergedLots worstIdx) as [w|].
    2: { intro H; inversion H; reflexivity. }
    destruct (area w <? targetLotArea * 0.4)%float;
      intro H; inversion H; reflexivity.
Qed.

Lemma mergeLoop_stable fuel :
  forall mergedLots merged,
    mergeLoop area union targetLotArea fuel mergedLots = Val merged ->
    (length merged <= length mergedLots)%nat /\
    (merged = [] \/
     mergeStep area union targetLotArea merged = (merged, false)).
Proof.
  induction fuel as [| fuel IH]; intros mergedLots merged H.
  - destruct mergedLots as [| l rest]; simpl in H.
    + inversion H. split; [apply Nat.le_refl | left; reflexivity].
    + destruct (mergeStep area union targetLotArea (l :: rest))
        as [m keep] eqn:Hstep.
      destruct keep; [discriminate |].
      inversion H; subst m.
      pose proof (mergeStep_done _ Hstep) as Hsame. subst merged.
      split; [apply Nat.le_refl | right; exact Hstep].
  - destruct mergedLots as [| l rest]; cbn [mergeLoop] in H.
    + inversion H. split; [apply Nat.le_refl | left; reflexivity].
    + destruct (mergeStep area union targetLotArea (l :: rest))
        as [m keep] eqn:Hstep.
      destruct keep.
      * apply IH in H. destruct H as [Hlen Hfix].
        apply mergeStep_shrinks in Hstep.
        split; [lia | exact Hfix].
      * inversion H; subst m.
        pose proof (mergeStep_done _ Hstep) as Hsame. subst merged.
        split; [apply Nat.le_refl | right; exact Hstep].
Qed.

(** The sliver repair always ends, never with more lots than it was given,
    and at a fixed point: either no lot is left, or one more pass finds
    nothing to merge or to discard. *)
Theorem mergeLots_reaches_fixed_point candidateLots :
  exists merged,
    mergeLots area union targetLotArea candidateLots = Val merged /\
    (length merged <= length candidateLots)%nat /\
    (merged = [] \/
     mergeStep area union targetLotArea merged = (merged, false)).
Proof.
  destruct (mergeLots_returns area union targetLotArea candidateLots)
    as [merged Hrun].
  exists merged. split; [exact Hrun |].
  unfold mergeLots in Hrun. apply mergeLoop_stable in Hrun. exact Hrun.
Qed.

End SliverRepairEnds.

(** ** Numbering and ownership *)

Lemma keeps_ret {A} (P : Layout -> Prop) (a : A) : keeps P (ret a).
Proof. intros s H. exact H. Qed.

Lemma keeps_liftR {A} (P : Layout -> Prop) (r : Res A) : keeps P (liftR r).
Proof. intros s H. exact H. Qed.

Lemma keeps_bind {A B} (P : Layout -> Prop) (c : M A) (k : A -> M B) :
  keeps P c -> (forall a, keeps P (k a)) -> keeps P (bind c k).
Proof.
  intros Hc Hk s H. unfold bind.
  pose proof (Hc s H) as Hs.
  destruct (c s) as [[a| |] s']; simpl in *; try exact Hs.
  apply Hk. exact Hs.
Qed.

Lemma keeps_tryCatch {A} (P : Layout -> Prop) (body handler : M A) :
  keeps P body -> keeps P handler -> keeps P (tryCatch body handler).
Proof.
  intros Hb Hh s H. unfold tryCatch.
  pose proof (Hb s H) as Hs.
  destruct (body s) as [[a| |] s']; simpl in *; try exact Hs.
  apply Hh. exact Hs.
Qed.

Lemma keeps_forEach {A} (P : Layout -> Prop) (arr : list A)
    (body : A -> M unit) :
  (forall x, keeps P (body x)) -> keeps P (forEach arr body).
Proof.
  intro Hbody. induction arr as [| x arr IH]; simpl.
  - apply keeps_ret.
  - apply keeps_bind; [apply Hbody | intros _; exact IH].
Qed.

Lemma keeps_gets {A} (P : Layout -> Prop) (f : Layout -> A) :
  keeps P (gets f).
Proof. intros s H. exact H. Qed.

Lemma numbered_snoc (ids : list (option nat)) :
  numbered ids -> numbered (ids ++ [Some (length ids)]).
Proof.
  unfold numbered. intro H.
  rewrite length_app. simpl. rewrite Nat.add_1_r, seq_S, map_app. simpl.
  rewrite <- H. reflexivity.
Qed.

Lemma increasingBelow_weaken ids : forall lo n m,
  (n <= m)%nat ->
  increasingBelow lo n ids = true -> increasingBelow lo m ids = true.
Proof.
  induction ids as [| [i|] rest IH]; intros lo n m Hnm H; simpl in *;
    try assumption.
  apply andb_true_iff in H. destruct H as [H Hrest].
  apply andb_true_iff in H. destruct H as [Hlo Hn].
  apply Nat.ltb_lt in Hn.
  rewrite Hlo, (IH _ _ _ Hnm Hrest).
  assert (Hm : (i <? m)%nat = true) by (apply Nat.ltb_lt; lia).
  rewrite Hm. reflexivity.
Qed.

Lemma increasingBelow_snoc ids : forall lo n,
  (lo <= n)%nat ->
  increasingBelow lo n ids = true ->
  increasingBelow lo (S n) (ids ++ [Some n]) = true.
Proof.
  induction ids as [| [i|] rest IH]; intros lo n Hlo H; simpl in *.
  - assert (H1 : (lo <=? n)%nat = true) by (apply Nat.leb_le; exact Hlo).
    assert (H2 : (n <? S n)%nat = true) by (apply Nat.ltb_lt; lia).
    rewrite H1, H2. reflexivity.
  - apply andb_true_iff in H. destruct H as [H Hrest].
    apply andb_true_iff in H. destruct H as [Hlo' Hn].
    apply Nat.ltb_lt in Hn.
    rewrite Hlo'.
    assert (Hm : (i <? S n)%nat = true) by (apply Nat.ltb_lt; lia).
    rewrite Hm. simpl. apply IH; [lia | exact Hrest].
  - discriminate H.
Qed.

Lemma treeOwned_weaken nLots nParks mLots mParks (t : PointF) :
  (nLots <= mLots)%nat -> (nParks <= mParks)%nat ->
  treeOwned nLots nParks t = true -> treeOwned mLots mParks t = true.
Proof.
  unfold treeOwned. intros HL HP.
  destruct (lotId (pt_properties t)) as [i|],
           (parkId (pt_properties t)) as [j|];
    try discriminate; intro H; apply Nat.ltb_lt in H; apply Nat.ltb_lt; lia.
Qed.

Lemma treesOwned_weaken nLots nParks mLots mParks (ts : list PointF) :
  (nLots <= mLots)%nat -> (nParks <= mParks)%nat ->
  forallb (treeOwned nLots nParks) ts = true ->
  forallb (treeOwned mLots mParks) ts = true.
Proof.
  intros HL HP H. rewrite forallb_forall in *.
  intros t Ht. eapply treeOwned_weaken; eauto.
Qed.

Section Numbering.

Variable T : Turf.
Variable Math_cos : num -> num.
Variable config : SiteConfig.
Variable originalSitePoly : PolyF.
Variable alignmentAngle : num.

Local Open Scope float_scope.

(** What [placeTrees] adds are trees of the park. *)
Lemma placeTrees_keeps parkId0 actualTarget parkBbox searchPoly attempts :
  forall placedTrees s,
    wellNumbered s ->
    (parkId0 < length (tempParks s))%nat ->
    wellNumbered
      (snd (placeTrees T actualTarget parkBbox searchPoly parkId0 attempts
              placedTrees s)).
Proof.
  induction attempts as [| a rest IH]; intros placedTrees s Hs Hpark;
    simpl; [exact Hs |].
  destruct (Js.ofNat (length placedTrees) <? actualTarget); [| exact Hs].
  unfold bind at 1. unfold Math_random at 1. simpl.
  unfold bind at 1. unfold Math_random at 1. simpl.
  match goal with
  | |- context [if ?c then _ else _] => destruct c
  end.
  2: { apply IH; [exact Hs | exact Hpark]. }
  match goal with
  | |- context [if negb ?c then _ else _] => destruct c
  end; simpl.
  { apply IH; [exact Hs | exact Hpark]. }
  unfold bind at 1. unfold pushTree, modify. simpl.
  apply IH; simpl; [| exact Hpark].
  destruct Hs as (Hidx & Hlots & Hparks & Hbld & Htrees).
  unfold wellNumbered. simpl.
  repeat split; try assumption.
  rewrite forallb_app, Htrees. simpl.
  unfold treeOwned. simpl.
  apply Nat.ltb_lt in Hpark. rewrite Hpark. reflexivity.
Qed.

Lemma fillParkWithTrees_keeps parkPoly parkId0 s :
  wellNumbered s ->
  (parkId0 < length (tempParks s))%nat ->
  wellNumbered (snd (fillParkWithTrees T parkPoly parkId0 s)).
Proof.
  intros Hs Hpark. unfold fillParkWithTrees, bind, liftR.
  match goal with
  | |- context [forRange ?a ?b] => destruct (forRange a b) as [attempts| |]
  end; simpl; try exact Hs.
  apply placeTrees_keeps; assumption.
Qed.

(** A new park takes the next park id. *)
Lemma addPark_keeps p : keeps wellNumbered (addPark T p).
Proof.
  intros s Hs. unfold addPark.
  unfold bind at 1. unfold gets at 1. simpl.
  unfold bind at 1. unfold pushPark at 1, modify at 1. simpl.
  unfold bind at 1. unfold pushSuperblock at 1, modify at 1. simpl.
  apply fillParkWithTrees_keeps; simpl.
  - destruct Hs as (Hidx & Hlots & Hparks & Hbld & Htrees).
    unfold wellNumbered. simpl.
    repeat split; try assumption.
    + unfold parkIds in *. rewrite map_app. simpl.
      replace (length (tempParks s))
        with (length (map (fun f => parkId (properties f)) (tempParks s)))
        by apply length_map.
      apply numbered_snoc. exact Hparks.
    + rewrite length_app. simpl.
      eapply treesOwned_weaken; [| | exact Htrees]; lia.
  - rewrite length_app. simpl. lia.
Qed.

(** A new lot takes the next lot id, and so do its building and its
    tree. *)
Lemma lotAssets_keeps isBottom lotShape0 :
  keeps wellNumbered
    (lotAssets T Math_cos originalSitePoly alignmentAngle isBottom
       lotShape0).
Proof.
  intros s Hs. unfold lotAssets.
  destruct (turf_area T lotShape0 <? 20); [exact Hs |].
  destruct Hs as (Hidx & Hlots & Hparks & Hbld & Htrees).
  assert (Hlots' :
            numbered
              (lotIds
                 (tempLots s ++
                  [setProps lotShape0
                     (lotProps (properties lotShape0) (globalLotIndex s)
                        isBottom alignmentAngle)]))).
  { unfold lotIds in *. rewrite map_app. simpl. rewrite Hidx.
    replace (length (tempLots s))
      with (length (map (fun f => lotId (properties f)) (tempLots s)))
      by apply length_map.
    apply numbered_snoc. exact Hlots. }
  assert (Hbld' :
            forall b,
              lotId (properties b) = Some (globalLotIndex s) ->
              increasingBelow 0 (S (length (tempLots s)))
                (lotIds (tempBuildings s ++ [b])) = true).
  { intros b Hb. unfold lotIds in *. rewrite map_app. simpl.
    rewrite Hb, Hidx. apply increasingBelow_snoc; [lia | exact Hbld]. }
  assert (Hbld0 :
            increasingBelow 0 (S (length (tempLots s)))
              (lotIds (tempBuildings s)) = true).
  { eapply increasingBelow_weaken; [| exact Hbld]. lia. }
  assert (Htrees0 :
            forallb (treeOwned (S (length (tempLots s)))
                       (length (tempParks s))) (tempTrees s) = true).
  { eapply treesOwned_weaken; [| | exact Htrees]; lia. }
  assert (Htree1 :
            forall c,
              treeOwned (S (length (tempLots s))) (length (tempParks s))
                {| pt_coordinates := c;
                   pt_properties := treeProps noProps (globalLotIndex s) |}
              = true).
  { intro c. unfold treeOwned. simpl. rewrite Hidx.
    apply Nat.ltb_lt. lia. }
  unfold bind, gets, pushLot, pushBuilding, pushTree, setGlobalLotIndex,
    setLotsGeneratedInBlock, modify, Math_random, ret. simpl.
  repeat match goal with
         | |- context [if ?c then _ else _] => destruct c; simpl
         | |- context [match turf_intersect T ?a ?b with _ => _ end] =>
             destruct (turf_intersect T a b) as [[?|]|]; simpl
         end;
    unfold wellNumbered; simpl; rewrite ?length_app; simpl;
    rewrite ?Nat.add_1_r;
    repeat split;
    try assumption;
    try (rewrite Hidx; reflexivity);
    try (apply Hbld'; reflexivity);
    try (rewrite forallb_app, Htrees0; simpl; rewrite Htree1; reflexivity).
Qed.

Lemma keeps_pushSuperblock b : keeps wellNumbered (pushSuperblock b).
Proof. intros s Hs. exact Hs. Qed.

Lemma keeps_setLotsGeneratedInBlock n :
  keeps wellNumbered (setLotsGeneratedInBlock n).
Proof. intros s Hs. exact Hs. Qed.

Lemma processZone_keeps zonePoly isBottom :
  keeps wellNumbered
    (processZone T Math_cos config originalSitePoly alignmentAngle zonePoly
       isBottom).
Proof.
  unfold processZone.
  apply keeps_bind; [apply keeps_liftR |]. intro zones.
  apply keeps_forEach. intro zone. unfold processOneZone.
  match goal with
  | |- keeps _ (if ?c then _ else _) => destruct c
  end; [apply keeps_ret |].
  apply keeps_bind; [apply keeps_liftR |]. intro ks.
  match goal with
  | |- keeps _ (if ?c then _ else _) => destruct c
  end; [| apply keeps_ret].
  apply keeps_bind; [apply keeps_liftR |]. intro mergedLots.
  apply keeps_forEach. intro lot. apply lotAssets_keeps.
Qed.

Lemma processBlock_keeps block :
  keeps wellNumbered
    (processBlock T Math_cos config originalSitePoly alignmentAngle block).
Proof.
  unfold processBlock.
  apply keeps_bind; [apply keeps_liftR |]. intro processedBlock0.
  apply keeps_bind; [apply keeps_setLotsGeneratedInBlock |]. intros _.
  apply keeps_tryCatch; [| apply keeps_pushSuperblock].
  apply keeps_bind; [apply keeps_liftR |]. intro bottomZone.
  apply keeps_bind; [apply keeps_liftR |]. intro topZone.
  apply keeps_bind.
  { destruct bottomZone; [apply processZone_keeps | apply keeps_ret]. }
  intros _.
  apply keeps_bind.
  { destruct topZone; [apply processZone_keeps | apply keeps_ret]. }
  intros _.
  apply keeps_bind; [apply keeps_gets |]. intro n.
  destruct (0 <? n)%nat; [apply keeps_pushSuperblock |].
  match goal with
  | |- keeps _ (if ?c then _ else _) => destruct c
  end; [| apply keeps_ret].
  apply addPark_keeps.
Qed.

Lemma mergeParks_keeps parkBlocks :
  keeps wellNumbered
    (mergeParks T originalSitePoly alignmentAngle parkBlocks).
Proof.
  unfold mergeParks.
  destruct (0 <? length parkBlocks)%nat; [| apply keeps_ret].
  apply keeps_tryCatch.
  - apply keeps_bind; [apply keeps_liftR |]. intro mergedParks.
    apply keeps_forEach. intro feature. apply addPark_keeps.
  - apply keeps_forEach. intro b. apply addPark_keeps.
Qed.

(** The layout pass, from the empty state, ends in a well numbered
    state. *)
Lemma layoutPass_wellNumbered grid rnd :
  wellNumbered
    (snd (layoutPass T Math_cos config originalSitePoly alignmentAngle grid
            (emptyLayout rnd))).
Proof.
  assert (Hkeeps :
            keeps wellNumbered
              (layoutPass T Math_cos config originalSitePoly alignmentAngle
                 grid)).
  { unfold layoutPass. apply keeps_bind.
    - apply keeps_forEach. intro block. apply processBlock_keeps.
    - intros _. apply mergeParks_keeps. }
  apply Hkeeps. unfold wellNumbered, emptyLayout. simpl.
  repeat split; reflexivity.
Qed.

End Numbering.

Lemma numbered_nth (ids : list (option nat)) (i : nat) (x : option nat) :
  numbered ids -> nth_error ids i = Some x -> x = Some i.
Proof.
  unfold numbered. intros H Hnth.
  assert (Hlt : (i < length ids)%nat).
  { apply nth_error_Some. rewrite Hnth. discriminate. }
  rewrite H in Hnth. rewrite nth_error_map in Hnth.
  rewrite nth_error_nth' with (d := 0%nat) in Hnth
    by (rewrite length_seq; exact Hlt).
  rewrite seq_nth in Hnth by exact Hlt.
  simpl in Hnth. inversion Hnth. reflexivity.
Qed.

Lemma increasingBelow_length ids : forall lo n,
  increasingBelow lo n ids = true -> (length ids + lo <= Nat.max lo n)%nat.
Proof.
  induction ids as [| [i|] rest IH]; intros lo n H; simpl in *;
    [lia | | discriminate].
  apply andb_true_iff in H. destruct H as [H Hrest].
  apply andb_true_iff in H. destruct H as [Hlo Hn].
  apply Nat.leb_le in Hlo. apply Nat.ltb_lt in Hn.
  apply IH in Hrest. lia.
Qed.

Lemma invalid_result_has_no_assets T Math_cos fuel rnd points config
    constraints g st :
  generateBuilding T Math_cos fuel rnd points config constraints
    = Val (g, st) ->
  isValid g = false ->
  lots g = [] /\ parks g = [] /\ buildings g = [] /\ trees g = [] /\
  st = emptyStats.
Proof.
  intros Hrun Hinvalid.
  apply generateBuilding_cases in Hrun.
  destruct Hrun as [[Hst [Hg | [b [msg Hg]]]] | Hv].
  - subst. repeat split.
  - subst. repeat split.
  - rewrite Hv in Hinvalid. discriminate.
Qed.

Section OwnershipOfResults.

Variable T : Turf.
Variable Math_cos : num -> num.

Local Open Scope float_scope.

Lemma finish_assets config originalSitePoly alignmentAngle fuel siteArea0
    crossings s g st :
  finish T Math_cos config originalSitePoly alignmentAngle fuel siteArea0
    crossings s = Val (g, st) ->
  lots g = rotateBackPolys T originalSitePoly alignmentAngle (tempLots s) /\
  parks g = rotateBackPolys T originalSitePoly alignmentAngle (tempParks s)
  /\
  buildings g
    = rotateBackPolys T originalSitePoly alignmentAngle (tempBuildings s) /\
  trees g
    = rotateBackPoints T originalSitePoly alignmentAngle (tempTrees s) /\
  superblocks g
    = rotateBackPolys T originalSitePoly alignmentAngle (tempSuperblocks s)
  /\
  totalLots st = length (tempLots s).
Proof.
  unfold finish. intro H.
  apply bindR_Val in H. destruct H as [markings [_ H]].
  apply bindR_Val in H. destruct H as [boundaryResult [_ H]].
  apply bindR_Val in H. destruct H as [[ac cands] [_ H]].
  apply bindR_Val in H. destruct H as [walls [_ H]].
  inversion H; subst; clear H. simpl.
  unfold rotateBackPolys. rewrite length_map. repeat split.
Qed.

(** A valid result comes from a well numbered layout state. *)
Lemma valid_result_layout fuel rnd points config constraints g st :
  generateBuilding T Math_cos fuel rnd points config constraints
    = Val (g, st) ->
  isValid g = true ->
  exists originalSitePoly alignmentAngle s,
    wellNumbered s /\
    lots g = rotateBackPolys T originalSitePoly alignmentAngle (tempLots s)
    /\
    parks g
      = rotateBackPolys T originalSitePoly alignmentAngle (tempParks s) /\
    buildings g
      = rotateBackPolys T originalSitePoly alignmentAngle (tempBuildings s)
    /\
    trees g
      = rotateBackPoints T originalSitePoly alignmentAngle (tempTrees s) /\
    superblocks g
      = rotateBackPolys T originalSitePoly alignmentAngle
          (tempSuperblocks s) /\
    totalLots st = length (tempLots s).
Proof.
  intros Hrun Hvalid.
  apply generateBuilding_valid_inv in Hrun; [| exact Hvalid].
  destruct Hrun as [p [angle [_ Hpipe]]].
  unfold pipeline in Hpipe.
  apply bindR_Val in Hpipe. destruct Hpipe as [grid [_ H]].
  pose proof (layoutPass_wellNumbered T Math_cos config (turf_rewind T p)
                angle
                (classify T config constraints (turf_rewind T p) angle
                   (gridInfo grid)) rnd) as Hwell.
  match type of H with
  | match ?c with _ => _ end = _ => destruct c as [[u| |] s]
  end; try discriminate.
  simpl in Hwell.
  exists (turf_rewind T p), angle, s.
  split; [exact Hwell |]. apply finish_assets in H. exact H.
Qed.

Lemma lotIds_rotateBack originalSitePoly alignmentAngle fs :
  (forall f a c, properties (rotatePoly T f a c) = properties f) ->
  lotIds (rotateBackPolys T originalSitePoly alignmentAngle fs) = lotIds fs.
Proof.
  intro Hrot. unfold lotIds, rotateBackPolys. rewrite map_map.
  apply map_ext. intro f. rewrite Hrot. reflexivity.
Qed.

Lemma parkIds_rotateBack originalSitePoly alignmentAngle fs :
  (forall f a c, properties (rotatePoly T f a c) = properties f) ->
  parkIds (rotateBackPolys T originalSitePoly alignmentAngle fs)
  = parkIds fs.
Proof.
  intro Hrot. unfold parkIds, rotateBackPolys. rewrite map_map.
  apply map_ext. intro f. rewrite Hrot. reflexivity.
Qed.

(** With a rotation that keeps the properties of a feature, the lot at
    index [i] of a result has [lotId] [i] and the park at index [i] has
    [parkId] [i]: ids and array positions coincide, which is what the
    consumer relies on when it looks buildings and trees up by index. *)
Theorem lots_and_parks_numbered_by_index
    fuel rnd points config constraints g st :
  (forall f a c, properties (rotatePoly T f a c) = properties f) ->
  generateBuilding T Math_cos fuel rnd points config constraints
    = Val (g, st) ->
  (forall i l, nth_error (lots g) i = Some l ->
               lotId (properties l) = Some i) /\
  (forall i p, nth_error (parks g) i = Some p ->
               parkId (properties p) = Some i).
Proof.
  intros Hrot Hrun.
  destruct (isValid g) eqn:Hvalid.
  - destruct (valid_result_layout _ _ _ _ _ Hrun Hvalid)
      as (site & angle & s & Hwell & Hlots & Hparks & _).
    destruct Hwell as (_ & Hl & Hp & _ & _).
    split.
    + intros i l Hnth.
      apply (numbered_nth (ids := lotIds (lots g))).
      * rewrite Hlots, lotIds_rotateBack by exact Hrot. exact Hl.
      * unfold lotIds. rewrite nth_error_map, Hnth. reflexivity.
    + intros i p Hnth.
      apply (numbered_nth (ids := parkIds (parks g))).
      * rewrite Hparks, parkIds_rotateBack by exact Hrot. exact Hp.
      * unfold parkIds. rewrite nth_error_map, Hnth. reflexivity.
  - apply invalid_result_has_no_assets in Hrun; [| exact Hvalid].
    destruct Hrun as (Hl & Hp & _).
    rewrite Hl, Hp. split; intros i x Hnth; destruct i; discriminate Hnth.
Qed.

End OwnershipOfResults.

Section OwnershipOfAssets.

Variable T : Turf.
Variable Math_cos : num -> num.

(** With a rotation that keeps the properties of a feature, the buildings
    of a result belong to distinct lots of the result, in the order of the
    lots (so there is at most one building per lot), and every tree
    belongs either to one lot or to one park of the result, never to
    both and never to none. *)
Theorem buildings_and_trees_owned
    fuel rnd points config constraints g st :
  (forall f a c, properties (rotatePoly T f a c) = properties f) ->
  (forall p a c, pt_properties (rotatePoint T p a c) = pt_properties p) ->
  generateBuilding T Math_cos fuel rnd points config constraints
    = Val (g, st) ->
  increasingBelow 0 (length (lots g)) (lotIds (buildings g)) = true /\
  (length (buildings g) <= length (lots g))%nat /\
  forallb (treeOwned (length (lots g)) (length (parks g))) (trees g) = true.
Proof.
  intros Hpoly Hpoint Hrun.
  destruct (isValid g) eqn:Hvalid.
  - apply valid_result_layout in Hrun; [| exact Hvalid].
    destruct Hrun
      as (site & angle & s & Hwell & Hlots & Hparks & Hbld & Htrees & _).
    destruct Hwell as (_ & _ & _ & Hb & Ht).
    assert (Hinc :
              increasingBelow 0 (length (lots g)) (lotIds (buildings g))
              = true).
    { rewrite Hlots, Hbld, lotIds_rotateBack by exact Hpoly.
      unfold rotateBackPolys. rewrite length_map. exact Hb. }
    split; [exact Hinc |]. split.
    + apply increasingBelow_length in Hinc.
      unfold lotIds in Hinc. rewrite length_map in Hinc. lia.
    + rewrite Hlots, Hparks, Htrees.
      unfold rotateBackPolys, rotateBackPoints. rewrite !length_map.
      rewrite forallb_forall in *. intros t Hin.
      apply in_map_iff in Hin. destruct Hin as [t0 [Heq Hin0]].
      subst t. unfold treeOwned. rewrite Hpoint.
      apply (Ht t0 Hin0).
  - apply invalid_result_has_no_assets in Hrun; [| exact Hvalid].
    destruct Hrun as (Hl & Hp & Hb & Ht & _).
    rewrite Hl, Hp, Hb, Ht. repeat split. simpl. lia.
Qed.

End OwnershipOfAssets.

Lemma lots_and_parks_numbered_by_index_witness :
  exists g st,
    generateBuilding Flat.turf Flat.cos 100 Sample.low Sample.paddock
      Sample.config [] = Val (g, st) /\
    length (lots g) = 12%nat /\ length (parks g) = 1%nat /\
    (forall i l, nth_error (lots g) i = Some l ->
                 lotId (properties l) = Some i) /\
    (forall i p, nth_error (parks g) i = Some p ->
                 parkId (properties p) = Some i).
Proof.
  assert (H : exists g st,
             generateBuilding Flat.turf Flat.cos 100 Sample.low
               Sample.paddock Sample.config [] = Val (g, st) /\
             length (lots g) = 12%nat /\ length (parks g) = 1%nat).
  { eexists. eexists.
    split; [vm_compute; reflexivity | split; reflexivity]. }
  destruct H as [g [st [Hrun [Hl Hp]]]].
  exists g, st. split; [exact Hrun |]. split; [exact Hl |].
  split; [exact Hp |].
  eapply (lots_and_parks_numbered_by_index Flat.turf Flat.cos 100 Sample.low
            Sample.paddock Sample.config []).
  - intros f a c. reflexivity.
  - exact Hrun.
Defined.

Lemma buildings_and_trees_owned_witness :
  exists g st,
    generateBuilding Flat.turf Flat.cos 100 Sample.low Sample.paddock
      Sample.config [] = Val (g, st) /\
    length (buildings g) = 12%nat /\ length (trees g) = 13%nat /\
    increasingBelow 0 (length (lots g)) (lotIds (buildings g)) = true /\
    (length (buildings g) <= length (lots g))%nat /\
    forallb (treeOwned (length (lots g)) (length (parks g))) (trees g)
      = true.
Proof.
  assert (H : exists g st,
             generateBuilding Flat.turf Flat.cos 100 Sample.low
               Sample.paddock Sample.config [] = Val (g, st) /\
             length (buildings g) = 12%nat /\ length (trees g) = 13%nat).
  { eexists. eexists.
    split; [vm_compute; reflexivity | split; reflexivity]. }
  destruct H as [g [st [Hrun [Hb Ht]]]].
  exists g, st. split; [exact Hrun |]. split; [exact Hb |].
  split; [exact Ht |].
  eapply (buildings_and_trees_owned Flat.turf Flat.cos 100 Sample.low
            Sample.paddock Sample.config []).
  - intros f a c. reflexivity.
  - intros p a c. reflexivity.
  - exact Hrun.
Defined.

(** ** Sorting and classification *)

From Stdlib Require Import Permutation.

Lemma insertSorted_perm {A} (cmp : A -> A -> num) (x : A) (l : list A) :
  Permutation (insertSorted cmp x l) (x :: l).
Proof.
  induction l as [| y l IH]; simpl.
  - apply Permutation_refl.
  - destruct (0 <? cmp y x)%float.
    + apply Permutation_refl.
    + eapply Permutation_trans; [apply perm_skip; exact IH |].
      apply perm_swap.
Qed.

(** The comparator sort neither loses nor duplicates an element. *)
Lemma sortBy_perm {A} (cmp : A -> A -> num) (l : list A) :
  Permutation (sortBy cmp l) l.
Proof.
  unfold sortBy.
  assert (H : forall acc, Permutation
                            (fold_left (fun acc x => insertSorted cmp x acc)
                               l acc)
                            (l ++ acc)).
  { induction l as [| x l IH]; intro acc; simpl.
    - apply Permutation_refl.
    - eapply Permutation_trans; [apply IH |].
      eapply Permutation_trans;
        [apply Permutation_app_head; apply insertSorted_perm |].
      apply Permutation_sym. apply Permutation_middle. }
  specialize (H []). rewrite app_nil_r in H. exact H.
Qed.

Lemma map_snd_combine {A B} (l1 : list A) : forall l2 : list B,
  length l1 = length l2 -> map snd (combine l1 l2) = l2.
Proof.
  induction l1 as [| a l1 IH]; intros [| b l2] H; simpl in *;
    try discriminate; try reflexivity.
  rewrite IH by lia. reflexivity.
Qed.

Lemma map_fst_combine {A B} (l1 : list A) : forall l2 : list B,
  length l1 = length l2 -> map fst (combine l1 l2) = l1.
Proof.
  induction l1 as [| a l1 IH]; intros [| b l2] H; simpl in *;
    try discriminate; try reflexivity.
  rewrite IH by lia. reflexivity.
Qed.

(** In a list of pairs with distinct first components, the first component
    determines the pair. *)
Lemma NoDup_fst_inj {A B} (l : list (A * B)) (a : A) (b b' : B) :
  NoDup (map fst l) -> In (a, b) l -> In (a, b') l -> b = b'.
Proof.
  induction l as [| [x y] l IH]; simpl; intros Hnd H1 H2; [contradiction |].
  inversion Hnd as [| ? ? Hnotin Hnd']; subst.
  destruct H1 as [H1 | H1], H2 as [H2 | H2].
  - congruence.
  - inversion H1; subst. exfalso. apply Hnotin.
    apply in_map_iff. exists (a, b'). split; [reflexivity | exact H2].
  - inversion H2; subst. exfalso. apply Hnotin.
    apply in_map_iff. exists (a, b). split; [reflexivity | exact H1].
  - apply IH; assumption.
Qed.

Section Classification.

Variable T : Turf.
Variable config : SiteConfig.
Variable constraints : list UserConstraint.
Variable originalSitePoly : PolyF.
Variable alignmentAngle : num.

Local Open Scope float_scope.

Lemma assignParks_indices target : forall potentialParks current,
  map fst (assignParks T target current potentialParks)
  = map fst potentialParks.
Proof.
  induction potentialParks as [| [i block] rest IH]; intro current; simpl;
    [reflexivity |].
  destruct (current <? target); simpl; rewrite IH; reflexivity.
Qed.

Lemma assignParks_types target : forall potentialParks current i t,
  In (i, t) (assignParks T target current potentialParks) ->
  t = Park \/ t = Residential.
Proof.
  induction potentialParks as [| [j block] rest IH]; intros current i t H;
    simpl in H; [contradiction |].
  destruct (current <? target); destruct H as [H | H];
    try (inversion H; auto); eapply IH; exact H.
Qed.



Lemma poly_typeOf assigned ib : poly (typeOf assigned ib) = poly (snd ib).
Proof.
  unfold typeOf.
  destruct (find (fun p => (fst p =? fst ib)%nat) assigned) as [[j t]|];
    reflexivity.
Qed.

Lemma map_poly_anchorParks grid :
  map poly (anchorParks T constraints originalSitePoly alignmentAngle grid)
  = map poly grid.
Proof.
  unfold anchorParks. rewrite map_map. apply map_ext. intro b.
  destruct (isForcedPark T constraints originalSitePoly alignmentAngle b);
    reflexivity.
Qed.

Lemma anchorParks_forced grid b :
  In b (anchorParks T constraints originalSitePoly alignmentAngle grid) ->
  isForcedPark T constraints originalSitePoly alignmentAngle b = true ->
  cellType b = Park.
Proof.
  unfold anchorParks. intros Hin Hforced.
  apply in_map_iff in Hin. destruct Hin as [b0 [Heq _]].
  destruct (isForcedPark T constraints originalSitePoly alignmentAngle b0)
    eqn:H0; subst b; [reflexivity |].
  rewrite H0 in Hforced. discriminate.
Qed.

Lemma isForcedPark_typeOf assigned ib :
  isForcedPark T constraints originalSitePoly alignmentAngle
    (typeOf assigned ib)
  = isForcedPark T constraints originalSitePoly alignmentAngle (snd ib).
Proof.
  unfold isForcedPark. rewrite poly_typeOf. reflexivity.
Qed.

(** The classification keeps every block, leaves no block that came in
    unclassified so, and makes a park of every block that holds a park
    anchor. *)
Lemma classify_facts grid :
  Permutation
    (map poly
       (classify T config constraints originalSitePoly alignmentAngle grid))
    (map poly grid) /\
  (forall b,
     In b (classify T config constraints originalSitePoly alignmentAngle
             grid) ->
     (forall b0, In b0 grid -> cellType b0 = Unknown) ->
     cellType b = Park \/ cellType b = Residential) /\
  (forall b,
     In b (classify T config constraints originalSitePoly alignmentAngle
             grid) ->
     isForcedPark T constraints originalSitePoly alignmentAngle b = true ->
     cellType b = Park).
Proof.
  unfold classify.
  set (anchored :=
         anchorParks T constraints originalSitePoly alignmentAngle grid).
  set (sorted :=
         sortBy (fun a b => blockArea T b - blockArea T a) anchored).
  set (indexed := combine (seq 0 (length sorted)) sorted).
  set (potentialParks :=
         sortBy (fun a b => blockArea T (snd a) - blockArea T (snd b))
           (filter (fun ib => isUnknown (cellType (snd ib))) indexed)).
  set (assigned :=
         assignParks T
           (sumOf (blockArea T) anchored * (parkPercentage config / 100))
           (sumOf (blockArea T)
              (filter (fun b => isPark (cellType b)) anchored))
           potentialParks).
  assert (Hsorted : Permutation sorted anchored) by apply sortBy_perm.
  assert (Hlen : length (seq 0 (length sorted)) = length sorted)
    by apply length_seq.
  assert (Hsnd : map snd indexed = sorted)
    by (apply map_snd_combine; exact Hlen).
  assert (Hnd : NoDup (map fst indexed)).
  { unfold indexed. rewrite map_fst_combine by exact Hlen.
    apply seq_NoDup. }
  assert (Hpot : forall ib, In ib potentialParks <->
                            In ib indexed /\
                            isUnknown (cellType (snd ib)) = true).
  { intro ib. unfold potentialParks. split.
    - intro H. apply (Permutation_in _ (sortBy_perm _ _)) in H.
      apply filter_In in H. exact H.
    - intro H. apply (Permutation_in _ (Permutation_sym (sortBy_perm _ _))).
      apply filter_In. exact H. }
  assert (Hidx : map fst assigned = map fst potentialParks)
    by apply assignParks_indices.
  split; [| split].
  - rewrite map_map.
    rewrite (map_ext _ (fun ib => poly (snd ib)))
      by (intro ib; apply poly_typeOf).
    rewrite <- map_map, Hsnd.
    eapply Permutation_trans;
      [apply Permutation_map; exact Hsorted |].
    unfold anchored. rewrite map_poly_anchorParks. apply Permutation_refl.
  - intros b Hin Hall.
    apply in_map_iff in Hin. destruct Hin as [[i b1] [Heq Hin]].
    subst b. unfold typeOf. simpl.
    destruct (find (fun p => (fst p =? i)%nat) assigned) as [[j t]|] eqn:Hf.
    + apply find_some in Hf. destruct Hf as [Hf _].
      apply assignParks_types in Hf. simpl. exact Hf.
    + simpl.
      assert (Hb1 : In b1 anchored).
      { apply (Permutation_in _ Hsorted).
        rewrite <- Hsnd. apply in_map_iff.
        exists (i, b1). split; [reflexivity | exact Hin]. }
      assert (Hun : isUnknown (cellType b1) = true
                    \/ cellType b1 = Park).
      { unfold anchored, anchorParks in Hb1.
        apply in_map_iff in Hb1. destruct Hb1 as [b0 [Heq Hin0]].
        destruct (isForcedPark T constraints originalSitePoly
                    alignmentAngle b0); subst b1.
        - right. reflexivity.
        - left. rewrite (Hall b0 Hin0). reflexivity. }
      destruct Hun as [Hun | Hpark].
      * exfalso.
        assert (Hin' : In (i, b1) potentialParks)
          by (apply Hpot; split; [exact Hin | exact Hun]).
        assert (Hi : In i (map fst assigned)).
        { rewrite Hidx. apply in_map_iff.
          exists (i, b1). split; [reflexivity | exact Hin']. }
        apply in_map_iff in Hi. destruct Hi as [[i' t] [Hi' Hin'']].
        simpl in Hi'. subst i'.
        apply (find_none _ _ Hf) in Hin''. simpl in Hin''.
        rewrite Nat.eqb_refl in Hin''. discriminate.
      * left. exact Hpark.
  - intros b Hin Hforced.
    apply in_map_iff in Hin. destruct Hin as [[i b1] [Heq Hin]].
    subst b. rewrite isForcedPark_typeOf in Hforced. simpl in Hforced.
    assert (Hb1 : In b1 anchored).
    { apply (Permutation_in _ Hsorted).
      rewrite <- Hsnd. apply in_map_iff.
      exists (i, b1). split; [reflexivity | exact Hin]. }
    pose proof (anchorParks_forced _ _ Hb1 Hforced) as Hpark.
    unfold typeOf. simpl.
    destruct (find (fun p => (fst p =? i)%nat) assigned) as [[j t]|] eqn:Hf;
      [| exact Hpark].
    exfalso.
    apply find_some in Hf. destruct Hf as [Hf Hj]. simpl in Hj.
    apply Nat.eqb_eq in Hj. subst j.
    assert (Hi : In i (map fst potentialParks)).
    { rewrite <- Hidx. apply in_map_iff.
      exists (i, t). split; [reflexivity | exact Hf]. }
    apply in_map_iff in Hi. destruct Hi as [[i' b2] [Hi' Hin2]].
    simpl in Hi'. subst i'.
    apply Hpot in Hin2. destruct Hin2 as [Hin2 Hun]. simpl in Hun.
    assert (Heq : b1 = b2) by (eapply NoDup_fst_inj; eauto).
    subst b2. rewrite Hpark in Hun. discriminate.
Qed.

End Classification.

(** ** The block grid *)

Lemma fold_left_invariant {A B} (P : A -> Prop) (f : A -> B -> A)
    (l : list B) :
  (forall a b, P a -> P (f a b)) ->
  forall a, P a -> P (fold_left f l a).
Proof.
  intro Hstep. induction l as [| b l IH]; intros a Ha; simpl.
  - exact Ha.
  - apply IH. apply Hstep. exact Ha.
Qed.

Section Grid.

Variable T : Turf.
Variable Math_cos : num -> num.
Variable config : SiteConfig.
Variable constraints : list UserConstraint.
Variable originalSitePoly : PolyF.
Variable alignmentAngle : num.

Local Open Scope float_scope.

Lemma gridCellStep_inColumn x acc j :
  inColumn T originalSitePoly alignmentAngle acc ->
  inColumn T originalSitePoly alignmentAngle
    (gridCellStep T Math_cos config originalSitePoly alignmentAngle x acc j).
Proof.
  intros (Hkept & Hnd & Hpos).
  assert (Hnext :
            forall crossings,
              inColumn T originalSitePoly alignmentAngle
                (nextRow
                   {| gridInfo := gridInfo acc; intersections := crossings;
                      colCounter := colCounter acc;
                      rowCounter := rowCounter acc |})).
  { intro crossings. unfold inColumn. simpl.
    split; [exact Hkept |]. split; [exact Hnd |].
    eapply Forall_impl; [| exact Hpos]. simpl. intros c Hc. lia. }
  unfold gridCellStep.
  destruct (turf_booleanIntersects T _ _); [| apply Hnext].
  match goal with
  | |- context [turf_intersect T ?a ?b] =>
      destruct (turf_intersect T a b) as [[intersection|]|] eqn:Hint
  end; [| apply Hnext |].
  - simpl.
    destruct (Js.gtb (turf_area T intersection) 50) eqn:Harea;
      [| apply Hnext].
    unfold inColumn, nextRow. simpl.
    split; [| split].
    + apply Forall_app. split; [exact Hkept |].
      constructor; [| constructor].
      unfold keptCell. simpl.
      repeat split; [exact Harea | exact Hint].
    + rewrite map_app. simpl.
      apply NoDup_app; [exact Hnd | |].
      * constructor; [intros [] | constructor].
      * intros key Hin [Hkey | []]. subst key.
        apply in_map_iff in Hin. destruct Hin as [c [Hc Hin]].
        rewrite Forall_forall in Hpos. specialize (Hpos c Hin).
        unfold cellKey in Hc. inversion Hc. lia.
    + apply Forall_app. split.
      * eapply Forall_impl; [| exact Hpos]. simpl. intros c Hc. lia.
      * constructor; [| constructor]. simpl. right. lia.
  - unfold inColumn. simpl.
    split; [exact Hkept |]. split; [exact Hnd | exact Hpos].
Qed.

Lemma gridColumn_betweenColumns rows acc i :
  betweenColumns T originalSitePoly alignmentAngle acc ->
  betweenColumns T originalSitePoly alignmentAngle
    (gridColumn T Math_cos config originalSitePoly alignmentAngle rows acc
       i).
Proof.
  intros (Hkept & Hnd & Hpos). unfold gridColumn.
  match goal with
  | |- context [fold_left ?f rows ?a0] =>
      assert (Hin : inColumn T originalSitePoly alignmentAngle
                      (fold_left f rows a0) /\
                    colCounter (fold_left f rows a0) = colCounter acc)
  end.
  { apply (fold_left_invariant
             (fun a => inColumn T originalSitePoly alignmentAngle a /\
                       colCounter a = colCounter acc)).
    - intros a j [Ha Hc]. split; [apply gridCellStep_inColumn; exact Ha |].
      rewrite <- Hc. unfold gridCellStep.
      destruct (turf_booleanIntersects T _ _); [| reflexivity].
      match goal with
      | |- context [turf_intersect T ?p ?q] =>
          destruct (turf_intersect T p q) as [[?|]|]
      end; simpl; try reflexivity.
      match goal with
      | |- context [if ?c then _ else _] => destruct c
      end; reflexivity.
    - split; [| reflexivity]. unfold inColumn. simpl.
      split; [exact Hkept |]. split; [exact Hnd |].
      eapply Forall_impl; [| exact Hpos]. simpl. intros c Hc.
      left. exact Hc. }
  destruct Hin as [(Hk & Hn & Hp) Hcol].
  unfold betweenColumns. simpl.
  split; [exact Hk |]. split; [exact Hn |].
  eapply Forall_impl; [| exact Hp]. simpl. intros c Hc. lia.
Qed.

Lemma buildGrid_betweenColumns acc :
  buildGrid T Math_cos config originalSitePoly alignmentAngle = Val acc ->
  betweenColumns T originalSitePoly alignmentAngle acc.
Proof.
  unfold buildGrid. intro H.
  assert (H0 : betweenColumns T originalSitePoly alignmentAngle
                 {| gridInfo := []; intersections := [];
                    colCounter := 0; rowCounter := 0 |}).
  { unfold betweenColumns. simpl.
    split; [constructor |]. split; constructor. }
  apply bindR_Val in H. destruct H as [cols [_ H]].
  destruct cols as [| i cols].
  - inversion H. subst acc. exact H0.
  - apply bindR_Val in H. destruct H as [rows [_ H]].
    inversion H. subst acc.
    apply (fold_left_invariant
             (betweenColumns T originalSitePoly alignmentAngle));
      [| apply gridColumn_betweenColumns; exact H0].
    intros a b Ha. apply gridColumn_betweenColumns. exact Ha.
Qed.


(** The blocks the layout pass works on: the classification of the built
    grid keeps every cell's polygon, leaves no block unclassified (each is
    a park or residential), and makes a park of every block that holds a
    park anchor. *)
Theorem grid_blocks_classified acc :
  buildGrid T Math_cos config originalSitePoly alignmentAngle = Val acc ->
  Permutation
    (map poly
       (classify T config constraints originalSitePoly alignmentAngle
          (gridInfo acc)))
    (map poly (gridInfo acc)) /\
  (forall b,
     In b (classify T config constraints originalSitePoly alignmentAngle
             (gridInfo acc)) ->
     (cellType b = Park \/ cellType b = Residential) /\
     Js.gtb (turf_area T (poly b)) 50 = true) /\
  (forall b,
     In b (classify T config constraints originalSitePoly alignmentAngle
             (gridInfo acc)) ->
     isForcedPark T constraints originalSitePoly alignmentAngle b = true ->
     cellType b = Park).
Proof.
  intro H. apply buildGrid_betweenColumns in H.
  destruct H as (Hkept & _ & _).
  rewrite Forall_forall in Hkept.
  destruct (classify_facts T config constraints originalSitePoly
              alignmentAngle (gridInfo acc)) as (Hperm & Htypes & Hforced).
  split; [exact Hperm |]. split; [| exact Hforced].
  intros b Hin. split.
  - apply Htypes; [exact Hin |].
    intros b0 Hin0. apply (Hkept b0 Hin0).
  - assert (Hp : In (poly b) (map poly (gridInfo acc))).
    { apply (Permutation_in _ Hperm). apply in_map. exact Hin. }
    apply in_map_iff in Hp. destruct Hp as [b0 [Heq Hin0]].
    rewrite <- Heq. apply (Hkept b0 Hin0).
Qed.

End Grid.


Lemma grid_blocks_classified_witness :
  exists acc,
    buildGrid Flat.turf Flat.cos Sample.config paddockSite 90%float
      = Val acc /\
    Permutation
      (map poly
         (classify Flat.turf Sample.config [] paddockSite 90%float
            (gridInfo acc)))
      (map poly (gridInfo acc)) /\
    (forall b,
       In b (classify Flat.turf Sample.config [] paddockSite 90%float
               (gridInfo acc)) ->
       (cellType b = Park \/ cellType b = Residential) /\
       Js.gtb (turf_area Flat.turf (poly b)) 50%float = true) /\
    (forall b,
       In b (classify Flat.turf Sample.config [] paddockSite 90%float
               (gridInfo acc)) ->
       isForcedPark Flat.turf [] paddockSite 90%float b = true ->
       cellType b = Park).
Proof.
  assert (H : exists acc,
             buildGrid Flat.turf Flat.cos Sample.config paddockSite 90%float
               = Val acc).
  { eexists. vm_compute. reflexivity. }
  destruct H as [acc Hgrid].
  exists acc. split; [exact Hgrid |].
  exact (grid_blocks_classified Flat.turf Flat.cos Sample.config []
           paddockSite 90%float Hgrid).
Defined.

(** ** Trees of a park *)

Lemma eachFarFromEarlier_snoc {A} (near : A -> A -> bool) x :
  forall l earlier,
    eachFarFromEarlier near earlier (l ++ [x])
    = eachFarFromEarlier near earlier l
      && negb (existsb (near x) (earlier ++ l)).
Proof.
  induction l as [| y l IH]; intro earlier; simpl.
  - rewrite app_nil_r, andb_true_r. reflexivity.
  - rewrite IH, <- app_assoc. simpl. rewrite andb_assoc. reflexivity.
Qed.

Section ParkTrees.

Variable T : Turf.

Local Open Scope float_scope.

Lemma placeTrees_spaced parkId0 actualTarget parkBbox searchPoly attempts :
  forall placedTrees s,
    exists new,
      tempTrees
        (snd (placeTrees T actualTarget parkBbox searchPoly parkId0 attempts
                placedTrees s))
        = tempTrees s ++ new /\
      eachFarFromEarlier (treeTooClose T) placedTrees new = true /\
      Forall
        (fun t =>
           pt_properties t = parkTreeProps parkId0 /\
           turf_booleanPointInPolygon T (point (pt_coordinates t)) searchPoly
             = true)
        new /\
      Forall (fun k => (Js.ofNat k <? actualTarget) = true)
        (seq (length placedTrees) (length new)).
Proof.
  induction attempts as [| a rest IH]; intros placedTrees s; simpl.
  { exists []. rewrite app_nil_r. repeat split; constructor. }
  destruct (Js.ofNat (length placedTrees) <? actualTarget) eqn:Hcount.
  2: { exists []. rewrite app_nil_r. repeat split; constructor. }
  unfold bind at 1. unfold Math_random at 1. simpl.
  unfold bind at 1. unfold Math_random at 1. simpl.
  match goal with
  | |- context [if ?c then _ else _] => destruct c eqn:Hinside
  end.
  2: { match goal with
       | |- context [placeTrees _ _ _ _ _ _ _ ?s'] =>
           destruct (IH placedTrees s') as [new Hnew]
       end.
       exists new. exact Hnew. }
  match goal with
  | |- context [if negb ?c then _ else _] => destruct c eqn:Hclose
  end; simpl.
  { match goal with
    | |- context [placeTrees _ _ _ _ _ _ _ ?s'] =>
        destruct (IH placedTrees s') as [new Hnew]
    end.
    exists new. exact Hnew. }
  unfold bind at 1. unfold pushTree, modify. simpl.
  match goal with
  | |- context [placeTrees _ _ _ _ _ _ ?placed' ?s'] =>
      destruct (IH placed' s') as [new [Htrees [Hfar [Hall Hcnt]]]]
  end.
  simpl in Htrees.
  match type of Htrees with
  | _ = (_ ++ [?t]) ++ _ => exists (t :: new)
  end.
  split; [rewrite Htrees, <- app_assoc; reflexivity |].
  split.
  { simpl. apply andb_true_intro. split; [| exact Hfar].
    apply (f_equal negb) in Hclose. exact Hclose. }
  split.
  { constructor; [| exact Hall]. simpl. split; [reflexivity |].
    exact Hinside. }
  simpl. constructor; [exact Hcount |].
  rewrite length_app, Nat.add_1_r in Hcnt. exact Hcnt.
Qed.

(** The trees [fillParkWithTrees] adds to the layout come after the ones
    already there; each is tagged as a tree of this park, lies in the park
    shrunk by 2 m (the park itself when the buffer gives nothing or
    fails), and is at least 4 m from every tree added before it for this
    park; and a tree is only added while fewer than the target (one per
    40 square metres, at least 3, at most 500) are placed. *)
Theorem park_trees_spaced_and_bounded parkPoly parkId0 s :
  exists new,
    tempTrees (snd (fillParkWithTrees T parkPoly parkId0 s))
      = tempTrees s ++ new /\
    eachFarFromEarlier (treeTooClose T) [] new = true /\
    Forall
      (fun t =>
         pt_properties t = parkTreeProps parkId0 /\
         turf_booleanPointInPolygon T (point (pt_coordinates t))
           (searchPolyOf T parkPoly) = true)
      new /\
    Forall (fun k => (Js.ofNat k <? treeTargetOf T parkPoly) = true)
      (seq 0 (length new)).
Proof.
  unfold fillParkWithTrees, bind, liftR.
  match goal with
  | |- context [forRange ?a ?b] => destruct (forRange a b) as [attempts| |]
  end; simpl;
    try (exists []; rewrite app_nil_r; repeat split; constructor).
  apply (placeTrees_spaced parkId0 (treeTargetOf T parkPoly)
           (turf_bbox T parkPoly) (searchPolyOf T parkPoly) attempts [] s).
Qed.

End ParkTrees.

(** ** Entrance candidates *)

Section Entrances.

Variable T : Turf.

Local Open Scope float_scope.

Lemma dedupe_from cands :
  forall kept,
    eachFarFromEarlier (duplicates T) [] kept = true ->
    let out :=
      fold_left
        (fun uniqueFiltered cand =>
           if negb
                (existsb
                   (fun u =>
                      turf_distance T (midpoint cand) (midpoint u) Meters
                      <? 15)
                   uniqueFiltered)
           then uniqueFiltered ++ [cand] else uniqueFiltered)
        cands kept in
    eachFarFromEarlier (duplicates T) [] out = true /\
    (exists rest, out = kept ++ rest /\ Forall (fun c => In c cands) rest) /\
    Forall
      (fun c => In c out \/ existsb (duplicates T c) out = true) cands.
Proof.
  induction cands as [| c cands IH]; intros kept Hkept; simpl.
  { split; [exact Hkept |]. split; [| constructor].
    exists []. rewrite app_nil_r. split; [reflexivity | constructor]. }
  match goal with
  | |- context [if negb ?b then _ else _] => destruct b eqn:Hdup
  end; simpl.
  - destruct (IH kept Hkept) as [Hfar [[rest [Hout Hin]] Hcov]].
    split; [exact Hfar |]. split.
    + exists rest. split; [exact Hout |].
      eapply Forall_impl; [| exact Hin]. intros x Hx. right. exact Hx.
    + constructor; [| exact Hcov]. right.
      rewrite Hout, existsb_app. unfold duplicates at 1.
      rewrite Hdup. reflexivity.
  - assert (Hkept' : eachFarFromEarlier (duplicates T) [] (kept ++ [c])
                     = true).
    { rewrite eachFarFromEarlier_snoc, Hkept. simpl.
      unfold duplicates. rewrite Hdup. reflexivity. }
    destruct (IH (kept ++ [c]) Hkept') as [Hfar [[rest [Hout Hin]] Hcov]].
    split; [exact Hfar |]. split.
    + exists (c :: rest). split.
      * rewrite Hout, <- app_assoc. reflexivity.
      * constructor; [left; reflexivity |].
        eapply Forall_impl; [| exact Hin]. intros x Hx. right. exact Hx.
    + constructor; [| exact Hcov]. left.
      rewrite Hout. apply in_or_app. left. apply in_or_app. right.
      left. reflexivity.
Qed.


End Entrances.

(** ** Changing the entry index *)

Section EntryIndex.

Variable T : Turf.
Variable Math_cos : num -> num.

Local Open Scope float_scope.

(** A valid result is a result of the pipeline in the frame of the
    principal axis. *)
Lemma generateBuilding_valid_pipeline
    fuel rnd points config constraints g st :
  generateBuilding T Math_cos fuel rnd points config constraints
    = Val (g, st) ->
  isValid g = true ->
  exists p alignmentAngle,
    sitePolygon T points = Val p /\
    getPrincipalAxis T (turf_rewind T p) = Val alignmentAngle /\
    pipeline T Math_cos config constraints (turf_rewind T p)
      alignmentAngle fuel (turf_area T (turf_rewind T p)) rnd
      = Val (g, st).
Proof.
  unfold generateBuilding. intros H Hvalid.
  destruct (length points <? 3)%nat.
  { inversion H; subst. discriminate Hvalid. }
  apply catchR_Val in H. destruct H as [H | [_ H]].
  2: { inversion H; subst. discriminate Hvalid. }
  apply bindR_Val in H. destruct H as [p [Hsite H]].
  destruct (noCoordinates p).
  { inversion H; subst. discriminate Hvalid. }
  apply bindR_Val in H. destruct H as [kinks [_ H]].
  destruct (0 <? length kinks)%nat.
  { inversion H; subst. discriminate Hvalid. }
  destruct (turf_area T (turf_rewind T p) <? 100); [discriminate |].
  apply bindR_Val in H. destruct H as [angle [Hangle H]].
  exists p, angle. repeat split; assumption.
Qed.

(** The candidates of the access stage do not depend on the entry index:
    only the choice among them does. *)
Lemma accessStage_candidates config originalSitePoly alignmentAngle
    boundaryLine finalSuperblocks finalParks :
  exists found : Res (list Candidate),
    accessStage T Math_cos config originalSitePoly alignmentAngle
      boundaryLine finalSuperblocks finalParks
    = bindR found (fun cands =>
        bindR (selectGate T config cands) (fun ac => Val (ac, cands))) /\
    forall value,
      accessStage T Math_cos (Sidebar.updateEntryIndex config value)
        originalSitePoly alignmentAngle boundaryLine finalSuperblocks
        finalParks
      = bindR found (fun cands =>
          bindR (selectGate T (Sidebar.updateEntryIndex config value) cands)
            (fun ac => Val (ac, cands))).
Proof.
  destruct (0 <? length finalSuperblocks)%nat eqn:Hblocks.
  - exists
      (bindR (roadProjectionLines T Math_cos config originalSitePoly
                alignmentAngle)
         (fun lines =>
            bindR
              (foldR
                 (fun uniqueCandidates item =>
                    bindR
                      (call (turf_lineIntersect T (line item) boundaryLine))
                      (fun intersects =>
                         Val (uniqueCandidates ++
                              candidatesOn T originalSitePoly
                                finalSuperblocks finalParks item
                                intersects)))
                 lines [])
              (fun uniqueCandidates =>
                 Val (byAngle T originalSitePoly
                        (dedupe T uniqueCandidates))))).
    split; [| intro value]; unfold accessStage; rewrite Hblocks.
    2: change (roadProjectionLines T Math_cos
                 (Sidebar.updateEntryIndex config value) originalSitePoly
                 alignmentAngle)
         with (roadProjectionLines T Math_cos config originalSitePoly
                 alignmentAngle).
    all: destruct (roadProjectionLines T Math_cos config originalSitePoly
                     alignmentAngle) as [lines| |]; try reflexivity.
    all: simpl.
    all: match goal with
         | |- context [foldR ?f ?l ?a] =>
             destruct (foldR f l a) as [found| |]
         end; reflexivity.
  - exists (Val []).
    split; [| intro value]; unfold accessStage; rewrite Hblocks;
      reflexivity.
Qed.

Lemma finish_entry_index config originalSitePoly alignmentAngle fuel
    siteArea0 crossings s value r1 r2 :
  finish T Math_cos config originalSitePoly alignmentAngle fuel siteArea0
    crossings s = Val r1 ->
  finish T Math_cos (Sidebar.updateEntryIndex config value) originalSitePoly
    alignmentAngle fuel siteArea0 crossings s = Val r2 ->
  forgetGate r1 = forgetGate r2.
Proof.
  unfold finish. intros H1 H2.
  apply bindR_Val in H1. destruct H1 as [m1 [Hm1 H1]].
  apply bindR_Val in H2. destruct H2 as [m2 [Hm2 H2]].
  assert (Hm : Val m2 = Val m1) by (rewrite <- Hm1, <- Hm2; reflexivity).
  injection Hm as Hm. subst m2. clear Hm2.
  apply bindR_Val in H1. destruct H1 as [br1 [Hb1 H1]].
  apply bindR_Val in H2. destruct H2 as [br2 [Hb2 H2]].
  assert (Hb : Val br2 = Val br1) by (rewrite <- Hb1, <- Hb2; reflexivity).
  injection Hb as Hb. subst br2. clear Hb2.
  apply bindR_Val in H1. destruct H1 as [[ac1 c1] [Ha1 H1]].
  apply bindR_Val in H2. destruct H2 as [[ac2 c2] [Ha2 H2]].
  assert (Hc : c2 = c1).
  { destruct (accessStage_candidates config originalSitePoly alignmentAngle
                (firstLine br1)
                (rotateBackPolys T originalSitePoly alignmentAngle
                   (tempSuperblocks s))
                (rotateBackPolys T originalSitePoly alignmentAngle
                   (tempParks s))) as [found [Hsame Hfound]].
    rewrite Hfound in Ha2. rewrite Hsame in Ha1.
    destruct found as [cands| |]; try discriminate. simpl in Ha1, Ha2.
    apply bindR_Val in Ha1. destruct Ha1 as [g1 [_ Ha1]].
    apply bindR_Val in Ha2. destruct Ha2 as [g2 [_ Ha2]].
    injection Ha1 as _ Ha1. injection Ha2 as _ Ha2. congruence. }
  subst c2.
  apply bindR_Val in H1. destruct H1 as [w1 [_ H1]].
  apply bindR_Val in H2. destruct H2 as [w2 [_ H2]].
  injection H1 as H1. injection H2 as H2. subst r1 r2.
  reflexivity.
Qed.

Lemma pipeline_entry_index config constraints originalSitePoly
    alignmentAngle fuel siteArea0 rnd value r1 r2 :
  pipeline T Math_cos config constraints originalSitePoly alignmentAngle
    fuel siteArea0 rnd = Val r1 ->
  pipeline T Math_cos (Sidebar.updateEntryIndex config value) constraints
    originalSitePoly alignmentAngle fuel siteArea0 rnd = Val r2 ->
  forgetGate r1 = forgetGate r2.
Proof.
  unfold pipeline. intros H1 H2.
  apply bindR_Val in H1. destruct H1 as [grid1 [Hg1 H1]].
  apply bindR_Val in H2. destruct H2 as [grid2 [Hg2 H2]].
  assert (Hg : Val grid2 = Val grid1)
    by (rewrite <- Hg1, <- Hg2; reflexivity).
  injection Hg as Hg. subst grid2. clear Hg2.
  change (layoutPass T Math_cos (Sidebar.updateEntryIndex config value)
            originalSitePoly alignmentAngle
            (classify T (Sidebar.updateEntryIndex config value) constraints
               originalSitePoly alignmentAngle (gridInfo grid1))
            (emptyLayout rnd))
    with (layoutPass T Math_cos config originalSitePoly alignmentAngle
            (classify T config constraints originalSitePoly alignmentAngle
               (gridInfo grid1))
            (emptyLayout rnd)) in H2.
  destruct (layoutPass T Math_cos config originalSitePoly alignmentAngle
              (classify T config constraints originalSitePoly
                 alignmentAngle (gridInfo grid1))
              (emptyLayout rnd)) as [[u| |] s]; try discriminate.
  exact (finish_entry_index _ _ _ _ _ _ _ _ H1 H2).
Qed.

Lemma runs_entry_index fuel rnd points config constraints value r1 r2 :
  generateBuilding T Math_cos fuel rnd points config constraints = Val r1 ->
  generateBuilding T Math_cos fuel rnd points
    (Sidebar.updateEntryIndex config value) constraints = Val r2 ->
  isValid (fst r1) = true ->
  isValid (fst r2) = true ->
  forgetGate r1 = forgetGate r2.
Proof.
  destruct r1 as [g1 st1]. destruct r2 as [g2 st2]. simpl.
  intros H1 H2 V1 V2.
  apply generateBuilding_valid_pipeline in H1; [| exact V1].
  apply generateBuilding_valid_pipeline in H2; [| exact V2].
  destruct H1 as [p1 [a1 [Hp1 [Ha1 H1]]]].
  destruct H2 as [p2 [a2 [Hp2 [Ha2 H2]]]].
  assert (p2 = p1) by congruence. subst p2.
  assert (a2 = a1) by congruence. subst a2.
  exact (pipeline_entry_index _ _ _ _ _ _ _ _ H1 H2).
Qed.

(** Two valid results for the same boundary, constraints and random
    source, from configurations that differ in the entry index only, are
    the same apart from the gate and the perimeter walls: boundary,
    superblocks, lots, buildings, parks, trees, road markings, entrance
    candidates and all statistics are equal. *)
Theorem entry_index_moves_only_the_gate
    fuel rnd points config constraints value r1 r2 :
  generateBuilding T Math_cos fuel rnd points config constraints = Val r1 ->
  generateBuilding T Math_cos fuel rnd points
    (Sidebar.updateEntryIndex config value) constraints = Val r2 ->
  isValid (fst r1) = true ->
  isValid (fst r2) = true ->
  forgetGate r1 = forgetGate r2.
Proof.
  intros H1 H2 V1 V2.
  eapply runs_entry_index; eassumption.
Qed.

End EntryIndex.

Lemma entry_index_moves_only_the_gate_witness :
  exists r1 r2,
    generateBuilding Flat.turf Flat.cos 100 Sample.low Sample.paddock
      Sample.config [] = Val r1 /\
    generateBuilding Flat.turf Flat.cos 100 Sample.low Sample.paddock
      (Sidebar.updateEntryIndex Sample.config 1) [] = Val r2 /\
    isValid (fst r1) = true /\
    isValid (fst r2) = true /\
    option_map entryPoint (accessControl (fst r1))
      <> option_map entryPoint (accessControl (fst r2)) /\
    forgetGate r1 = forgetGate r2.
Proof.
  assert (H : exists r1 r2,
             generateBuilding Flat.turf Flat.cos 100 Sample.low
               Sample.paddock Sample.config [] = Val r1 /\
             generateBuilding Flat.turf Flat.cos 100 Sample.low
               Sample.paddock (Sidebar.updateEntryIndex Sample.config 1) []
               = Val r2 /\
             isValid (fst r1) = true /\
             isValid (fst r2) = true /\
             option_map entryPoint (accessControl (fst r1))
               <> option_map entryPoint (accessControl (fst r2))).
  { eexists. eexists.
    split; [vm_compute; reflexivity |].
    split; [vm_compute; reflexivity |].
    split; [reflexivity |]. split; [reflexivity |].
    simpl. discriminate. }
  destruct H as [r1 [r2 [H1 [H2 [V1 [V2 Hdiff]]]]]].
  exists r1, r2.
  split; [exact H1 |]. split; [exact H2 |]. split; [exact V1 |].
  split; [exact V2 |]. split; [exact Hdiff |].
  exact (entry_index_moves_only_the_gate Flat.turf Flat.cos 100 Sample.low
           Sample.paddock Sample.config [] 1 H1 H2 V1 V2).
Defined.

(** ** The entrance button of the side bar *)

Section RotateAccess.

Variable T : Turf.
Variable Math_cos : num -> num.



End RotateAccess.


(** ** The principal axis *)




Section PrincipalAxis.

Variable T : Turf.

Local Open Scope float_scope.



End PrincipalAxis.


(** ** Road markings *)

Lemma foldR_invariant {A S} (P : S -> Prop) (body : S -> A -> Res S) arr :
  (forall s x s', P s -> body s x = Val s' -> P s') ->
  forall s s', P s -> foldR body arr s = Val s' -> P s'.
Proof.
  intro Hbody. induction arr as [| x arr IH]; intros s s' Hs H; simpl in H.
  - inversion H; subst. exact Hs.
  - apply bindR_Val in H. destruct H as [s1 [H1 H]].
    eapply IH; [| exact H]. eapply Hbody; [exact Hs | exact H1].
Qed.

Section RoadMarkings.

Variable T : Turf.
Variable Math_cos : num -> num.
Variable config : SiteConfig.
Variable originalSitePoly : PolyF.
Variable alignmentAngle : num.

Local Open Scope float_scope.

Lemma intersectsPark_false tempParks box :
  intersectsPark T tempParks box = Val false ->
  Forall
    (fun park =>
       exists b,
         polygon T [box] = Returned b /\
         turf_booleanIntersects T b park = false)
    tempParks.
Proof.
  induction tempParks as [| park rest IH]; simpl; intro H; [constructor |].
  apply bindR_Val in H. destruct H as [b [Hb H]].
  apply call_Val in Hb.
  destruct (turf_booleanIntersects T b park) eqn:Hhit; [discriminate |].
  constructor; [exists b; split; assumption | apply IH; exact H].
Qed.

Lemma stripeLoop_clear tempParks mkBox limit step fuel :
  forall curr stripes result,
    Forall (stripeClearOfParks T tempParks) stripes ->
    stripeLoop T tempParks mkBox limit step fuel curr stripes = Val result ->
    Forall (stripeClearOfParks T tempParks) result /\
    (stripes <> [] -> result <> []).
Proof.
  induction fuel as [| fuel IH]; intros curr stripes result Hs H; simpl in H.
  - destruct (curr <? limit); [discriminate |].
    inversion H; subst. split; [exact Hs | intro Hne; exact Hne].
  - destruct (curr <? limit).
    2: { inversion H; subst. split; [exact Hs | intro Hne; exact Hne]. }
    apply bindR_Val in H. destruct H as [hit [Hhit H]].
    destruct hit; simpl in H.
    + eapply IH; [exact Hs | exact H].
    + apply IH in H.
      * destruct H as [Hall Hne]. split; [exact Hall |].
        intros _. apply Hne. intro Hnil.
        apply app_eq_nil in Hnil. destruct Hnil as [_ Hnil]. discriminate.
      * apply Forall_app. split; [exact Hs |].
        constructor; [| constructor].
        exists (mkBox curr). split; [reflexivity |].
        apply intersectsPark_false. exact Hhit.
Qed.

Lemma generateZebraStripes_clear tempParks fuel cx cy isVertical z :
  generateZebraStripes T Math_cos config originalSitePoly tempParks fuel
    cx cy isVertical = Val (Some z) ->
  zebraMarking T tempParks z.
Proof.
  unfold generateZebraStripes. intro H.
  apply bindR_Val in H. destruct H as [stripes [Hloop H]].
  destruct (0 <? length stripes)%nat eqn:Hlen; [| discriminate].
  inversion H; subst z. exists stripes. split; [reflexivity |].
  split.
  { intro Hnil. subst stripes. discriminate Hlen. }
  destruct isVertical;
    apply stripeLoop_clear in Hloop; try constructor;
    destruct Hloop as [Hall _]; exact Hall.
Qed.

Lemma markIntersection_clear tempParks parkBoundaries fuel markings ixy
    markings' :
  Forall (zebraMarking T tempParks) markings ->
  markIntersection T Math_cos config originalSitePoly alignmentAngle
    tempParks parkBoundaries fuel markings ixy = Val markings' ->
  Forall (zebraMarking T tempParks) markings'.
Proof.
  intros Hm H. unfold markIntersection in H. destruct ixy as [ix iy].
  match type of H with
  | (if ?c then _ else _) = _ => destruct c
  end.
  2: { inversion H; subst. exact Hm. }
  match type of H with
  | (if ?c then _ else _) = _ => destruct c
  end.
  { inversion H; subst. exact Hm. }
  match type of H with
  | (if ?c then _ else _) = _ => destruct c
  end.
  2: { inversion H; subst. exact Hm. }
  revert H. apply foldR_invariant; [| exact Hm].
  intros s [[offX offY] vert] s' Hs Hstep.
  apply bindR_Val in Hstep. destruct Hstep as [zebra [Hz Hstep]].
  destruct zebra as [z |].
  2: { inversion Hstep; subst. exact Hs. }
  match type of Hstep with
  | (if ?c then _ else _) = _ => destruct c
  end; inversion Hstep; subst; [| exact Hs].
  apply Forall_app. split; [exact Hs |].
  constructor; [| constructor].
  eapply generateZebraStripes_clear. exact Hz.
Qed.

Lemma roadMarkingsOf_clear tempParks crossings fuel markings :
  roadMarkingsOf T Math_cos config originalSitePoly alignmentAngle
    tempParks crossings fuel = Val markings ->
  Forall (zebraMarking T tempParks) markings.
Proof.
  unfold roadMarkingsOf.
  apply foldR_invariant; [| constructor].
  intros s x s' Hs Hstep.
  eapply markIntersection_clear; [exact Hs | exact Hstep].
Qed.

Lemma roadMarkingsOf_no_parks crossings fuel :
  roadMarkingsOf T Math_cos config originalSitePoly alignmentAngle
    [] crossings fuel = Val [].
Proof.
  unfold roadMarkingsOf. simpl parkBoundariesOf.
  induction crossings as [| [ix iy] rest IH]; [reflexivity |].
  simpl foldR. unfold markIntersection at 1. simpl existsb.
  destruct (turf_booleanPointInPolygon T (point (ix, iy))
              (workingSitePoly T originalSitePoly alignmentAngle));
    simpl; exact IH.
Qed.

Lemma finish_markings fuel siteArea0 crossings s g st :
  finish T Math_cos config originalSitePoly alignmentAngle fuel siteArea0
    crossings s = Val (g, st) ->
  exists tempMarkings,
    roadMarkingsOf T Math_cos config originalSitePoly alignmentAngle
      (tempParks s) crossings fuel = Val tempMarkings /\
    roadMarkings g
      = rotateBackPolys T originalSitePoly alignmentAngle tempMarkings /\
    parks g
      = rotateBackPolys T originalSitePoly alignmentAngle (tempParks s).
Proof.
  unfold finish. intro H.
  apply bindR_Val in H. destruct H as [markings [Hmark H]].
  apply bindR_Val in H. destruct H as [br [_ H]].
  apply bindR_Val in H. destruct H as [[ac cands] [_ H]].
  apply bindR_Val in H. destruct H as [walls [_ H]].
  injection H as Hg _. subst g. simpl.
  exists markings. repeat split. exact Hmark.
Qed.

End RoadMarkings.

Section RoadMarkingsOfResults.

Variable T : Turf.
Variable Math_cos : num -> num.

(** Zebra crossings are drawn near parks only: a result without parks has
    no road markings. *)
Theorem no_parks_no_road_markings
    fuel rnd points config constraints g st :
  generateBuilding T Math_cos fuel rnd points config constraints
    = Val (g, st) ->
  parks g = [] ->
  roadMarkings g = [].
Proof.
  intros Hrun Hparks.
  pose proof Hrun as Hcases. apply generateBuilding_cases in Hcases.
  destruct Hcases as [[_ [Hg | [b [msg Hg]]]] | Hvalid];
    [subst g; reflexivity | subst g; reflexivity |].
  apply generateBuilding_valid_inv in Hrun; [| exact Hvalid].
  destruct Hrun as [p [angle [_ Hpipe]]].
  apply pipeline_inv in Hpipe. destruct Hpipe as [crossings [s Hfin]].
  apply finish_markings in Hfin.
  destruct Hfin as [markings [Hmark [Hroad Hp]]].
  rewrite Hparks in Hp. symmetry in Hp.
  unfold rotateBackPolys in Hp. apply map_eq_nil in Hp.
  rewrite Hp, roadMarkingsOf_no_parks in Hmark.
  injection Hmark as Hmark. subst markings.
  rewrite Hroad. reflexivity.
Qed.

(** The road markings of a valid result are, turned back from the working
    frame, zebra crossings of at least one stripe each, and in the working
    frame no stripe meets a park: the parks of the result are the same
    turn of the parks the stripes were tested against. *)
Theorem zebra_stripes_clear_of_parks
    fuel rnd points config constraints g st :
  generateBuilding T Math_cos fuel rnd points config constraints
    = Val (g, st) ->
  isValid g = true ->
  exists site alignmentAngle tempParks tempMarkings,
    siteBoundary g = Some site /\
    parks g = rotateBackPolys T site alignmentAngle tempParks /\
    roadMarkings g = rotateBackPolys T site alignmentAngle tempMarkings /\
    Forall (zebraMarking T tempParks) tempMarkings.
Proof.
  intros Hrun Hvalid.
  apply generateBuilding_valid_inv in Hrun; [| exact Hvalid].
  destruct Hrun as [p [angle [_ Hpipe]]].
  apply pipeline_inv in Hpipe. destruct Hpipe as [crossings [s Hfin]].
  pose proof Hfin as Hinv. apply finish_inv in Hinv.
  destruct Hinv as [br [ac [cands [_ [_ [_ [Hsite _]]]]]]].
  apply finish_markings in Hfin.
  destruct Hfin as [markings [Hmark [Hroad Hp]]].
  exists (turf_rewind T p), angle, (tempParks s), markings.
  split; [exact Hsite |]. split; [exact Hp |]. split; [exact Hroad |].
  eapply roadMarkingsOf_clear. exact Hmark.
Qed.

End RoadMarkingsOfResults.

Lemma no_parks_no_road_markings_witness :
  exists g st,
    generateBuilding Flat.turf Flat.cos 100 Sample.low Sample.paddock
      configWithoutParks [] = Val (g, st) /\
    isValid g = true /\
    parks g = [] /\
    roadMarkings g = [].
Proof.
  assert (H : exists g st,
             generateBuilding Flat.turf Flat.cos 100 Sample.low
               Sample.paddock configWithoutParks [] = Val (g, st) /\
             isValid g = true /\
             parks g = []).
  { eexists. eexists. split; [vm_compute; reflexivity |].
    split; reflexivity. }
  destruct H as [g [st [Hrun [Hvalid Hparks]]]].
  exists g, st. split; [exact Hrun |]. split; [exact Hvalid |].
  split; [exact Hparks |].
  exact (no_parks_no_road_markings Flat.turf Flat.cos 100 Sample.low
           Sample.paddock configWithoutParks [] Hrun Hparks).
Defined.

Lemma zebra_stripes_clear_of_parks_witness :
  exists g st,
    generateBuilding Flat.turf Flat.cos 100 Sample.low Sample.rectangle
      Sample.config [] = Val (g, st) /\
    isValid g = true /\
    length (roadMarkings g) = 10%nat /\
    exists site alignmentAngle tempParks tempMarkings,
      siteBoundary g = Some site /\
      parks g = rotateBackPolys Flat.turf site alignmentAngle tempParks /\
      roadMarkings g
        = rotateBackPolys Flat.turf site alignmentAngle tempMarkings /\
      Forall (zebraMarking Flat.turf tempParks) tempMarkings.
Proof.
  assert (H : exists g st,
             generateBuilding Flat.turf Flat.cos 100 Sample.low
               Sample.rectangle Sample.config [] = Val (g, st) /\
             isValid g = true /\
             length (roadMarkings g) = 10%nat).
  { eexists. eexists. split; [vm_compute; reflexivity |].
    split; reflexivity. }
  destruct H as [g [st [Hrun [Hvalid Hlen]]]].
  exists g, st. split; [exact Hrun |]. split; [exact Hvalid |].
  split; [exact Hlen |].
  exact (zebra_stripes_clear_of_parks Flat.turf Flat.cos 100 Sample.low
           Sample.rectangle Sample.config [] Hrun Hvalid).
Defined.

(** ** Where the entrance candidates are *)

Lemma foldR_members {A S} (P : S -> Prop) (body : S -> A -> Res S) arr :
  (forall s x s', In x arr -> P s -> body s x = Val s' -> P s') ->
  forall s s', P s -> foldR body arr s = Val s' -> P s'.
Proof.
  induction arr as [| x arr IH]; intros Hbody s s' Hs H; simpl in H.
  - inversion H; subst. exact Hs.
  - apply bindR_Val in H. destruct H as [s1 [H1 H]].
    eapply IH; [| | exact H].
    + intros t y t' Hy. apply Hbody. right. exact Hy.
    + eapply Hbody; [left; reflexivity | exact Hs | exact H1].
Qed.

Section EntrancesOnRoads.

Variable T : Turf.
Variable Math_cos : num -> num.

Local Open Scope float_scope.

Lemma candidatesOn_members originalSitePoly finalSuperblocks finalParks
    item intersects c :
  In c (candidatesOn T originalSitePoly finalSuperblocks finalParks item
          intersects) ->
  exists insidePoint,
    In (midpoint c) intersects /\
    roadBearing c = bearing item /\
    (insidePoint
       = turf_destination T (midpoint c) 0.002 (bearing item) Kilometers \/
     insidePoint
       = turf_destination T (midpoint c) 0.002 (bearing item + 180)
           Kilometers) /\
    turf_booleanPointInPolygon T insidePoint originalSitePoly = true /\
    existsb (fun block => turf_booleanPointInPolygon T insidePoint block)
      finalSuperblocks = false /\
    existsb (fun pk => turf_booleanPointInPolygon T insidePoint pk)
      finalParks = false.
Proof.
  unfold candidatesOn. intro H. apply in_flat_map in H.
  destruct H as [pt [Hpt H]].
  destruct (turf_booleanPointInPolygon T
              (turf_destination T pt 0.002 (bearing item) Kilometers)
              originalSitePoly) eqn:Hp1.
  - match type of H with
    | In _ (if negb ?a && negb ?b then _ else _) =>
        destruct a eqn:Hblocks; destruct b eqn:Hparks
    end; simpl in H; try contradiction.
    destruct H as [H | []]. subst c. simpl.
    exists (turf_destination T pt 0.002 (bearing item) Kilometers).
    repeat split; try assumption. left. reflexivity.
  - destruct (turf_booleanPointInPolygon T
                (turf_destination T pt 0.002 (bearing item + 180)
                   Kilometers)
                originalSitePoly) eqn:Hp2; [| contradiction].
    match type of H with
    | In _ (if negb ?a && negb ?b then _ else _) =>
        destruct a eqn:Hblocks; destruct b eqn:Hparks
    end; simpl in H; try contradiction.
    destruct H as [H | []]. subst c. simpl.
    exists (turf_destination T pt 0.002 (bearing item + 180) Kilometers).
    repeat split; try assumption. right. reflexivity.
Qed.

Lemma accessStage_on_roads config originalSitePoly alignmentAngle
    boundaryLine finalSuperblocks finalParks ac cands :
  accessStage T Math_cos config originalSitePoly alignmentAngle
    boundaryLine finalSuperblocks finalParks = Val (ac, cands) ->
  exists lines,
    (cands = [] \/
     roadProjectionLines T Math_cos config originalSitePoly alignmentAngle
       = Val lines) /\
    Forall
      (roadEntrance T originalSitePoly boundaryLine finalSuperblocks
         finalParks lines)
      cands.
Proof.
  unfold accessStage.
  destruct (0 <? length finalSuperblocks)%nat.
  2: { intro H. inversion H; subst. exists []. split; [left; reflexivity |].
       constructor. }
  intro H.
  apply bindR_Val in H. destruct H as [lines [Hlines H]].
  apply bindR_Val in H. destruct H as [found [Hfound H]].
  apply bindR_Val in H. destruct H as [gate [_ H]].
  injection H as _ Hcands.
  exists lines. split; [right; exact Hlines |].
  assert (Hall : Forall
                   (roadEntrance T originalSitePoly boundaryLine
                      finalSuperblocks finalParks lines)
                   found).
  { revert Hfound. apply foldR_members; [| constructor].
    intros s item s' Hitem Hs Hstep.
    apply bindR_Val in Hstep. destruct Hstep as [intersects [Hcall Hstep]].
    apply call_Val in Hcall. injection Hstep as Hstep. subst s'.
    apply Forall_app. split; [exact Hs |].
    apply Forall_forall. intros c Hc.
    apply candidatesOn_members in Hc.
    destruct Hc as [ip [Hmid [Hbear [Hip [Hin [Hsb Hpk]]]]]].
    exists item, intersects, ip. repeat split; assumption. }
  subst cands. apply Forall_forall. intros c Hc.
  assert (Hsorted : Permutation
                      (byAngle T originalSitePoly (dedupe T found))
                      (dedupe T found)) by apply sortBy_perm.
  apply (Permutation_in _ Hsorted) in Hc.
  destruct (dedupe_from T found [] eq_refl) as [_ [[rest [Hout Hin]] _]].
  simpl in Hout. unfold dedupe in Hc. rewrite Hout in Hc.
  rewrite Forall_forall in Hin. apply Hin in Hc.
  rewrite Forall_forall in Hall. apply Hall. exact Hc.
Qed.

Lemma finish_access config originalSitePoly alignmentAngle fuel siteArea0
    crossings s g st :
  finish T Math_cos config originalSitePoly alignmentAngle fuel siteArea0
    crossings s = Val (g, st) ->
  exists boundaryResult accessControlData uniqueCandidates,
    turf_polygonToLine T originalSitePoly = Returned boundaryResult /\
    accessStage T Math_cos config originalSitePoly alignmentAngle
      (firstLine boundaryResult) (superblocks g) (parks g)
      = Val (accessControlData, uniqueCandidates) /\
    siteBoundary g = Some originalSitePoly /\
    entranceCandidates g = map latLngOf uniqueCandidates.
Proof.
  unfold finish. intro H.
  apply bindR_Val in H. destruct H as [markings [_ H]].
  apply bindR_Val in H. destruct H as [br [Hline H]].
  apply call_Val in Hline.
  apply bindR_Val in H. destruct H as [[ac cands] [Hacc H]].
  apply bindR_Val in H. destruct H as [walls [_ H]].
  injection H as Hg _. subst g. simpl.
  exists br, ac, cands. repeat split; assumption.
Qed.

(** Entrance candidates are where roads meet the boundary. In a valid
    result every entrance candidate is a point where one of the projected
    road axes crosses the boundary line of the site, such that the point
    2 m from it along that axis, on one side or the other, is inside the
    site and in none of the returned superblocks and parks. *)
Theorem entrance_candidates_on_roads
    fuel rnd points config constraints g st :
  generateBuilding T Math_cos fuel rnd points config constraints
    = Val (g, st) ->
  isValid g = true ->
  exists site alignmentAngle boundaryResult lines cands,
    siteBoundary g = Some site /\
    turf_polygonToLine T site = Returned boundaryResult /\
    (cands = [] \/
     roadProjectionLines T Math_cos config site alignmentAngle
       = Val lines) /\
    entranceCandidates g = map latLngOf cands /\
    Forall
      (roadEntrance T site (firstLine boundaryResult) (superblocks g)
         (parks g) lines)
      cands.
Proof.
  intros Hrun Hvalid.
  apply generateBuilding_valid_inv in Hrun; [| exact Hvalid].
  destruct Hrun as [p [angle [_ Hpipe]]].
  apply pipeline_inv in Hpipe. destruct Hpipe as [crossings [s Hfin]].
  apply finish_access in Hfin.
  destruct Hfin as [br [ac [cands [Hline [Hacc [Hsite Hcands]]]]]].
  apply accessStage_on_roads in Hacc.
  destruct Hacc as [lines [Hlines Hall]].
  exists (turf_rewind T p), angle, br, lines, cands.
  repeat split; assumption.
Qed.

End EntrancesOnRoads.

Lemma entrance_candidates_on_roads_witness :
  exists g st,
    generateBuilding Flat.turf Flat.cos 100 Sample.low Sample.paddock
      Sample.config [] = Val (g, st) /\
    isValid g = true /\
    length (entranceCandidates g) = 2%nat /\
    exists site alignmentAngle boundaryResult lines cands,
      siteBoundary g = Some site /\
      turf_polygonToLine Flat.turf site = Returned boundaryResult /\
      (cands = [] \/
       roadProjectionLines Flat.turf Flat.cos Sample.config site
         alignmentAngle = Val lines) /\
      entranceCandidates g = map latLngOf cands /\
      Forall
        (roadEntrance Flat.turf site (firstLine boundaryResult)
           (superblocks g) (parks g) lines)
        cands.
Proof.
  assert (H : exists g st,
             generateBuilding Flat.turf Flat.cos 100 Sample.low
               Sample.paddock Sample.config [] = Val (g, st) /\
             isValid g = true /\
             length (entranceCandidates g) = 2%nat).
  { eexists. eexists. split; [vm_compute; reflexivity |].
    split; reflexivity. }
  destruct H as [g [st [Hrun [Hvalid Hlen]]]].
  exists g, st. split; [exact Hrun |]. split; [exact Hvalid |].
  split; [exact Hlen |].
  exact (entrance_candidates_on_roads Flat.turf Flat.cos 100 Sample.low
           Sample.paddock Sample.config [] Hrun Hvalid).
Defined.
